(** * The inode layer of the file system (filesys/inode.c)

    A shallow embedding of [filesys/inode.c]: the on-disk inode with 124
    direct sector pointers and a two-level tree of indirect blocks, the
    list of open inodes, and sector-granular reads and writes.

    Conventions of the embedding:
    - [block_sector_t] and [size_t] are 32-bit unsigned integers, [off_t]
      and [int] 32-bit signed ones; they are values of [Z] and every place
      where the C code converts or may wrap is written with [to_uint32] or
      [to_int32];
    - a sector is a list of 512 bytes; structures stored in a sector are
      laid out little-endian, field after field; a buffer of the caller is
      the function from offsets to the bytes found there;
    - the C globals [fs_device], [open_inodes] and the free map, and the
      heap of [struct inode] objects, are the fields of the state [fs];
      operations live in the monad [M] of state and failure, where [None]
      stands for a kernel panic (a failed [ASSERT]) or for undefined
      behaviour of the C program (an access outside an array, a null or
      dangling pointer, a store through a pointer that was never set);
    - loops carry a fuel argument, computed from the loop's own variant;
      a loop out of fuel fails, and the properties below show the results
      that the loops do deliver. *)

From Stdlib Require Import ZArith List Lia.
From Stdlib.Strings Require Import Byte.
From stdpp Require Import base option list gmap.

Local Open Scope Z_scope.

(** ** Machine integers *)

Definition to_uint32 (z : Z) : Z := z mod 2 ^ 32.
Definition to_int32 (z : Z) : Z := (z + 2 ^ 31) mod 2 ^ 32 - 2 ^ 31.

(** ** Bytes, words and sectors *)

Definition byte_of_Z (z : Z) : byte :=
  default x00 (Byte.of_N (Z.to_N (z mod 256))).
Definition Z_of_byte (b : byte) : Z := Z.of_N (Byte.to_N b).

(** A 32-bit word in memory: four bytes, least significant first. *)
Definition encode_le32 (v : Z) : list byte :=
  [byte_of_Z v; byte_of_Z (Z.shiftr v 8);
   byte_of_Z (Z.shiftr v 16); byte_of_Z (Z.shiftr v 24)].

Definition decode_le32 (bs : list byte) : Z :=
  match bs with
  | [b0; b1; b2; b3] =>
      Z_of_byte b0 + Z.shiftl (Z_of_byte b1) 8
      + Z.shiftl (Z_of_byte b2) 16 + Z.shiftl (Z_of_byte b3) 24
  | _ => 0
  end.

Definition BLOCK_SECTOR_SIZE : Z := 512.

(** The contents of one sector. *)
Abbreviation block := (list byte).

Definition zero_block : block := replicate 512 x00.

(** The [i]-th 32-bit word of a sector-sized buffer. *)
Definition word_at (b : block) (i : nat) : Z :=
  decode_le32 (take 4 (drop (4 * i) b)).

Definition encode_words (ws : list Z) : list byte :=
  concat (map encode_le32 ws).

(** ** Data model *)

Definition INODE_MAGIC : Z := 0x494e4f44.
Definition DIRECT_BLOCK : Z := 124.
Definition MAX_BLOCK_NUMBER : Z := 16637.

(** [struct inode_disk]: the on-disk inode, exactly one sector long. *)
Module InodeDisk.
Record t := mk {
  sectors : list Z;        (* block_sector_t sectors[DIRECT_BLOCK] *)
  ib : Z;                  (* block_sector_t ib *)
  is_directory : bool;
  padding : list byte;     (* char padding[3] *)
  length : Z;              (* off_t length *)
  magic : Z                (* unsigned magic *)
}.
End InodeDisk.
Abbreviation inode_disk := InodeDisk.t.

(** [struct indirect_block]: 128 sector numbers. *)
Abbreviation indirect_block := (list Z).

(** [struct inode]: the in-memory inode. Membership in the list of open
    inodes (the [elem] field) is kept in the state, see [open_inodes]. *)
Module Inode.
Record t := mk {
  sector : Z;              (* block_sector_t sector *)
  open_cnt : Z;            (* int open_cnt *)
  removed : bool;
  deny_write_cnt : Z;      (* int deny_write_cnt *)
  data : inode_disk
}.
Definition set_open_cnt (v : Z) (i : t) : t :=
  mk (sector i) v (removed i) (deny_write_cnt i) (data i).
Definition set_removed (v : bool) (i : t) : t :=
  mk (sector i) (open_cnt i) v (deny_write_cnt i) (data i).
Definition set_deny_write_cnt (v : Z) (i : t) : t :=
  mk (sector i) (open_cnt i) (removed i) v (data i).
End Inode.
Abbreviation inode := Inode.t.

(** The memory image of an on-disk inode, and back. *)
Definition encode_inode_disk (d : inode_disk) : block :=
  encode_words (InodeDisk.sectors d) ++ encode_le32 (InodeDisk.ib d)
  ++ [if InodeDisk.is_directory d then x01 else x00]
  ++ InodeDisk.padding d
  ++ encode_le32 (InodeDisk.length d) ++ encode_le32 (InodeDisk.magic d).

Definition decode_inode_disk (b : block) : inode_disk :=
  InodeDisk.mk (map (word_at b) (seq 0 124)) (word_at b 124)
    (negb (Byte.eqb (default x00 (b !! 500%nat)) x00))
    (take 3 (drop 501 b))
    (to_int32 (word_at b 126)) (word_at b 127).

Definition encode_indirect_block (ib : indirect_block) : block :=
  encode_words ib.
Definition decode_indirect_block (b : block) : indirect_block :=
  map (word_at b) (seq 0 128).

(** [calloc (1, sizeof (struct inode_disk))] and
    [calloc (1, sizeof (struct indirect_block))]. *)
Definition zero_inode_disk : inode_disk :=
  InodeDisk.mk (replicate 124 0) 0 false [x00; x00; x00] 0 0.
Definition zero_indirect_block : indirect_block := replicate 128 0.

(** The state of the module: the block device, the free map, the heap of
    allocated [struct inode] objects and the list [open_inodes] (pointers
    into that heap, front first). *)
Record fs := mk_fs {
  fs_device : gmap Z block;
  free_map : list bool;
  inodes : gmap nat inode;
  open_inodes : list nat
}.

Definition set_fs_device (d : gmap Z block) (st : fs) : fs :=
  mk_fs d (free_map st) (inodes st) (open_inodes st).
Definition set_free_map (m : list bool) (st : fs) : fs :=
  mk_fs (fs_device st) m (inodes st) (open_inodes st).
Definition set_inodes (h : gmap nat inode) (st : fs) : fs :=
  mk_fs (fs_device st) (free_map st) h (open_inodes st).
Definition set_open_inodes (l : list nat) (st : fs) : fs :=
  mk_fs (fs_device st) (free_map st) (inodes st) l.

(** ** The monad of state and failure *)

Definition M (A : Type) : Type := fs → option (A * fs).

Definition ret {A} (a : A) : M A := λ st, Some (a, st).
Definition bind {A B} (m : M A) (k : A → M B) : M B :=
  λ st, match m st with
        | Some (a, st') => k a st'
        | None => None
        end.
Definition fail {A} : M A := λ _, None.
Definition gets {A} (f : fs → A) : M A := λ st, Some (f st, st).
Definition modify (f : fs → fs) : M unit := λ st, Some (tt, f st).
Definition lift {A} (o : option A) : M A :=
  λ st, match o with Some a => Some (a, st) | None => None end.

(** stdpp's notations [x ← m; k] and [m;; k] are used for [bind]. *)
#[global] Instance M_ret : MRet M := @ret.
#[global] Instance M_bind : MBind M := λ A B k m, bind m k.

(** ** The collaborators: block device and free map *)

(** Modelled from the spec: the block device (devices/block.c is not part
    of the sources), which reads and writes whole sectors by number. A
    read always delivers 512 bytes; a sector that was never written reads
    as zeros. *)
Definition block_read (s : Z) : M block :=
  gets (λ st, resize 512 x00 (default [] (fs_device st !! s))).

(** [block_write] takes the first 512 bytes found at the given address. *)
Definition block_write (s : Z) (b : block) : M unit :=
  modify (λ st, set_fs_device (<[s := take 512 b]> (fs_device st)) st).

(** [block_read (fs_device, s, p)] where [p] is one of the pointers
    [first_ib] and [second_ib], which [byte_to_sector] and [inode_close]
    declare and never set: the sector is stored through an indeterminate
    pointer, which is undefined behaviour. *)
Definition block_read_unset (s : Z) : M indirect_block := fail.

(** Modelled from the spec: the free-space allocator (filesys/free-map.c is
    not part of the sources), a bitmap with one bit per sector, set when the
    sector is in use. [free_map_allocate cnt] finds the first run of [cnt]
    free sectors, marks it used and returns its first sector, or fails and
    changes nothing; [free_map_release s cnt] marks [cnt] sectors from [s]
    free; [free_map_unused] counts the free sectors. *)
Fixpoint bitmap_scan (cnt : nat) (bm : list bool) (start : nat) : option nat :=
  match bm with
  | [] => None
  | _ :: bm' =>
      if bool_decide (take cnt bm = replicate cnt false) then Some start
      else bitmap_scan cnt bm' (S start)
  end.

Definition free_map_allocate (cnt : Z) : M (option Z) :=
  λ st, match bitmap_scan (Z.to_nat cnt) (free_map st) 0 with
        | Some s =>
            Some (Some (Z.of_nat s),
                  set_free_map
                    (list_inserts s (replicate (Z.to_nat cnt) true)
                       (free_map st)) st)
        | None => Some (None, st)
        end.

Definition free_map_release (s : Z) (cnt : Z) : M unit :=
  modify (λ st, set_free_map
                  (list_inserts (Z.to_nat s) (replicate (Z.to_nat cnt) false)
                     (free_map st)) st).

Definition count_free (bm : list bool) : Z :=
  Z.of_nat (length (filter (λ b, b = false) bm)).

Definition free_map_unused : M Z :=
  gets (λ st, count_free (free_map st)).

(** ** Pointers to in-memory inodes *)

(** A [struct inode *]: [None] is the null pointer. *)
Abbreviation handle := (option nat).

(** Reading through a pointer; null and dangling pointers are undefined. *)
Definition deref (h : handle) : M inode :=
  λ st, match h with
        | Some p => match inodes st !! p with
                    | Some i => Some (i, st)
                    | None => None
                    end
        | None => None
        end.

Definition store (p : nat) (i : inode) : M unit :=
  modify (λ st, set_inodes (<[p := i]> (inodes st)) st).

(** A buffer of the caller: the bytes found from the address it points to
    on. The C functions receive no size for it and check none. *)
Abbreviation memory := (Z → byte).

(** [memcpy (buffer + pos, bs, length bs)]. *)
Definition buffer_store (buffer : memory) (pos : Z) (bs : list byte) : memory :=
  λ j, if (pos <=? j) && (j <? pos + Z.of_nat (length bs))
       then default x00 (bs !! Z.to_nat (j - pos))
       else buffer j.

(** The [n] bytes at [buffer + pos]. *)
Definition buffer_load (buffer : memory) (pos : Z) (n : Z) : list byte :=
  map (λ k, buffer (pos + Z.of_nat k)) (seq 0 (Z.to_nat n)).

(** ** Sector counts *)

(** Modelled from the spec: [DIV_ROUND_UP] of round.h (not part of the
    sources), the quotient rounded up, computed on [int] as
    [(X + STEP - 1) / STEP]. *)
Definition DIV_ROUND_UP (x step : Z) : Z :=
  Z.quot (to_int32 (to_int32 (x + step) - 1)) step.

Definition bytes_to_sectors (size : Z) : Z :=
  to_uint32 (DIV_ROUND_UP size BLOCK_SECTOR_SIZE).

Definition compute_total_sectors (sectors : Z) : Z :=
  if sectors <=? DIRECT_BLOCK then sectors
  else
    let second_level := to_int32 (to_uint32 (sectors - DIRECT_BLOCK) / 128) in
    let indirect_sectors := to_int32 (to_uint32 (sectors - DIRECT_BLOCK)) in
    to_uint32 (to_int32 (indirect_sectors + second_level + 1 + DIRECT_BLOCK)).

(** ** Address translation *)

Definition inode_length (inode : handle) : M Z :=
  i ← deref inode;
  ret (InodeDisk.length (Inode.data i)).

Definition inode_get_inumber (inode : handle) : M Z :=
  i ← deref inode;
  ret (Inode.sector i).

(** In the branch of the indirect blocks, [first_ib] and [second_ib] are
    pointers that the C code never sets before [block_read] stores a
    sector through them. *)
Definition byte_to_sector (inode : handle) (pos : Z) : M Z :=
  i ← deref inode;
  if pos <? InodeDisk.length (Inode.data i) then
    let index := to_uint32 (Z.quot pos BLOCK_SECTOR_SIZE) in
    if index <? DIRECT_BLOCK then
      lift (InodeDisk.sectors (Inode.data i) !! Z.to_nat index)
    else
      let first_ib_index := to_uint32 (index - DIRECT_BLOCK) / 128 in
      let second_ib_index := to_uint32 (index - DIRECT_BLOCK) mod 128 in
      first_ib ← block_read_unset (InodeDisk.ib (Inode.data i));
      s ← lift (first_ib !! Z.to_nat first_ib_index);
      second_ib ← block_read_unset s;
      lift (second_ib !! Z.to_nat second_ib_index)
  else ret (to_uint32 (-1)).

(** ** Creation *)

(** [free_map_allocate (1, &position)] with its result ignored: on failure
    [position] keeps its previous value. *)
Definition allocate_position (position : Z) : M Z :=
  r ← free_map_allocate 1;
  ret (default position r).

Definition set_sector (i : Z) (s : Z) (d : inode_disk) : inode_disk :=
  InodeDisk.mk (<[Z.to_nat i := s]> (InodeDisk.sectors d)) (InodeDisk.ib d)
    (InodeDisk.is_directory d) (InodeDisk.padding d)
    (InodeDisk.length d) (InodeDisk.magic d).
Definition set_ib (s : Z) (d : inode_disk) : inode_disk :=
  InodeDisk.mk (InodeDisk.sectors d) s
    (InodeDisk.is_directory d) (InodeDisk.padding d)
    (InodeDisk.length d) (InodeDisk.magic d).
Definition set_length (l : Z) (d : inode_disk) : inode_disk :=
  InodeDisk.mk (InodeDisk.sectors d) (InodeDisk.ib d)
    (InodeDisk.is_directory d) (InodeDisk.padding d) l (InodeDisk.magic d).
Definition set_magic (m : Z) (d : inode_disk) : inode_disk :=
  InodeDisk.mk (InodeDisk.sectors d) (InodeDisk.ib d)
    (InodeDisk.is_directory d) (InodeDisk.padding d) (InodeDisk.length d) m.

(** The loop over the direct slots; yields [i], [position] and the inode. *)
Fixpoint wsd_direct (fuel : nat) (total_sectors : Z) (i position : Z)
    (disk_inode : inode_disk) : M (Z * Z * inode_disk) :=
  match fuel with
  | O => fail
  | S fuel' =>
      if (to_uint32 i <? total_sectors) && (i <? DIRECT_BLOCK) then
        position ← allocate_position position;
        wsd_direct fuel' total_sectors (to_int32 (i + 1)) position
          (set_sector i position disk_inode)
      else ret (i, position, disk_inode)
  end.

(** The loop filling one second-level block; yields [k], [position] and
    the block. *)
Fixpoint wsd_second (fuel : nat) (total_sectors : Z) (i k position : Z)
    (second_level : indirect_block) : M (Z * Z * indirect_block) :=
  match fuel with
  | O => fail
  | S fuel' =>
      if (k <? 128) && (to_uint32 (to_int32 (i + k)) <? total_sectors) then
        position ← allocate_position position;
        wsd_second fuel' total_sectors i (to_int32 (k + 1)) position
          (<[Z.to_nat k := position]> second_level)
      else ret (k, position, second_level)
  end.

(** The loop over the slots of the first-level block. *)
Fixpoint wsd_first (fuel : nat) (total_sectors : Z) (i ib_index position : Z)
    (first_level : indirect_block) : M indirect_block :=
  match fuel with
  | O => fail
  | S fuel' =>
      if to_uint32 i <? total_sectors then
        if ib_index <? 128 then
          position ← allocate_position position;
          let first_level := <[Z.to_nat ib_index := position]> first_level in
          let i := to_int32 (i + 1) in
          '(k, position, second_level) ←
            wsd_second 129 total_sectors i 0 position zero_indirect_block;
          let i := to_int32 (i + k) in
          s ← lift (first_level !! Z.to_nat ib_index);
          block_write s (encode_indirect_block second_level);;
          wsd_first fuel' total_sectors i (to_int32 (ib_index + 1)) position
            first_level
        else fail (* ASSERT (ib_index < 128) *)
      else ret first_level
  end.

(** [position] is not initialised in the C code; it is read before being
    set only when the first allocation fails. *)
Definition write_sectors_to_disk (total_sectors : Z) (disk_inode : inode_disk)
  : M inode_disk :=
  '(i, position, disk_inode) ←
    wsd_direct 125 total_sectors 0 0 disk_inode;
  if to_uint32 i <? total_sectors then
    position ← allocate_position position;
    let disk_inode := set_ib position disk_inode in
    let i := to_int32 (i + 1) in
    first_level ←
      wsd_first (S (Z.to_nat total_sectors)) total_sectors i 0 position
        zero_indirect_block;
    block_write (InodeDisk.ib disk_inode) (encode_indirect_block first_level);;
    ret disk_inode
  else ret disk_inode.

(** [calloc_ok] tells whether the allocation of [disk_inode] succeeds. *)
Definition inode_create (sector : Z) (length : Z) (calloc_ok : bool) : M bool :=
  if length <? 0 then fail (* ASSERT (length >= 0) *)
  else if calloc_ok then
    let sectors := bytes_to_sectors length in
    let total_sectors := compute_total_sectors sectors in
    if MAX_BLOCK_NUMBER <? total_sectors then ret false
    else
      let disk_inode := set_magic INODE_MAGIC (set_length length zero_inode_disk) in
      unused ← free_map_unused;
      if to_uint32 (total_sectors + 1) <=? unused then
        disk_inode ← write_sectors_to_disk total_sectors disk_inode;
        block_write sector (encode_inode_disk disk_inode);;
        ret true
      else ret false
  else ret false.

(** ** The list of open inodes *)

Definition inode_init : M unit := modify (set_open_inodes []).

Definition inode_reopen (inode : handle) : M handle :=
  match inode with
  | Some p =>
      i ← deref inode;
      store p (Inode.set_open_cnt (to_int32 (Inode.open_cnt i + 1)) i);;
      ret inode
  | None => ret None
  end.

(** The scan of [open_inodes] for an inode at [sector]. *)
Fixpoint find_open (l : list nat) (sector : Z) : M handle :=
  match l with
  | [] => ret None
  | p :: l' =>
      i ← deref (Some p);
      if Inode.sector i =? sector then ret (Some p)
      else find_open l' sector
  end.

(** [malloc_ok] tells whether the allocation of the [struct inode]
    succeeds; the new object lives at an address not in use. *)
Definition inode_open (sector : Z) (malloc_ok : bool) : M handle :=
  l ← gets open_inodes;
  found ← find_open l sector;
  match found with
  | Some p => inode_reopen (Some p);; ret (Some p)
  | None =>
      if malloc_ok then
        p ← gets (λ st, fresh (dom (inodes st)));
        modify (λ st, set_open_inodes (p :: open_inodes st) st);;
        b ← block_read sector;
        store p (Inode.mk sector 1 false 0 (decode_inode_disk b));;
        ret (Some p)
      else ret None
  end.

(** The loop of [inode_close] over the direct slots; yields [i]. *)
Fixpoint close_direct (fuel : nat) (d : inode_disk) (index i : Z) : M Z :=
  match fuel with
  | O => fail
  | S fuel' =>
      if (i <? DIRECT_BLOCK) && (i <? index) then
        s ← lift (InodeDisk.sectors d !! Z.to_nat i);
        free_map_release s 1;;
        close_direct fuel' d index (to_uint32 (i + 1))
      else ret i
  end.

(** The loop over the slots of one second-level block; yields [i]. *)
Fixpoint close_second (fuel : nat) (second_ib : indirect_block)
    (index i r : Z) : M Z :=
  match fuel with
  | O => fail
  | S fuel' =>
      if (i <? index) && (r <? 128) then
        s ← lift (second_ib !! Z.to_nat r);
        free_map_release s 1;;
        close_second fuel' second_ib index (to_uint32 (i + 1))
          (to_uint32 (r + 1))
      else ret i
  end.

(** The loop over the slots of the first-level block. *)
Fixpoint close_first (fuel : nat) (first_ib : indirect_block)
    (index i k : Z) : M unit :=
  match fuel with
  | O => fail
  | S fuel' =>
      if i <? index then
        s ← lift (first_ib !! Z.to_nat k);
        second_ib ← block_read_unset s;
        i ← close_second 129 second_ib index i 0;
        free_map_release s 1;;
        close_first fuel' first_ib index i (to_uint32 (k + 1))
      else ret tt
  end.

Definition inode_close (inode : handle) : M unit :=
  match inode with
  | None => ret tt
  | Some p =>
      ino ← deref inode;
      let cnt := to_int32 (Inode.open_cnt ino - 1) in
      store p (Inode.set_open_cnt cnt ino);;
      if cnt =? 0 then
        modify (λ st, set_open_inodes
                        (filter (λ q, q ≠ p) (open_inodes st)) st);;
        (if Inode.removed ino then
           let d := Inode.data ino in
           let index :=
             to_uint32 (Z.quot (InodeDisk.length d) BLOCK_SECTOR_SIZE) in
           i ← close_direct 125 d index 0;
           (if i <? index then
              first_ib ← block_read_unset (InodeDisk.ib d);
              close_first (S (Z.to_nat index)) first_ib index i 0
            else ret tt);;
           free_map_release (Inode.sector ino) 1
         else ret tt);;
        modify (λ st, set_inodes (delete p (inodes st)) st)
      else ret tt
  end.

Definition inode_remove (inode : handle) : M unit :=
  match inode with
  | None => fail (* ASSERT (inode != NULL) *)
  | Some p =>
      i ← deref inode;
      store p (Inode.set_removed true i)
  end.

Definition inode_deny_write (inode : handle) : M unit :=
  match inode with
  | None => fail
  | Some p =>
      i ← deref inode;
      let cnt := to_int32 (Inode.deny_write_cnt i + 1) in
      store p (Inode.set_deny_write_cnt cnt i);;
      if cnt <=? Inode.open_cnt i then ret tt else fail
  end.

Definition inode_allow_write (inode : handle) : M unit :=
  match inode with
  | None => fail
  | Some p =>
      i ← deref inode;
      if 0 <? Inode.deny_write_cnt i then
        if Inode.deny_write_cnt i <=? Inode.open_cnt i then
          store p (Inode.set_deny_write_cnt
                     (to_int32 (Inode.deny_write_cnt i - 1)) i)
        else fail
      else fail
  end.

(** ** Reading and writing *)

(** The loop of [inode_read_at]; yields the caller's buffer and
    [bytes_read]. [bounce_ok] tells whether the allocation of the bounce
    buffer succeeds. *)
Fixpoint read_loop (fuel : nat) (inode : handle) (bounce_ok : bool)
    (buffer : memory) (size offset bytes_read : Z) : M (memory * Z) :=
  match fuel with
  | O => fail
  | S fuel' =>
      if 0 <? size then
        sector_idx ← byte_to_sector inode offset;
        let sector_ofs := Z.rem offset BLOCK_SECTOR_SIZE in
        len ← inode_length inode;
        let inode_left := to_int32 (len - offset) in
        let sector_left := BLOCK_SECTOR_SIZE - sector_ofs in
        let min_left :=
          if inode_left <? sector_left then inode_left else sector_left in
        let chunk_size := if size <? min_left then size else min_left in
        if chunk_size <=? 0 then ret (buffer, bytes_read)
        else if (sector_ofs =? 0) && (chunk_size =? BLOCK_SECTOR_SIZE) then
          b ← block_read sector_idx;
          let buffer := buffer_store buffer bytes_read b in
          read_loop fuel' inode bounce_ok buffer
            (to_int32 (size - chunk_size)) (to_int32 (offset + chunk_size))
            (to_int32 (bytes_read + chunk_size))
        else if bounce_ok then
          bounce ← block_read sector_idx;
          let buffer :=
            buffer_store buffer bytes_read
              (take (Z.to_nat chunk_size)
                 (drop (Z.to_nat sector_ofs) bounce)) in
          read_loop fuel' inode bounce_ok buffer
            (to_int32 (size - chunk_size)) (to_int32 (offset + chunk_size))
            (to_int32 (bytes_read + chunk_size))
        else ret (buffer, bytes_read)
      else ret (buffer, bytes_read)
  end.

Definition inode_read_at (inode : handle) (buffer : memory)
    (size offset : Z) (bounce_ok : bool) : M (memory * Z) :=
  read_loop (S (Z.to_nat size)) inode bounce_ok buffer size offset 0.

(** The loop of [inode_write_at]; yields [bytes_written]. *)
Fixpoint write_loop (fuel : nat) (inode : handle) (bounce_ok : bool)
    (buffer : memory) (size offset bytes_written : Z) : M Z :=
  match fuel with
  | O => fail
  | S fuel' =>
      if 0 <? size then
        sector_idx ← byte_to_sector inode offset;
        let sector_ofs := Z.rem offset BLOCK_SECTOR_SIZE in
        len ← inode_length inode;
        let inode_left := to_int32 (len - offset) in
        let sector_left := BLOCK_SECTOR_SIZE - sector_ofs in
        let min_left :=
          if inode_left <? sector_left then inode_left else sector_left in
        let chunk_size := if size <? min_left then size else min_left in
        if chunk_size <=? 0 then ret bytes_written
        else if (sector_ofs =? 0) && (chunk_size =? BLOCK_SECTOR_SIZE) then
          block_write sector_idx
            (buffer_load buffer bytes_written BLOCK_SECTOR_SIZE);;
          write_loop fuel' inode bounce_ok buffer
            (to_int32 (size - chunk_size)) (to_int32 (offset + chunk_size))
            (to_int32 (bytes_written + chunk_size))
        else if bounce_ok then
          bounce ← (if (0 <? sector_ofs) || (chunk_size <? sector_left)
                    then block_read sector_idx
                    else ret zero_block);
          block_write sector_idx
            (list_inserts (Z.to_nat sector_ofs)
               (buffer_load buffer bytes_written chunk_size) bounce);;
          write_loop fuel' inode bounce_ok buffer
            (to_int32 (size - chunk_size)) (to_int32 (offset + chunk_size))
            (to_int32 (bytes_written + chunk_size))
        else ret bytes_written
      else ret bytes_written
  end.

Definition inode_write_at (inode : handle) (buffer : memory)
    (size offset : Z) (bounce_ok : bool) : M Z :=
  i ← deref inode;
  if negb (Inode.deny_write_cnt i =? 0) then ret 0
  else write_loop (S (Z.to_nat size)) inode bounce_ok buffer size offset 0.

(** ** Definitions used by the statements *)

(** The sectors a file of [sectors_needed] data sectors takes, in the words
    of the specification: the data sectors and, once they exceed 124, one
    first-level index sector and one second-level index sector per started
    group of 128 indirect data sectors. *)
Definition spec_total_sectors (sectors_needed : Z) : Z :=
  if sectors_needed <=? 124 then sectors_needed
  else sectors_needed + 1 + (sectors_needed - 124 + 127) / 128.

(** The sectors a file of [length] bytes occupies, its inode included. *)
Definition occupied_sectors (length : Z) : Z :=
  spec_total_sectors ((length + 511) / 512) + 1.

(** The sector as [block_read] delivers it. *)
Definition sector_contents (st : fs) (s : Z) : block :=
  resize 512 x00 (default [] (fs_device st !! s)).

(** Every pointer of [open_inodes] points to an allocated inode. *)
Definition registry_ok (st : fs) : Prop :=
  ∀ q, q ∈ open_inodes st → is_Some (inodes st !! q).

(** [p] is an open inode, with contents [ino], for [sector]. *)
Definition registered (st : fs) (sector : Z) (p : nat) (ino : inode) : Prop :=
  p ∈ open_inodes st ∧ inodes st !! p = Some ino ∧ Inode.sector ino = sector.

Definition not_open (st : fs) (sector : Z) : Prop :=
  ∀ q ino, q ∈ open_inodes st → inodes st !! q = Some ino →
           Inode.sector ino ≠ sector.

(** Running an operation [n] times. *)
Fixpoint repeat_M (n : nat) (m : M unit) : M unit :=
  match n with
  | O => ret tt
  | S n' => m;; repeat_M n' m
  end.

(** The largest file the index tree addresses: 124 direct sectors and
    128 second-level blocks of 128 sectors. *)
Definition MAX_DATA_SECTORS : Z := 124 + 128 * 128.

(** An in-memory inode as [inode_open] builds it from an inode written by
    [inode_create]: the array of direct sectors has its 124 slots and the
    length is within what the tree addresses. *)
Definition inode_ok (ino : inode) : Prop :=
  length (InodeDisk.sectors (Inode.data ino)) = 124%nat ∧
  0 ≤ InodeDisk.length (Inode.data ino) ≤ MAX_DATA_SECTORS * 512.

(** The heap of inodes and the list of open inodes are the same in both
    states. *)
Definition same_registry (st st' : fs) : Prop :=
  inodes st' = inodes st ∧ open_inodes st' = open_inodes st.

(** Two on-disk inodes agree on everything but the contents of their
    sector slots. *)
Definition same_header (d d' : inode_disk) : Prop :=
  InodeDisk.length d' = InodeDisk.length d ∧
  InodeDisk.magic d' = InodeDisk.magic d ∧
  InodeDisk.padding d' = InodeDisk.padding d ∧
  length (InodeDisk.sectors d') = length (InodeDisk.sectors d).

(** The byte at offset [pos] of a file: the one the device holds at that
    offset of the sector that [byte_to_sector] names. *)
Definition file_byte (st : fs) (inode : handle) (pos : Z) : option byte :=
  match byte_to_sector inode pos st with
  | Some (s, _) => sector_contents st s !! Z.to_nat (pos mod 512)
  | None => None
  end.

(** An inode without indirect blocks whose data sectors are pairwise
    distinct. *)
Definition direct_ok (ino : inode) : Prop :=
  inode_ok ino ∧
  InodeDisk.length (Inode.data ino) ≤ DIRECT_BLOCK * 512 ∧
  NoDup (take (Z.to_nat ((InodeDisk.length (Inode.data ino) + 511) / 512))
           (InodeDisk.sectors (Inode.data ino))).

(** An inode without indirect blocks: the array of direct sectors has its
    124 slots and they hold the whole file. *)
Definition no_indirect (ino : inode) : Prop :=
  length (InodeDisk.sectors (Inode.data ino)) = 124%nat ∧
  0 ≤ InodeDisk.length (Inode.data ino) ≤ DIRECT_BLOCK * 512.

(** The data sectors of an inode without indirect blocks: the direct slots
    that its length uses. *)
Definition data_sectors (ino : inode) : list Z :=
  take (Z.to_nat ((InodeDisk.length (Inode.data ino) + 511) / 512))
    (InodeDisk.sectors (Inode.data ino)).

(** The resolution of an offset in the words of the specification, to be
    compared with [byte_to_sector]: not found ([None]) at or past the
    length; with [index] the offset divided by 512, the direct slot
    [index] below 124; otherwise slot [(index - 124) mod 128] of the
    second-level index sector named by slot [(index - 124) / 128] of the
    first-level index sector, both read from the device. *)
Definition spec_byte_to_sector (st : fs) (d : inode_disk) (pos : Z)
  : option Z :=
  if InodeDisk.length d <=? pos then None
  else
    let index := pos / 512 in
    if index <? 124 then InodeDisk.sectors d !! Z.to_nat index
    else
      let first_level :=
        decode_indirect_block (sector_contents st (InodeDisk.ib d)) in
      s ← first_level !! Z.to_nat ((index - 124) / 128);
      decode_indirect_block (sector_contents st s)
        !! Z.to_nat ((index - 124) mod 128).

(** ** Example states *)

(** A device of 400 sectors on which sectors 0 and 1 are in use and sector
    10 has been reserved for a new inode; nothing is open. *)
Definition example_fs : fs :=
  mk_fs ∅ (<[10%nat := true]> (true :: true :: replicate 398 false)) ∅ [].

(** The state reached from [st] by running [m]. *)
Definition state_after {A} (m : M A) (st : fs) : fs :=
  match m st with Some (_, st') => st' | None => st end.

(** [example_fs] after an inode of [length] bytes was created at sector 10
    and opened. *)
Definition example_open (length : Z) : fs :=
  state_after (inode_create 10 length true;; inode_open 10 true) example_fs.

(** The inode at address [p]. *)
Definition inode_at (st : fs) (p : nat) : inode :=
  default (Inode.mk 0 0 false 0 zero_inode_disk) (inodes st !! p).

(** A device of 400 sectors with every sector free but sector 150, reserved
    for a new inode; nothing is open. *)
Definition blank_fs : fs :=
  mk_fs ∅ (<[150%nat := true]> (replicate 400 false)) ∅ [].

(** Creation, removal and last close of a file of [length] bytes at sector
    10; yields the free sectors before the creation, after it, and after
    the close. *)
Definition remove_scenario (length : Z) : M (Z * Z * Z) :=
  before ← free_map_unused;
  inode_create 10 length true;;
  created ← free_map_unused;
  h ← inode_open 10 true;
  inode_remove h;;
  inode_close h;;
  closed ← free_map_unused;
  ret (before, created, closed).

(** A pattern whose sector [k] holds the byte [k + 1] 512 times. *)
Definition sector_pattern : memory := λ j, byte_of_Z (j / 512 + 1).

(** A buffer of zeros. *)
Definition zero_buffer : memory := λ _, x00.

(** Whether two buffers hold the same first [n] bytes. *)
Definition same_bytes (n : nat) (b1 b2 : memory) : bool :=
  forallb (λ k, Byte.eqb (b1 (Z.of_nat k)) (b2 (Z.of_nat k))) (seq 0 n).

(** Creation of a file of [length] bytes at [sector], a write of [pattern]
    over the whole file and a read of the whole file; yields the result of
    the creation, the counts of bytes written and read, and the buffer
    read into. *)
Definition round_trip (sector length : Z) (pattern : memory)
  : M (bool * Z * Z * memory) :=
  created ← inode_create sector length true;
  h ← inode_open sector true;
  written ← inode_write_at h pattern length 0 true;
  '(buffer, read) ← inode_read_at h zero_buffer length 0 true;
  ret (created, written, read, buffer).

(** What [round_trip] yields when the whole file reads back as written. *)
Definition reads_back (length : Z) (pattern : memory)
    (r : bool * Z * Z * memory) : bool :=
  let '(created, written, read, buffer) := r in
  created && (written =? length) && (read =? length)
  && same_bytes (Z.to_nat length) pattern buffer.

(** The first [i] direct sectors of [d] are distinct sectors that the free
    map [bm] has in use. *)
Definition allocated (d : inode_disk) (i : nat) (bm : list bool) : Prop :=
  NoDup (take i (InodeDisk.sectors d)) ∧
  ∀ s, s ∈ take i (InodeDisk.sectors d) →
       ∃ k : nat, s = Z.of_nat k ∧ bm !! k = Some true.

(** An in-memory [struct inode_disk] whose fields hold values of their C
    types: 124 sector numbers, the three bytes of padding, a signed length
    and unsigned sector numbers and magic. *)
Definition inode_disk_wf (d : inode_disk) : Prop :=
  length (InodeDisk.sectors d) = 124%nat ∧
  Forall (λ s, 0 ≤ s < 2 ^ 32) (InodeDisk.sectors d) ∧
  0 ≤ InodeDisk.ib d < 2 ^ 32 ∧
  length (InodeDisk.padding d) = 3%nat ∧
  - 2 ^ 31 ≤ InodeDisk.length d < 2 ^ 31 ∧
  0 ≤ InodeDisk.magic d < 2 ^ 32.

(** A sector written with the image of [d] and read back as an inode, the
    way [inode_create] stores an inode and [inode_open] loads it. *)
Definition store_load_inode (s : Z) (d : inode_disk) : M inode_disk :=
  block_write s (encode_inode_disk d);;
  b ← block_read s;
  ret (decode_inode_disk b).

(** The same for an indirect block, stored the way [write_sectors_to_disk]
    stores it and read back with [block_read] into a block that exists. *)
Definition store_load_indirect (s : Z) (ib : indirect_block)
  : M indirect_block :=
  block_write s (encode_indirect_block ib);;
  b ← block_read s;
  ret (decode_indirect_block b).

(** The free map after [free_map_release (s, 1)] for every sector [s] of
    [ss] in turn. *)
Definition release_all (ss : list Z) (bm : list bool) : list bool :=
  foldl (λ bm s, <[Z.to_nat s := false]> bm) bm ss.

(** [m] changes nothing when run from [st], and run from [st'] it yields
    the same and changes nothing either. *)
Definition reads_same {A} (st st' : fs) (m : M A) : Prop :=
  match m st with
  | Some (a, st1) => st1 = st ∧ m st' = Some (a, st')
  | None => m st' = None
  end.

(** The invariant of the list of open inodes: its pointers point to
    allocated inodes, no pointer is listed twice, and no two listed inodes
    are inodes of the same sector. *)
Definition registry_inv (st : fs) : Prop :=
  registry_ok st ∧ NoDup (open_inodes st) ∧
  ∀ q1 q2 i1 i2,
    q1 ∈ open_inodes st → q2 ∈ open_inodes st →
    inodes st !! q1 = Some i1 → inodes st !! q2 = Some i2 →
    Inode.sector i1 = Inode.sector i2 → q1 = q2.

(** Whenever [m] returns, the heap of inodes and the list of open inodes
    are as before. *)
Definition keeps_registry {A} (m : M A) : Prop :=
  ∀ st a st', m st = Some (a, st') → same_registry st st'.

(** A call of one of the functions that the module exports. *)
Inductive call : Type :=
| Init
| Create (sector length : Z) (calloc_ok : bool)
| Open (sector : Z) (malloc_ok : bool)
| Reopen (inode : handle)
| GetInumber (inode : handle)
| Close (inode : handle)
| Remove (inode : handle)
| ReadAt (inode : handle) (buffer : memory) (size offset : Z) (bounce_ok : bool)
| WriteAt (inode : handle) (buffer : memory) (size offset : Z)
    (bounce_ok : bool)
| DenyWrite (inode : handle)
| AllowWrite (inode : handle)
| Length (inode : handle).

Definition run_call (c : call) : M unit :=
  match c with
  | Init => inode_init
  | Create sector length calloc_ok =>
      inode_create sector length calloc_ok;; ret tt
  | Open sector malloc_ok => inode_open sector malloc_ok;; ret tt
  | Reopen inode => inode_reopen inode;; ret tt
  | GetInumber inode => inode_get_inumber inode;; ret tt
  | Close inode => inode_close inode
  | Remove inode => inode_remove inode
  | ReadAt inode buffer size offset bounce_ok =>
      inode_read_at inode buffer size offset bounce_ok;; ret tt
  | WriteAt inode buffer size offset bounce_ok =>
      inode_write_at inode buffer size offset bounce_ok;; ret tt
  | DenyWrite inode => inode_deny_write inode
  | AllowWrite inode => inode_allow_write inode
  | Length inode => inode_length inode;; ret tt
  end.

(** A sequence of calls, each from the state the one before left. *)
Fixpoint run_calls (cs : list call) : M unit :=
  match cs with
  | [] => ret tt
  | c :: cs' => run_call c;; run_calls cs'
  end.

(** * Properties *)

Ltac munfold :=
  unfold mbind, mret, M_bind, M_ret, bind, ret, gets, modify, lift, fail in *.

(** ** Machine integers and the layout of words *)

Lemma to_uint32_small z : 0 ≤ z < 2 ^ 32 → to_uint32 z = z.
Proof. intros H. unfold to_uint32. by rewrite Z.mod_small. Qed.

Lemma to_int32_small z : - 2 ^ 31 ≤ z < 2 ^ 31 → to_int32 z = z.
Proof. intros H. unfold to_int32. rewrite Z.mod_small; lia. Qed.

Lemma to_uint32_range z : 0 ≤ to_uint32 z < 2 ^ 32.
Proof. unfold to_uint32. apply Z.mod_pos_bound. lia. Qed.

Lemma Z_of_byte_of_Z z : Z_of_byte (byte_of_Z z) = z mod 256.
Proof.
  unfold Z_of_byte, byte_of_Z.
  assert (Hr : 0 ≤ z mod 256 < 256) by (apply Z.mod_pos_bound; lia).
  destruct (Byte.of_N (Z.to_N (z mod 256))) as [b|] eqn:E.
  - apply Byte.to_of_N in E. simpl. rewrite E. lia.
  - apply Byte.of_N_None_iff in E. lia.
Qed.

Lemma Z_of_byte_range b : 0 ≤ Z_of_byte b < 256.
Proof. unfold Z_of_byte. pose proof (Byte.to_N_bounded b). lia. Qed.

Lemma decode_encode_le32 v : decode_le32 (encode_le32 v) = to_uint32 v.
Proof.
  unfold decode_le32, encode_le32, to_uint32.
  rewrite !Z_of_byte_of_Z, !Z.shiftl_mul_pow2, !Z.shiftr_div_pow2 by lia.
  change (2 ^ 8) with 256. change (2 ^ 16) with (256 * 256).
  change (2 ^ 24) with (256 * 256 * 256).
  change (2 ^ 32) with (256 * 256 * 256 * 256).
  rewrite <- !Z.div_div by lia.
  Z.to_euclidean_division_equations. lia.
Qed.

Lemma decode_indirect_block_lookup b n :
  (n < 128)%nat → decode_indirect_block b !! n = Some (word_at b n).
Proof.
  intros Hn. unfold decode_indirect_block.
  rewrite list_lookup_fmap, lookup_seq_lt by done. done.
Qed.

Lemma length_decode_indirect_block b :
  length (decode_indirect_block b) = 128%nat.
Proof. unfold decode_indirect_block. by rewrite length_map, length_seq. Qed.

(** ** Closing and reopening a null pointer *)

(** C10: [inode_close] and [inode_reopen] accept a null pointer: the former
    returns and the latter returns null, and neither changes the list of
    open inodes, any reference count, the free map or the disk. *)
Theorem null_handle_tolerated (st : fs) :
  inode_close None st = Some (tt, st) ∧
  inode_reopen None st = Some (None, st).
Proof. split; reflexivity. Qed.

(** ** Address translation *)

(** The three cases of [byte_to_sector]: not found, a direct slot, and
    the stores through the pointers that are never set. *)
Lemma byte_to_sector_cases (st : fs) (p : nat) (ino : inode) (pos : Z) :
  inodes st !! p = Some ino →
  let d := Inode.data ino in
  let index := to_uint32 (Z.quot pos BLOCK_SECTOR_SIZE) in
  (InodeDisk.length d ≤ pos →
     byte_to_sector (Some p) pos st = Some (2 ^ 32 - 1, st)) ∧
  (pos < InodeDisk.length d → index < 124 →
     ∀ s, InodeDisk.sectors d !! Z.to_nat index = Some s →
          byte_to_sector (Some p) pos st = Some (s, st)) ∧
  (pos < InodeDisk.length d → 124 ≤ index →
     byte_to_sector (Some p) pos st = None) ∧
  (0 ≤ pos < 2 ^ 31 → index = pos / 512).
Proof.
  intros Hp d index. subst d.
  assert (Hidx : 0 ≤ index < 2 ^ 32) by apply to_uint32_range.
  repeat split.
  - intros Hle. unfold byte_to_sector, deref. munfold. rewrite Hp.
    destruct (Z.ltb_spec pos (InodeDisk.length (Inode.data ino))); [lia|].
    reflexivity.
  - intros Hlt Hdir s Hs. unfold byte_to_sector, deref. munfold. rewrite Hp.
    destruct (Z.ltb_spec pos (InodeDisk.length (Inode.data ino))); [|lia].
    fold index. unfold DIRECT_BLOCK.
    destruct (Z.ltb_spec index 124); [|lia].
    by rewrite Hs.
  - intros Hlt Hind.
    unfold byte_to_sector, deref, block_read_unset. munfold. rewrite Hp.
    destruct (Z.ltb_spec pos (InodeDisk.length (Inode.data ino))); [|lia].
    fold index. unfold DIRECT_BLOCK.
    destruct (Z.ltb_spec index 124); [lia|]. reflexivity.
  - intros Hpos. subst index. unfold BLOCK_SECTOR_SIZE.
    rewrite Z.quot_div_nonneg by lia.
    apply to_uint32_small. split.
    + apply Z.div_pos; lia.
    + apply Z.div_lt_upper_bound; lia.
Qed.

(** Where no indirect block is involved, [byte_to_sector] resolves an
    offset as the specification words it. *)
Lemma byte_to_sector_agrees (st : fs) (p : nat) (ino : inode) (pos : Z) :
  inodes st !! p = Some ino →
  length (InodeDisk.sectors (Inode.data ino)) = 124%nat →
  0 ≤ pos < 2 ^ 31 →
  InodeDisk.length (Inode.data ino) ≤ pos ∨ pos / 512 < 124 →
  byte_to_sector (Some p) pos st
  = Some (default (2 ^ 32 - 1) (spec_byte_to_sector st (Inode.data ino) pos),
          st).
Proof.
  intros Hp Hlen Hpos Hcase.
  destruct (byte_to_sector_cases st p ino pos Hp) as (H1 & H2 & _ & H4).
  specialize (H4 Hpos). unfold spec_byte_to_sector.
  destruct (Z.leb_spec (InodeDisk.length (Inode.data ino)) pos) as [Hge|Hlt].
  { by apply H1. }
  destruct Hcase as [|Hdir]; [lia|].
  destruct (Z.ltb_spec (pos / 512) 124); [|lia].
  assert (0 ≤ pos / 512) by (apply Z.div_pos; lia).
  destruct (lookup_lt_is_Some_2 (InodeDisk.sectors (Inode.data ino))
              (Z.to_nat (pos / 512))) as [x Hx]; [lia|].
  rewrite Hx. apply H2; [done|lia|]. by rewrite H4.
Qed.

(** C3: on the file of 70000 bytes (137 sectors) that [inode_create] and
    [inode_open] build, [byte_to_sector] answers not-found at an offset at
    or past the length and the direct slot at an offset of the first 124
    sectors, as the specification has it; at an offset of a later sector,
    where the specification reads the slot of the data sector through the
    two index sectors (sector 130 for offset 64000), the C code stores the
    index sectors through [first_ib] and [second_ib], pointers that it
    never sets, and its behaviour is undefined. *)
Theorem byte_to_sector_indirect_undefined :
  let st := example_open 70000 in
  let d := Inode.data (inode_at st 0) in
  inodes st !! 0%nat = Some (inode_at st 0) ∧
  InodeDisk.length d = 70000 ∧
  (spec_byte_to_sector st d 70000 = None ∧
   byte_to_sector (Some 0%nat) 70000 st = Some (2 ^ 32 - 1, st)) ∧
  (spec_byte_to_sector st d 600 = Some 3 ∧
   byte_to_sector (Some 0%nat) 600 st = Some (3, st)) ∧
  (spec_byte_to_sector st d 64000 = Some 130 ∧
   byte_to_sector (Some 0%nat) 64000 st = None) ∧
  (spec_byte_to_sector st d (124 * 512) = Some 129 ∧
   byte_to_sector (Some 0%nat) (124 * 512) st = None).
Proof.
  intros st d.
  assert (Hp : inodes st !! 0%nat = Some (inode_at st 0))
    by (vm_compute; reflexivity).
  assert (Hl : InodeDisk.length d = 70000) by (vm_compute; reflexivity).
  destruct (byte_to_sector_cases st 0 (inode_at st 0) 70000 Hp)
    as (H1 & _).
  destruct (byte_to_sector_cases st 0 (inode_at st 0) 600 Hp)
    as (_ & H2 & _).
  destruct (byte_to_sector_cases st 0 (inode_at st 0) 64000 Hp)
    as (_ & _ & H3 & _).
  destruct (byte_to_sector_cases st 0 (inode_at st 0) (124 * 512) Hp)
    as (_ & _ & H4 & _).
  split; [exact Hp|]. split; [exact Hl|].
  split; [|split; [|split]]; (split; [vm_compute; reflexivity|]).
  - apply H1. fold d. rewrite Hl. lia.
  - apply H2; [fold d; rewrite Hl; lia|vm_compute; reflexivity
              |vm_compute; reflexivity].
  - apply H3; [fold d; rewrite Hl; lia|vm_compute; discriminate].
  - apply H4; [fold d; rewrite Hl; lia|vm_compute; discriminate].
Qed.

(** ** Failing creations *)

Lemma bytes_to_sectors_range size : 0 ≤ bytes_to_sectors size < 2 ^ 32.
Proof. apply to_uint32_range. Qed.

Lemma compute_total_sectors_nonneg sectors :
  0 ≤ sectors → 0 ≤ compute_total_sectors sectors.
Proof.
  intros Hs. unfold compute_total_sectors.
  destruct (Z.leb_spec sectors DIRECT_BLOCK); [done|].
  apply to_uint32_range.
Qed.

(** C4: when the sectors computed for the requested length exceed
    [MAX_BLOCK_NUMBER], and when the free map has fewer free sectors than
    that count plus one, [inode_create] returns false and leaves the whole
    state as it was: no sector is allocated and nothing is written. *)
Theorem inode_create_fails_cleanly
    (st : fs) (sector length : Z) (calloc_ok : bool) :
  0 ≤ length →
  let total_sectors := compute_total_sectors (bytes_to_sectors length) in
  MAX_BLOCK_NUMBER < total_sectors
  ∨ count_free (free_map st) < total_sectors + 1 →
  inode_create sector length calloc_ok st = Some (false, st).
Proof.
  intros Hlen total_sectors Hfail. unfold inode_create.
  destruct (Z.ltb_spec length 0); [lia|].
  destruct calloc_ok; [|reflexivity].
  fold total_sectors.
  destruct (Z.ltb_spec MAX_BLOCK_NUMBER total_sectors); [reflexivity|].
  destruct Hfail as [|Hfew]; [lia|].
  assert (0 ≤ total_sectors).
  { apply compute_total_sectors_nonneg, bytes_to_sectors_range. }
  unfold free_map_unused. munfold.
  rewrite to_uint32_small by (unfold MAX_BLOCK_NUMBER in *; lia).
  destruct (Z.leb_spec (total_sectors + 1) (count_free (free_map st)));
    [lia|reflexivity].
Qed.

Lemma same_registry_refl st : same_registry st st.
Proof. done. Qed.

Lemma same_registry_trans st1 st2 st3 :
  same_registry st1 st2 → same_registry st2 st3 → same_registry st1 st3.
Proof. intros [? ?] [? ?]. split; congruence. Qed.

Lemma block_write_run s b st :
  ∃ st', block_write s b st = Some (tt, st') ∧ same_registry st st' ∧
         fs_device st' = <[s := take 512 b]> (fs_device st) ∧
         free_map st' = free_map st.
Proof. eexists. split; [reflexivity|]. done. Qed.

(** ** Reading *)

Lemma inode_length_eq st p ino :
  inodes st !! p = Some ino →
  inode_length (Some p) st = Some (InodeDisk.length (Inode.data ino), st).
Proof. intros Hp. unfold inode_length, deref. munfold. by rewrite Hp. Qed.

Lemma direct_ok_no_indirect ino : direct_ok ino → no_indirect ino.
Proof. intros ([Hlen [Hpos _]] & Hdir & _). by split. Qed.

(** On an inode without indirect blocks the translation of an offset is
    defined and reads only. *)
Lemma byte_to_sector_defined st p ino pos :
  inodes st !! p = Some ino → no_indirect ino → 0 ≤ pos < 2 ^ 31 →
  ∃ s, byte_to_sector (Some p) pos st = Some (s, st).
Proof.
  intros Hp [Hlen Hmax] Hpos. unfold DIRECT_BLOCK in Hmax.
  destruct (byte_to_sector_cases st p ino pos Hp) as (H1 & H2 & _ & H4).
  specialize (H4 Hpos).
  destruct (Z.le_gt_cases (InodeDisk.length (Inode.data ino)) pos) as [Hge|Hlt].
  { eexists. by apply H1. }
  assert (Hidx : 0 ≤ pos / 512 < 124).
  { split; [apply Z.div_pos; lia|apply Z.div_lt_upper_bound; lia]. }
  destruct (lookup_lt_is_Some_2 (InodeDisk.sectors (Inode.data ino))
              (Z.to_nat (pos / 512))) as [s Hs]; [lia|].
  exists s. apply H2; [done|lia|]. by rewrite H4.
Qed.

Lemma buffer_store_inside buffer pos bs j :
  pos ≤ j < pos + Z.of_nat (length bs) →
  buffer_store buffer pos bs j = default x00 (bs !! Z.to_nat (j - pos)).
Proof.
  intros Hj. unfold buffer_store.
  destruct (Z.leb_spec pos j); [|lia].
  destruct (Z.ltb_spec j (pos + Z.of_nat (length bs))); [done|lia].
Qed.

Lemma buffer_store_outside buffer pos bs j :
  j < pos ∨ pos + Z.of_nat (length bs) ≤ j →
  buffer_store buffer pos bs j = buffer j.
Proof.
  intros Hj. unfold buffer_store.
  destruct (Z.leb_spec pos j); [|done].
  destruct (Z.ltb_spec j (pos + Z.of_nat (length bs))); [lia|done].
Qed.

Lemma block_read_eq s st : block_read s st = Some (sector_contents st s, st).
Proof. reflexivity. Qed.

Lemma length_sector_contents st s : length (sector_contents st s) = 512%nat.
Proof. unfold sector_contents. by rewrite length_resize. Qed.

(** Offsets of one sector translate to the same sector number. *)
Lemma byte_to_sector_same_sector st p ino pos1 pos2 :
  inodes st !! p = Some ino →
  0 ≤ pos1 < InodeDisk.length (Inode.data ino) →
  0 ≤ pos2 < InodeDisk.length (Inode.data ino) →
  pos1 / 512 = pos2 / 512 →
  byte_to_sector (Some p) pos1 st = byte_to_sector (Some p) pos2 st.
Proof.
  intros Hp H1 H2 Hsame. unfold byte_to_sector, deref. munfold. rewrite Hp.
  destruct (Z.ltb_spec pos1 (InodeDisk.length (Inode.data ino))); [|lia].
  destruct (Z.ltb_spec pos2 (InodeDisk.length (Inode.data ino))); [|lia].
  unfold BLOCK_SECTOR_SIZE. rewrite !Z.quot_div_nonneg by lia.
  by rewrite Hsame.
Qed.

Lemma same_sector_offset offset d :
  0 ≤ offset → 0 ≤ d < 512 - offset mod 512 →
  (offset + d) / 512 = offset / 512 ∧
  (offset + d) mod 512 = offset mod 512 + d.
Proof.
  intros Ho Hd.
  pose proof (Z.div_mod offset 512 ltac:(lia)) as Hdm.
  pose proof (Z.mod_pos_bound offset 512 ltac:(lia)) as Hm.
  split.
  - symmetry. apply (Z.div_unique_pos _ _ _ (offset mod 512 + d)); lia.
  - symmetry. apply (Z.mod_unique_pos _ _ (offset / 512)); lia.
Qed.

(** The reading loop: it transfers [Z.min size (Z.max 0 (len - offset))]
    more bytes of the file, stored from [buffer + bytes_read] on. *)
Lemma read_loop_count st p ino :
  inodes st !! p = Some ino → no_indirect ino →
  ∀ fuel buffer size offset bytes_read,
    0 ≤ size → 0 ≤ offset < 2 ^ 31 → 0 ≤ bytes_read →
    bytes_read + size < 2 ^ 31 →
    (Z.to_nat size < fuel)%nat →
    let n := Z.min size
               (Z.max 0 (InodeDisk.length (Inode.data ino) - offset)) in
    ∃ buffer',
      read_loop fuel (Some p) true buffer size offset bytes_read st
      = Some ((buffer', bytes_read + n), st) ∧
      (∀ j, bytes_read ≤ j < bytes_read + n →
            file_byte st (Some p) (offset + (j - bytes_read))
            = Some (buffer' j)) ∧
      (∀ j, j < bytes_read ∨ bytes_read + n ≤ j → buffer' j = buffer j).
Proof.
  intros Hp Hok.
  pose proof Hok as [_ Hmax]. unfold DIRECT_BLOCK in Hmax.
  set (len := InodeDisk.length (Inode.data ino)) in *.
  induction fuel as [|fuel IH];
    intros buffer size offset bytes_read Hsize Hoff Hread Hint Hfuel n;
    [lia|].
  cbn [read_loop].
  destruct (Z.ltb_spec 0 size) as [Hpos|Hzero].
  2:{ exists buffer. subst n. replace size with 0 by lia.
      assert (Z.min 0 (Z.max 0 (len - offset)) = 0) as -> by lia.
      rewrite Z.add_0_r. split; [done|]. split; [lia|done]. }
  destruct (byte_to_sector_defined st p ino offset Hp Hok Hoff) as [s Hs].
  unfold mbind at 1, M_bind at 1, bind at 1. rewrite Hs.
  unfold mbind at 1, M_bind at 1, bind at 1.
  rewrite (inode_length_eq st p ino Hp). fold len.
  unfold BLOCK_SECTOR_SIZE.
  rewrite Z.rem_mod_nonneg by lia.
  pose proof (Z.mod_pos_bound offset 512 ltac:(lia)) as Hofs.
  set (sector_ofs := offset mod 512) in *.
  rewrite (to_int32_small (len - offset)) by lia.
  set (min_left := if len - offset <? 512 - sector_ofs
                   then len - offset else 512 - sector_ofs).
  set (chunk_size := if size <? min_left then size else min_left).
  assert (Hchunk : chunk_size
                   = Z.min size (Z.min (len - offset) (512 - sector_ofs))).
  { subst chunk_size min_left.
    destruct (Z.ltb_spec (len - offset) (512 - sector_ofs));
      match goal with |- context [size <? ?m] =>
        destruct (Z.ltb_spec size m) end; lia. }
  clearbody chunk_size. clear min_left.
  destruct (Z.leb_spec chunk_size 0) as [Hend|Hgo].
  { exists buffer. munfold. subst n.
    assert (Z.min size (Z.max 0 (len - offset)) = 0) as -> by lia.
    rewrite Z.add_0_r. split; [done|]. split; [lia|done]. }
  assert (Hstep : ∀ bs : list byte,
    length bs = Z.to_nat chunk_size →
    (∀ d, 0 ≤ d < chunk_size →
          bs !! Z.to_nat d = sector_contents st s !! Z.to_nat (sector_ofs + d)) →
    ∃ buffer',
      read_loop fuel (Some p) true (buffer_store buffer bytes_read bs)
        (to_int32 (size - chunk_size)) (to_int32 (offset + chunk_size))
        (to_int32 (bytes_read + chunk_size)) st
      = Some ((buffer', bytes_read + n), st) ∧
      (∀ j, bytes_read ≤ j < bytes_read + n →
            file_byte st (Some p) (offset + (j - bytes_read))
            = Some (buffer' j)) ∧
      (∀ j, j < bytes_read ∨ bytes_read + n ≤ j → buffer' j = buffer j)).
  { intros bs Hbs Hcontent.
    rewrite !to_int32_small by lia.
    destruct (IH (buffer_store buffer bytes_read bs) (size - chunk_size)
                (offset + chunk_size) (bytes_read + chunk_size))
      as (b2 & Hrun & Hfile & Hframe); [lia|lia|lia|lia|lia|].
    assert (Hn : bytes_read + chunk_size
                 + Z.min (size - chunk_size)
                     (Z.max 0 (len - (offset + chunk_size)))
                 = bytes_read + n) by (subst n; lia).
    rewrite Hn in Hrun, Hfile, Hframe.
    exists b2. split; [exact Hrun|]. split.
    - intros j Hj.
      destruct (Z.lt_ge_cases j (bytes_read + chunk_size)) as [Hin|Hout].
      + rewrite Hframe by lia.
        rewrite buffer_store_inside by lia.
        set (d := j - bytes_read) in *.
        destruct (same_sector_offset offset d) as [Hdiv Hmod]; [lia|lia|].
        unfold file_byte.
        rewrite (byte_to_sector_same_sector st p ino (offset + d) offset Hp)
          by (fold len; lia || done).
        rewrite Hs, Hmod. fold sector_ofs.
        rewrite Hcontent by lia.
        destruct (lookup_lt_is_Some_2 (sector_contents st s)
                    (Z.to_nat (sector_ofs + d))) as [x Hx].
        { rewrite length_sector_contents. lia. }
        by rewrite Hx.
      + rewrite <- Hfile by lia. f_equal. lia.
    - intros j Hj. rewrite Hframe by lia.
      apply buffer_store_outside. lia. }
  destruct ((sector_ofs =? 0) && (chunk_size =? 512)) eqn:Hfull.
  - unfold mbind at 1, M_bind at 1, bind at 1. rewrite block_read_eq.
    apply andb_true_iff in Hfull as [Ho%Z.eqb_eq Hc%Z.eqb_eq].
    apply Hstep.
    + rewrite length_sector_contents. lia.
    + intros d Hd. by rewrite Ho.
  - unfold mbind at 1, M_bind at 1, bind at 1. rewrite block_read_eq.
    apply Hstep.
    + rewrite length_take, length_drop, length_sector_contents. lia.
    + intros d Hd. rewrite lookup_take_lt by lia.
      rewrite lookup_drop. f_equal. lia.
Qed.

(** What [inode_read_at] returns and stores. *)
Lemma inode_read_at_lemma
    (st : fs) (p : nat) (ino : inode) (buffer : memory) (size offset : Z) :
  inodes st !! p = Some ino → no_indirect ino →
  0 ≤ size < 2 ^ 31 → 0 ≤ offset < 2 ^ 31 →
  let len := InodeDisk.length (Inode.data ino) in
  let n := Z.min size (Z.max 0 (len - offset)) in
  ∃ buffer',
    inode_read_at (Some p) buffer size offset true st = Some ((buffer', n), st) ∧
    (∀ j, 0 ≤ j < n →
          offset + j < len ∧
          file_byte st (Some p) (offset + j) = Some (buffer' j)) ∧
    (∀ j, j < 0 ∨ n ≤ j → buffer' j = buffer j).
Proof.
  intros Hp Hok Hsize Hoff len n.
  destruct (read_loop_count st p ino Hp Hok (S (Z.to_nat size)) buffer size
              offset 0) as (b & Hrun & Hfile & Hframe); try lia.
  exists b. unfold inode_read_at. rewrite Hrun. fold len n.
  rewrite Z.add_0_l in *. split; [done|]. split.
  - intros j Hj. split; [subst n; lia|].
    rewrite <- Hfile by (fold len n; lia). f_equal. lia.
  - intros j Hj. apply Hframe. fold len n. lia.
Qed.

(** ** Writing and denying writes *)

Lemma set_inodes_same st : set_inodes (inodes st) st = st.
Proof. by destruct st. Qed.

Lemma set_inodes_twice h1 h2 st :
  set_inodes h2 (set_inodes h1 st) = set_inodes h2 st.
Proof. by destruct st. Qed.

Lemma set_deny_write_cnt_same ino :
  Inode.set_deny_write_cnt (Inode.deny_write_cnt ino) ino = ino.
Proof. by destruct ino. Qed.

Lemma write_denied st p ino buffer size offset bounce_ok :
  inodes st !! p = Some ino → Inode.deny_write_cnt ino ≠ 0 →
  inode_write_at (Some p) buffer size offset bounce_ok st = Some (0, st).
Proof.
  intros Hp Hd. unfold inode_write_at, deref. munfold. rewrite Hp.
  destruct (Z.eqb_spec (Inode.deny_write_cnt ino) 0); [done|reflexivity].
Qed.

Lemma write_allowed st p ino buffer size offset bounce_ok :
  inodes st !! p = Some ino → Inode.deny_write_cnt ino = 0 →
  inode_write_at (Some p) buffer size offset bounce_ok st
  = write_loop (S (Z.to_nat size)) (Some p) bounce_ok buffer size offset 0 st.
Proof.
  intros Hp Hd. unfold inode_write_at, deref. munfold. rewrite Hp, Hd.
  reflexivity.
Qed.

Lemma repeat_M_S n m st :
  repeat_M (S n) m st
  = match m st with Some (_, st') => repeat_M n m st' | None => None end.
Proof. reflexivity. Qed.

Lemma deny_write_step st p ino :
  inodes st !! p = Some ino →
  - 2 ^ 31 ≤ Inode.deny_write_cnt ino →
  Inode.deny_write_cnt ino + 1 ≤ Inode.open_cnt ino < 2 ^ 31 →
  inode_deny_write (Some p) st
  = Some (tt, set_inodes
                (<[p := Inode.set_deny_write_cnt
                          (Inode.deny_write_cnt ino + 1) ino]> (inodes st))
                st).
Proof.
  intros Hp Hc Hn. unfold inode_deny_write, deref, store. munfold.
  rewrite Hp. rewrite to_int32_small by lia.
  destruct (Z.leb_spec (Inode.deny_write_cnt ino + 1) (Inode.open_cnt ino));
    [reflexivity|lia].
Qed.

Lemma allow_write_step st p ino :
  inodes st !! p = Some ino →
  0 < Inode.deny_write_cnt ino ≤ Inode.open_cnt ino →
  Inode.open_cnt ino < 2 ^ 31 →
  inode_allow_write (Some p) st
  = Some (tt, set_inodes
                (<[p := Inode.set_deny_write_cnt
                          (Inode.deny_write_cnt ino - 1) ino]> (inodes st))
                st).
Proof.
  intros Hp Hc Hn. unfold inode_allow_write, deref, store. munfold.
  rewrite Hp.
  destruct (Z.ltb_spec 0 (Inode.deny_write_cnt ino)); [|lia].
  destruct (Z.leb_spec (Inode.deny_write_cnt ino) (Inode.open_cnt ino));
    [|lia].
  rewrite to_int32_small by lia. reflexivity.
Qed.

Lemma deny_write_repeat p n : ∀ st ino,
  inodes st !! p = Some ino →
  0 ≤ Inode.deny_write_cnt ino →
  Inode.deny_write_cnt ino + Z.of_nat n ≤ Inode.open_cnt ino < 2 ^ 31 →
  repeat_M n (inode_deny_write (Some p)) st
  = Some (tt, set_inodes
                (<[p := Inode.set_deny_write_cnt
                          (Inode.deny_write_cnt ino + Z.of_nat n) ino]>
                   (inodes st)) st).
Proof.
  induction n as [|n IH]; intros st ino Hp Hc Hn.
  - simpl. rewrite Z.add_0_r, set_deny_write_cnt_same, insert_id by done.
    by rewrite set_inodes_same.
  - rewrite repeat_M_S, (deny_write_step st p ino) by (done || lia).
    erewrite IH; cycle 1.
    + simpl. apply lookup_insert_eq.
    + simpl. lia.
    + simpl. lia.
    + simpl. rewrite insert_insert_eq, set_inodes_twice.
      match goal with
      | |- context [<[p := ?a]> _] =>
          match goal with
          | |- _ = Some (_, set_inodes (<[p := ?b]> _) _) =>
              replace a with b; [done|]
          end
      end.
      destruct ino; unfold Inode.set_deny_write_cnt; simpl; f_equal; lia.
Qed.

Lemma allow_write_repeat p n : ∀ st ino,
  inodes st !! p = Some ino →
  Z.of_nat n ≤ Inode.deny_write_cnt ino ≤ Inode.open_cnt ino →
  Inode.open_cnt ino < 2 ^ 31 →
  repeat_M n (inode_allow_write (Some p)) st
  = Some (tt, set_inodes
                (<[p := Inode.set_deny_write_cnt
                          (Inode.deny_write_cnt ino - Z.of_nat n) ino]>
                   (inodes st)) st).
Proof.
  induction n as [|n IH]; intros st ino Hp Hc Hn.
  - simpl. rewrite Z.sub_0_r, set_deny_write_cnt_same, insert_id by done.
    by rewrite set_inodes_same.
  - rewrite repeat_M_S, (allow_write_step st p ino) by (done || lia).
    erewrite IH; cycle 1.
    + simpl. apply lookup_insert_eq.
    + simpl. lia.
    + simpl. lia.
    + simpl. rewrite insert_insert_eq, set_inodes_twice.
      match goal with
      | |- context [<[p := ?a]> _] =>
          match goal with
          | |- _ = Some (_, set_inodes (<[p := ?b]> _) _) =>
              replace a with b; [done|]
          end
      end.
      destruct ino; unfold Inode.set_deny_write_cnt; simpl; f_equal; lia.
Qed.

(** ** Files without indirect blocks *)

Lemma lookup_buffer_load buffer pos n k :
  (k < Z.to_nat n)%nat →
  buffer_load buffer pos n !! k = Some (buffer (pos + Z.of_nat k)).
Proof.
  intros Hk. unfold buffer_load.
  rewrite list_lookup_fmap, lookup_seq_lt by done. done.
Qed.

Lemma length_buffer_load buffer pos n :
  length (buffer_load buffer pos n) = Z.to_nat n.
Proof. unfold buffer_load. by rewrite length_map, length_seq. Qed.

Lemma sector_contents_block_write st s b st' s' :
  block_write s b st = Some (tt, st') → length b = 512%nat →
  sector_contents st' s' = if decide (s = s') then b else sector_contents st s'.
Proof.
  unfold block_write. munfold. intros [= <-] Hlen.
  unfold sector_contents. cbn [fs_device set_fs_device].
  destruct (decide (s = s')) as [->|Hne].
  - rewrite lookup_insert_eq. cbn [default].
    rewrite take_ge by lia. by apply resize_all_alt.
  - by rewrite lookup_insert_ne.
Qed.

Section direct_files.
Variables (p : nat) (ino : inode).
Hypothesis Hdirect : direct_ok ino.

Let len := InodeDisk.length (Inode.data ino).
Let sectors := InodeDisk.sectors (Inode.data ino).

Lemma direct_sector_index pos :
  0 ≤ pos < len →
  0 ≤ pos / 512 < 124 ∧ pos / 512 < (len + 511) / 512.
Proof using Hdirect.
  destruct Hdirect as ([_ Hmax] & Hdir & _). fold len in Hmax, Hdir.
  unfold DIRECT_BLOCK in Hdir. intros Hpos. split.
  - split; [apply Z.div_pos; lia|apply Z.div_lt_upper_bound; lia].
  - apply Z.div_lt_upper_bound; [lia|].
    pose proof (Z.mul_div_le (len + 511) 512 ltac:(lia)).
    pose proof (Z.mod_pos_bound (len + 511) 512 ltac:(lia)).
    pose proof (Z.div_mod (len + 511) 512 ltac:(lia)). lia.
Qed.

Lemma byte_to_sector_direct st pos :
  inodes st !! p = Some ino → 0 ≤ pos < len →
  ∃ s, sectors !! Z.to_nat (pos / 512) = Some s ∧
       byte_to_sector (Some p) pos st = Some (s, st).
Proof using Hdirect.
  intros Hp Hpos.
  destruct (direct_sector_index pos Hpos) as [Hidx _].
  pose proof Hdirect as ([Hlen Hmax] & Hdir & _). fold len in Hmax, Hdir.
  destruct (byte_to_sector_cases st p ino pos Hp) as (_ & H2 & _ & H4).
  unfold DIRECT_BLOCK in Hdir.
  rewrite H4 in H2 by lia.
  destruct (lookup_lt_is_Some_2 sectors (Z.to_nat (pos / 512))) as [s Hs].
  { unfold sectors. lia. }
  exists s. split; [done|]. apply H2; [unfold len in Hpos; lia|lia|done].
Qed.

(** Offsets of different sectors of the file lie in different sectors of
    the device. *)
Lemma direct_sectors_distinct pos1 pos2 s1 s2 :
  0 ≤ pos1 < len → 0 ≤ pos2 < len →
  sectors !! Z.to_nat (pos1 / 512) = Some s1 →
  sectors !! Z.to_nat (pos2 / 512) = Some s2 →
  s1 = s2 → pos1 / 512 = pos2 / 512.
Proof using Hdirect.
  intros H1 H2 Hs1 Hs2 ->.
  destruct (direct_sector_index pos1 H1) as [? ?].
  destruct (direct_sector_index pos2 H2) as [? ?].
  destruct Hdirect as (_ & _ & Hnd). fold len sectors in Hnd.
  rewrite <- (lookup_take_lt _ (Z.to_nat ((len + 511) / 512))) in Hs1, Hs2
    by lia.
  pose proof (NoDup_lookup _ _ _ _ Hnd Hs1 Hs2). lia.
Qed.

(** What one turn of the writing loop leaves in the file, for a block
    [b] that holds the [chunk_size] bytes of the buffer from
    [sector_ofs] on and the former bytes of the sector elsewhere. *)
Lemma file_byte_after_chunk st st' s b buffer offset chunk_size bw pos :
  inodes st !! p = Some ino →
  0 ≤ offset → 0 < chunk_size ≤ 512 - offset mod 512 →
  offset + chunk_size ≤ len →
  byte_to_sector (Some p) offset st = Some (s, st) →
  block_write s b st = Some (tt, st') →
  length b = 512%nat →
  (∀ k, 0 ≤ k < 512 →
        b !! Z.to_nat k
        = if decide (offset mod 512 ≤ k < offset mod 512 + chunk_size)
          then Some (buffer (bw + (k - offset mod 512)))
          else sector_contents st s !! Z.to_nat k) →
  0 ≤ pos < len →
  file_byte st' (Some p) pos
  = if decide (offset ≤ pos < offset + chunk_size)
    then Some (buffer (bw + (pos - offset)))
    else file_byte st (Some p) pos.
Proof using Hdirect.
  intros Hp Hoff Hchunk Hfit Hs Hw Hlen Hb Hpos.
  assert (Hp' : inodes st' !! p = Some ino).
  { destruct (block_write_run s b st) as (? & Hw' & [Hin _] & _).
    rewrite Hw in Hw'. injection Hw' as <-. by rewrite Hin. }
  destruct (byte_to_sector_direct st offset Hp) as (s0 & Hs0 & Hbo);
    [lia|]. rewrite Hs in Hbo. injection Hbo as <-.
  destruct (byte_to_sector_direct st pos Hp Hpos) as (s1 & Hs1 & Hb1).
  destruct (byte_to_sector_direct st' pos Hp' Hpos) as (s1' & Hs1' & Hb1').
  rewrite Hs1 in Hs1'. injection Hs1' as <-.
  unfold file_byte. rewrite Hb1, Hb1'.
  rewrite (sector_contents_block_write st s b st' s1 Hw Hlen).
  pose proof (Z.mod_pos_bound pos 512 ltac:(lia)) as Hpm.
  pose proof (Z.mod_pos_bound offset 512 ltac:(lia)) as Hom.
  pose proof (Z.div_mod pos 512 ltac:(lia)) as Hpd.
  pose proof (Z.div_mod offset 512 ltac:(lia)) as Hod.
  destruct (decide (s = s1)) as [<-|Hne].
  - assert (Hsame : offset / 512 = pos / 512).
    { apply (direct_sectors_distinct offset pos s s); (done || lia). }
    rewrite Hb by lia.
    destruct (decide (offset mod 512 ≤ pos mod 512
                      < offset mod 512 + chunk_size));
      destruct (decide (offset ≤ pos < offset + chunk_size));
      try lia; [|done].
    do 2 f_equal. lia.
  - destruct (decide (offset ≤ pos < offset + chunk_size)) as [Hin|]; [|done].
    exfalso. apply Hne.
    destruct (same_sector_offset offset (pos - offset)) as [Hdiv _];
      [lia|lia|].
    replace (offset + (pos - offset)) with pos in Hdiv by lia.
    rewrite Hdiv in Hs1. congruence.
Qed.

(** The writing loop puts the bytes of the buffer in the file and leaves
    the other bytes of the file. *)
Lemma write_loop_content :
  ∀ fuel st buffer size offset bytes_written,
    inodes st !! p = Some ino →
    0 ≤ size → 0 ≤ offset < 2 ^ 31 → 0 ≤ bytes_written →
    bytes_written + size < 2 ^ 31 →
    (Z.to_nat size < fuel)%nat →
    let n := Z.min size (Z.max 0 (len - offset)) in
    ∃ st',
      write_loop fuel (Some p) true buffer size offset bytes_written st
      = Some (bytes_written + n, st') ∧
      same_registry st st' ∧ free_map st' = free_map st ∧
      (∀ s, s ∉ data_sectors ino →
            sector_contents st' s = sector_contents st s) ∧
      ∀ pos, 0 ≤ pos < len →
        file_byte st' (Some p) pos
        = if decide (offset ≤ pos < offset + n)
          then Some (buffer (bytes_written + (pos - offset)))
          else file_byte st (Some p) pos.
Proof using Hdirect.
  pose proof (direct_ok_no_indirect ino Hdirect) as Hok.
  pose proof Hok as [_ Hmax]. unfold DIRECT_BLOCK in Hmax.
  fold len in Hmax.
  induction fuel as [|fuel IH];
    intros st buffer size offset bytes_written Hp Hsize Hoff Hwr Hint Hfuel n;
    [lia|].
  cbn [write_loop].
  destruct (Z.ltb_spec 0 size) as [Hpos|Hzero].
  2:{ exists st. subst n. replace size with 0 by lia.
      assert (Z.min 0 (Z.max 0 (len - offset)) = 0) as -> by lia.
      rewrite Z.add_0_r. do 4 (split; [done|]).
      intros pos Hpos. destruct (decide _); [lia|done]. }
  destruct (byte_to_sector_defined st p ino offset Hp Hok Hoff) as [s Hs].
  unfold mbind at 1, M_bind at 1, bind at 1. rewrite Hs.
  unfold mbind at 1, M_bind at 1, bind at 1.
  rewrite (inode_length_eq st p ino Hp). fold len.
  unfold BLOCK_SECTOR_SIZE.
  rewrite Z.rem_mod_nonneg by lia.
  pose proof (Z.mod_pos_bound offset 512 ltac:(lia)) as Hofs.
  rewrite (to_int32_small (len - offset)) by lia.
  set (min_left := if len - offset <? 512 - offset mod 512
                   then len - offset else 512 - offset mod 512).
  set (chunk_size := if size <? min_left then size else min_left).
  assert (Hchunk : chunk_size
                   = Z.min size (Z.min (len - offset) (512 - offset mod 512))).
  { subst chunk_size min_left.
    destruct (Z.ltb_spec (len - offset) (512 - offset mod 512));
      match goal with |- context [size <? ?m] =>
        destruct (Z.ltb_spec size m) end; lia. }
  clearbody chunk_size. clear min_left.
  destruct (Z.leb_spec chunk_size 0) as [Hend|Hgo].
  { exists st. munfold. subst n.
    assert (Z.min size (Z.max 0 (len - offset)) = 0) as -> by lia.
    rewrite Z.add_0_r. do 4 (split; [done|]).
    intros pos Hpos'. destruct (decide _); [lia|done]. }
  assert (Hdata : s ∈ data_sectors ino).
  { destruct (byte_to_sector_direct st offset Hp) as (s0 & Hs0 & Hb0); [lia|].
    rewrite Hs in Hb0. injection Hb0 as <-.
    destruct (direct_sector_index offset) as [? ?]; [lia|].
    apply list_elem_of_lookup. exists (Z.to_nat (offset / 512)).
    unfold data_sectors. fold len sectors. rewrite lookup_take_lt by lia.
    exact Hs0. }
  assert (Hstep : ∀ b : block,
    length b = 512%nat →
    (∀ k, 0 ≤ k < 512 →
          b !! Z.to_nat k
          = if decide (offset mod 512 ≤ k < offset mod 512 + chunk_size)
            then Some (buffer (bytes_written + (k - offset mod 512)))
            else sector_contents st s !! Z.to_nat k) →
    ∃ st',
      (block_write s b;;
       write_loop fuel (Some p) true buffer
         (to_int32 (size - chunk_size)) (to_int32 (offset + chunk_size))
         (to_int32 (bytes_written + chunk_size))) st
      = Some (bytes_written + n, st') ∧
      same_registry st st' ∧ free_map st' = free_map st ∧
      (∀ s, s ∉ data_sectors ino →
            sector_contents st' s = sector_contents st s) ∧
      ∀ pos, 0 ≤ pos < len →
        file_byte st' (Some p) pos
        = if decide (offset ≤ pos < offset + n)
          then Some (buffer (bytes_written + (pos - offset)))
          else file_byte st (Some p) pos).
  { intros b Hlen Hb.
    destruct (block_write_run s b st) as (st1 & Hw & Hr1 & _ & Hf1).
    pose proof Hr1 as [Hin1 _].
    unfold mbind, M_bind, bind. rewrite Hw.
    rewrite !to_int32_small by lia.
    destruct (IH st1 buffer (size - chunk_size) (offset + chunk_size)
                (bytes_written + chunk_size))
      as (st2 & Hrun & Hr2 & Hf2 & Hframe & Hfile); try lia.
    { by rewrite Hin1. }
    assert (Hn : offset + chunk_size
                 + Z.min (size - chunk_size)
                     (Z.max 0 (len - (offset + chunk_size)))
                 = offset + n) by (subst n; lia).
    assert (Hn' : bytes_written + chunk_size
                  + Z.min (size - chunk_size)
                      (Z.max 0 (len - (offset + chunk_size)))
                  = bytes_written + n) by (subst n; lia).
    rewrite Hn' in Hrun.
    exists st2. split; [exact Hrun|].
    split; [by eapply same_registry_trans|]. split; [congruence|].
    split.
    { intros s' Hs'. rewrite (Hframe s' Hs').
      rewrite (sector_contents_block_write st s b st1 s' Hw Hlen).
      destruct (decide (s = s')) as [<-|]; [done|done]. }
    intros pos Hpos'. rewrite (Hfile pos Hpos'), Hn.
    rewrite (file_byte_after_chunk st st1 s b buffer offset chunk_size
               bytes_written pos) by (done || lia).
    destruct (decide (offset + chunk_size ≤ pos < offset + n));
      destruct (decide (offset ≤ pos < offset + chunk_size));
      destruct (decide (offset ≤ pos < offset + n)); try lia; try done.
    do 2 f_equal. lia. }
  destruct ((offset mod 512 =? 0) && (chunk_size =? 512)) eqn:Hfull.
  - apply andb_true_iff in Hfull as [Ho%Z.eqb_eq Hc%Z.eqb_eq].
    apply Hstep.
    + by rewrite length_buffer_load.
    + intros k Hk. rewrite lookup_buffer_load by lia.
      destruct (decide _); [|lia]. do 2 f_equal. lia.
  - unfold mbind at 1, M_bind at 1, bind at 1.
    assert ((0 <? offset mod 512) || (chunk_size <? 512 - offset mod 512)
            = true) as ->.
    { apply andb_false_iff in Hfull as [Ho%Z.eqb_neq|Hc%Z.eqb_neq].
      - apply orb_true_iff. left. apply Z.ltb_lt. lia.
      - apply orb_true_iff.
        destruct (Z.eq_dec (offset mod 512) 0).
        + right. apply Z.ltb_lt. lia.
        + left. apply Z.ltb_lt. lia. }
    rewrite block_read_eq. apply Hstep.
    + by rewrite length_inserts, length_sector_contents.
    + intros k Hk.
      destruct (decide (offset mod 512 ≤ k < offset mod 512 + chunk_size)).
      * rewrite list_lookup_inserts.
        -- rewrite lookup_buffer_load by lia. do 2 f_equal. lia.
        -- rewrite length_buffer_load. lia.
        -- rewrite length_sector_contents. lia.
      * destruct (Z.lt_ge_cases k (offset mod 512)).
        -- rewrite list_lookup_inserts_lt by lia. done.
        -- rewrite list_lookup_inserts_ge; [done|].
           rewrite length_buffer_load. lia.
Qed.

(** On a file without indirect blocks whose sectors are distinct, what
    [inode_write_at] wrote over the whole file is what [inode_read_at]
    reads from it. *)
Lemma direct_round_trip st pattern buffer :
  inodes st !! p = Some ino → Inode.deny_write_cnt ino = 0 →
  ∃ st' buffer',
    inode_write_at (Some p) pattern len 0 true st = Some (len, st') ∧
    inode_read_at (Some p) buffer len 0 true st' = Some ((buffer', len), st') ∧
    ∀ j, 0 ≤ j < len → buffer' j = pattern j.
Proof using Hdirect.
  intros Hp Hdeny.
  pose proof (direct_ok_no_indirect ino Hdirect) as Hok.
  pose proof Hok as [_ Hmax]. unfold DIRECT_BLOCK in Hmax.
  fold len in Hmax.
  rewrite (write_allowed st p ino) by done.
  destruct (write_loop_content (S (Z.to_nat len)) st pattern len 0 0 Hp)
    as (st' & Hw & [Hin _] & _ & _ & Hfile); try lia.
  replace (Z.min len (Z.max 0 (len - 0))) with len in * by lia.
  rewrite Z.add_0_l in Hw.
  assert (Hp' : inodes st' !! p = Some ino) by (by rewrite Hin).
  destruct (inode_read_at_lemma st' p ino buffer len 0 Hp' Hok)
    as (buffer' & Hr & Hcontent & _); try lia.
  fold len in Hr, Hcontent.
  replace (Z.min len (Z.max 0 (len - 0))) with len in * by lia.
  exists st', buffer'. split; [done|]. split; [done|].
  intros j Hj. destruct (Hcontent j Hj) as [_ Hbyte].
  rewrite Z.add_0_l in Hbyte. rewrite (Hfile j Hj) in Hbyte.
  destruct (decide _); [|lia].
  rewrite Z.add_0_l, Z.sub_0_r in Hbyte. by injection Hbyte.
Qed.
End direct_files.

(** What [inode_write_at] returns and stores on a file without indirect
    blocks whose data sectors are distinct. *)
Lemma inode_write_at_lemma
    (st : fs) (p : nat) (ino : inode) (buffer : memory) (size offset : Z) :
  inodes st !! p = Some ino → direct_ok ino →
  Inode.deny_write_cnt ino = 0 →
  0 ≤ size < 2 ^ 31 → 0 ≤ offset < 2 ^ 31 →
  let len := InodeDisk.length (Inode.data ino) in
  let n := Z.min size (Z.max 0 (len - offset)) in
  ∃ st',
    inode_write_at (Some p) buffer size offset true st = Some (n, st') ∧
    same_registry st st' ∧ free_map st' = free_map st ∧
    (∀ s, s ∉ data_sectors ino →
          sector_contents st' s = sector_contents st s) ∧
    ∀ pos, 0 ≤ pos < len →
      file_byte st' (Some p) pos
      = if decide (offset ≤ pos < offset + n)
        then Some (buffer (pos - offset))
        else file_byte st (Some p) pos.
Proof.
  intros Hp Hdirect Hd Hsize Hoff len n.
  rewrite (write_allowed st p ino) by done.
  destruct (write_loop_content p ino Hdirect (S (Z.to_nat size)) st buffer
              size offset 0 Hp)
    as (st' & Hrun & Hreg & Hfree & Hframe & Hbytes); try lia.
  exists st'. split; [exact Hrun|]. do 3 (split; [done|]).
  intros pos Hpos. rewrite (Hbytes pos Hpos).
  destruct (decide _); [|done]. by rewrite Z.add_0_l.
Qed.

(** C6: while the deny-write counter of an inode is positive,
    [inode_write_at] returns 0 and changes nothing, the disk included; and
    [n] calls of [inode_deny_write] followed by [n] calls of
    [inode_allow_write] lead back to the state before them, where, on a
    file without indirect blocks, [inode_write_at] again transfers the
    bytes that fit below the length of the inode and stores them in the
    file, leaving the other bytes of the file. *)
Theorem deny_write_blocks_writes (st : fs) (p : nat) (ino : inode) :
  inodes st !! p = Some ino →
  (0 < Inode.deny_write_cnt ino →
   ∀ buffer size offset bounce_ok,
     inode_write_at (Some p) buffer size offset bounce_ok st = Some (0, st)) ∧
  (Inode.deny_write_cnt ino = 0 →
   ∀ n, (0 < n)%nat → Z.of_nat n ≤ Inode.open_cnt ino < 2 ^ 31 →
     ∃ st_d,
       repeat_M n (inode_deny_write (Some p)) st = Some (tt, st_d) ∧
       (∀ buffer size offset bounce_ok,
          inode_write_at (Some p) buffer size offset bounce_ok st_d
          = Some (0, st_d)) ∧
       repeat_M n (inode_allow_write (Some p)) st_d = Some (tt, st) ∧
       (direct_ok ino →
        ∀ buffer size offset, 0 ≤ size < 2 ^ 31 → 0 ≤ offset < 2 ^ 31 →
          let len := InodeDisk.length (Inode.data ino) in
          let k := Z.min size (Z.max 0 (len - offset)) in
          ∃ st',
            inode_write_at (Some p) buffer size offset true st
            = Some (k, st') ∧
            ∀ pos, 0 ≤ pos < len →
              file_byte st' (Some p) pos
              = if decide (offset ≤ pos < offset + k)
                then Some (buffer (pos - offset))
                else file_byte st (Some p) pos)).
Proof.
  intros Hp. split.
  - intros Hd buffer size offset bounce_ok.
    apply (write_denied st p ino); [done|lia].
  - intros Hd n Hn Hcnt.
    eexists. split; [|split; [|split]].
    + apply (deny_write_repeat p n st ino); [done|lia|lia].
    + intros. eapply write_denied.
      * simpl. apply lookup_insert_eq.
      * simpl. lia.
    + erewrite allow_write_repeat; cycle 1.
      * simpl. apply lookup_insert_eq.
      * simpl. lia.
      * simpl. lia.
      * simpl. rewrite insert_insert_eq, set_inodes_twice.
        replace (Inode.set_deny_write_cnt _ _) with ino.
        -- by rewrite insert_id, set_inodes_same.
        -- destruct ino; simpl in *. unfold Inode.set_deny_write_cnt. simpl.
           f_equal. lia.
    + intros Hok buffer size offset Hsize Hoff len k.
      destruct (inode_write_at_lemma st p ino buffer size offset)
        as (st' & Hw & _ & _ & _ & Hbytes); try done.
      by exists st'.
Qed.

(** ** Opening *)

Lemma find_open_none st sector : ∀ l,
  (∀ q, q ∈ l → is_Some (inodes st !! q)) →
  (∀ q ino, q ∈ l → inodes st !! q = Some ino → Inode.sector ino ≠ sector) →
  find_open l sector st = Some (None, st).
Proof.
  induction l as [|q l IH]; intros Hok Hno; [reflexivity|].
  cbn [find_open]. unfold deref. munfold.
  destruct (Hok q) as [ino Hq]; [by left|]. rewrite Hq.
  destruct (Z.eqb_spec (Inode.sector ino) sector) as [Heq|_].
  - exfalso. by eapply (Hno q ino); [left|..].
  - apply IH.
    + intros q' Hq'. apply Hok. by right.
    + intros q' ino' Hq'. apply Hno. by right.
Qed.

Lemma find_open_found st sector : ∀ l,
  (∀ q, q ∈ l → is_Some (inodes st !! q)) →
  (∃ q ino, q ∈ l ∧ inodes st !! q = Some ino ∧ Inode.sector ino = sector) →
  ∃ p ino, p ∈ l ∧ inodes st !! p = Some ino ∧ Inode.sector ino = sector ∧
           find_open l sector st = Some (Some p, st).
Proof.
  induction l as [|q l IH]; intros Hok (q0 & i0 & Hin & Hq0 & Hs0).
  { by apply elem_of_nil in Hin. }
  cbn [find_open]. unfold deref. munfold.
  destruct (Hok q) as [ino Hq]; [by left|]. rewrite Hq.
  destruct (Z.eqb_spec (Inode.sector ino) sector) as [Heq|Hne].
  - exists q, ino. repeat split; [by left|done|done].
  - destruct IH as (p & ino' & Hp & Hl & Hs & Hf).
    + intros q' Hq'. apply Hok. by right.
    + apply elem_of_cons in Hin as [->|Hin].
      * congruence.
      * by exists q0, i0.
    + exists p, ino'. repeat split; [by right|done|done|done].
Qed.

Lemma inode_open_found st sector p ino malloc_ok :
  find_open (open_inodes st) sector st = Some (Some p, st) →
  inodes st !! p = Some ino →
  inode_open sector malloc_ok st
  = Some (Some p,
          set_inodes
            (<[p := Inode.set_open_cnt (to_int32 (Inode.open_cnt ino + 1)) ino]>
               (inodes st)) st).
Proof.
  intros Hf Hp. unfold inode_open.
  unfold mbind at 1, M_bind at 1, bind at 1, gets at 1.
  unfold mbind at 1, M_bind at 1, bind at 1. rewrite Hf.
  unfold inode_reopen, deref, store. munfold. by rewrite Hp.
Qed.

Lemma inode_open_new st sector :
  find_open (open_inodes st) sector st = Some (None, st) →
  let p := fresh (dom (inodes st)) in
  inode_open sector true st
  = Some (Some p,
          mk_fs (fs_device st) (free_map st)
            (<[p := Inode.mk sector 1 false 0
                      (decode_inode_disk (sector_contents st sector))]>
               (inodes st))
            (p :: open_inodes st)).
Proof.
  intros Hf p. unfold inode_open.
  unfold mbind at 1, M_bind at 1, bind at 1, gets at 1.
  unfold mbind at 1, M_bind at 1, bind at 1. rewrite Hf.
  unfold block_read, store. munfold. by destruct st.
Qed.

(** C8: [inode_open] on a sector that has an open inode returns that
    inode with its reference count incremented, and on a sector that has
    none it puts on the list a new inode with reference count 1 and the
    contents of the sector; a second [inode_open] of the sector then
    returns the same inode, with reference count 2, and one [inode_close]
    leaves it on the list with reference count 1. *)
Theorem inode_open_shares_record (st : fs) (sector : Z) :
  registry_ok st →
  ((∃ q i, registered st sector q i) →
   ∃ p ino,
     registered st sector p ino ∧
     (∀ malloc_ok,
        inode_open sector malloc_ok st
        = Some (Some p,
                set_inodes
                  (<[p := Inode.set_open_cnt
                            (to_int32 (Inode.open_cnt ino + 1)) ino]>
                     (inodes st)) st)) ∧
     (- 2 ^ 31 ≤ Inode.open_cnt ino < 2 ^ 31 - 1 →
      to_int32 (Inode.open_cnt ino + 1) = Inode.open_cnt ino + 1)) ∧
  (not_open st sector →
   ∃ p,
     inodes st !! p = None ∧
     let ino1 :=
       Inode.mk sector 1 false 0
         (decode_inode_disk (sector_contents st sector)) in
     let st1 :=
       mk_fs (fs_device st) (free_map st) (<[p := ino1]> (inodes st))
         (p :: open_inodes st) in
     let st2 :=
       set_inodes (<[p := Inode.set_open_cnt 2 ino1]> (inodes st1)) st1 in
     let st3 :=
       set_inodes (<[p := Inode.set_open_cnt 1 ino1]> (inodes st2)) st2 in
     inode_open sector true st = Some (Some p, st1) ∧
     inode_open sector true st1 = Some (Some p, st2) ∧
     inode_close (Some p) st2 = Some (tt, st3) ∧
     registered st3 sector p (Inode.set_open_cnt 1 ino1)).
Proof.
  intros Hok. split.
  - intros (q & i & Hin & Hq & Hs).
    destruct (find_open_found st sector (open_inodes st) Hok)
      as (p & ino & Hp & Hl & Hsec & Hf).
    { by exists q, i. }
    exists p, ino. split; [done|]. split.
    + intros malloc_ok. by apply inode_open_found.
    + intros Hr. apply to_int32_small. lia.
  - intros Hno.
    pose proof (find_open_none st sector (open_inodes st) Hok Hno) as Hf.
    exists (fresh (dom (inodes st))).
    assert (Hfresh : inodes st !! fresh (dom (inodes st)) = None).
    { apply not_elem_of_dom, is_fresh. }
    split; [done|]. cbv zeta.
    set (p := fresh (dom (inodes st))) in *.
    split; [by apply inode_open_new|]. split; [|split].
    + rewrite (inode_open_found _ sector p
                 (Inode.mk sector 1 false 0
                    (decode_inode_disk (sector_contents st sector))) true).
      * reflexivity.
      * cbn [open_inodes find_open]. unfold deref. munfold. cbn [inodes].
        rewrite lookup_insert_eq. cbn [Inode.sector].
        by rewrite Z.eqb_refl.
      * cbn [inodes]. apply lookup_insert_eq.
    + unfold inode_close, deref, store. munfold. cbn [inodes set_inodes].
      rewrite lookup_insert_eq. reflexivity.
    + split; [|split].
      * cbn. by left.
      * cbn [inodes set_inodes]. apply lookup_insert_eq.
      * reflexivity.
Qed.

(** ** Creation *)

Lemma same_header_refl d : same_header d d.
Proof. done. Qed.

Lemma same_header_trans d1 d2 d3 :
  same_header d1 d2 → same_header d2 d3 → same_header d1 d3.
Proof. intros (?&?&?&?) (?&?&?&?). repeat split; congruence. Qed.

Lemma allocate_position_run position st :
  ∃ position' st',
    allocate_position position st = Some (position', st') ∧
    same_registry st st'.
Proof.
  unfold allocate_position, free_map_allocate. munfold.
  destruct (bitmap_scan _ _ _); eexists _, _; (split; [reflexivity|done]).
Qed.

Lemma same_header_set_sector i s d : same_header d (set_sector i s d).
Proof.
  unfold same_header, set_sector. simpl. by rewrite length_insert.
Qed.

Lemma wsd_direct_run total_sectors :
  0 ≤ total_sectors < 2 ^ 32 →
  ∀ fuel i position d st,
    0 ≤ i ≤ 124 → 125 ≤ Z.of_nat fuel + i →
    ∃ position' d' st',
      wsd_direct fuel total_sectors i position d st
      = Some ((Z.max i (Z.min total_sectors 124), position', d'), st') ∧
      same_header d d' ∧ same_registry st st'.
Proof.
  intros Htot. induction fuel as [|fuel IH]; intros i position d st Hi Hfuel;
    [lia|].
  cbn [wsd_direct]. unfold DIRECT_BLOCK.
  rewrite to_uint32_small by lia.
  destruct (Z.ltb_spec i total_sectors) as [Hlt|Hge];
    destruct (Z.ltb_spec i 124) as [Hlt'|Hge']; cbn [andb].
  2,3,4: exists position, d, st; munfold;
         replace (Z.max i (Z.min total_sectors 124)) with i by lia; done.
  destruct (allocate_position_run position st) as (p1 & st1 & Ha & Hr1).
  unfold mbind, M_bind, bind. rewrite Ha.
  rewrite to_int32_small by lia.
  destruct (IH (i + 1) p1 (set_sector i p1 d) st1) as (p2 & d2 & st2 & Hrun & Hh & Hr2);
    [lia|lia|].
  exists p2, d2, st2. rewrite Hrun.
  replace (Z.max (i + 1) (Z.min total_sectors 124))
    with (Z.max i (Z.min total_sectors 124)) by lia.
  split; [done|]. split.
  - eapply same_header_trans; [apply same_header_set_sector|done].
  - by eapply same_registry_trans.
Qed.

Lemma wsd_second_run total_sectors i :
  0 ≤ total_sectors < 2 ^ 32 → 0 ≤ i < 2 ^ 30 →
  ∀ fuel k position second_level st,
    0 ≤ k ≤ 128 → 129 ≤ Z.of_nat fuel + k →
    ∃ position' second_level' st',
      wsd_second fuel total_sectors i k position second_level st
      = Some ((Z.max k (Z.min 128 (total_sectors - i)), position',
               second_level'), st') ∧
      same_registry st st'.
Proof.
  intros Htot Hi.
  induction fuel as [|fuel IH]; intros k position sl st Hk Hfuel; [lia|].
  cbn [wsd_second].
  rewrite (to_int32_small (i + k)) by lia.
  rewrite to_uint32_small by lia.
  destruct (Z.ltb_spec k 128) as [Hlt|Hge];
    destruct (Z.ltb_spec (i + k) total_sectors) as [Hlt'|Hge']; cbn [andb].
  2,3,4: exists position, sl, st; munfold;
         replace (Z.max k (Z.min 128 (total_sectors - i))) with k by lia;
         done.
  destruct (allocate_position_run position st) as (p1 & st1 & Ha & Hr1).
  unfold mbind, M_bind, bind. rewrite Ha.
  rewrite to_int32_small by lia.
  destruct (IH (k + 1) p1 (<[Z.to_nat k := p1]> sl) st1)
    as (p2 & sl2 & st2 & Hrun & Hr2); [lia|lia|].
  exists p2, sl2, st2. rewrite Hrun.
  replace (Z.max (k + 1) (Z.min 128 (total_sectors - i)))
    with (Z.max k (Z.min 128 (total_sectors - i))) by lia.
  split; [done|]. by eapply same_registry_trans.
Qed.

Lemma wsd_first_run total_sectors :
  0 ≤ total_sectors ≤ MAX_BLOCK_NUMBER →
  ∀ fuel i ib_index position first_level st,
    0 ≤ ib_index → 0 ≤ i →
    i = 125 + 129 * ib_index ∨ total_sectors ≤ i →
    i ≤ total_sectors + 129 →
    length first_level = 128%nat →
    (Z.to_nat (total_sectors - i) < fuel)%nat →
    ∃ first_level' st',
      wsd_first fuel total_sectors i ib_index position first_level st
      = Some (first_level', st') ∧
      same_registry st st'.
Proof.
  unfold MAX_BLOCK_NUMBER. intros Htot.
  induction fuel as [|fuel IH];
    intros i ib_index position fl st Hib Hi Hinv Hup Hlen Hfuel; [lia|].
  cbn [wsd_first].
  rewrite to_uint32_small by lia.
  destruct (Z.ltb_spec i total_sectors) as [Hlt|Hge].
  2:{ exists fl, st. done. }
  destruct Hinv as [Hinv|]; [|lia].
  destruct (Z.ltb_spec ib_index 128) as [Hlt'|Hge']; [|lia].
  destruct (allocate_position_run position st) as (p1 & st1 & Ha & Hr1).
  unfold mbind at 1, M_bind at 1, bind at 1. rewrite Ha.
  rewrite (to_int32_small (i + 1)) by lia.
  destruct (wsd_second_run total_sectors (i + 1) ltac:(lia) ltac:(lia)
              129 0 p1 zero_indirect_block st1)
    as (p2 & sl & st2 & Hsec & Hr2); [lia|lia|].
  unfold mbind at 1, M_bind at 1, bind at 1. rewrite Hsec.
  set (k := Z.max 0 (Z.min 128 (total_sectors - (i + 1)))) in *.
  destruct (lookup_lt_is_Some_2 (<[Z.to_nat ib_index := p1]> fl)
              (Z.to_nat ib_index)) as [s Hs].
  { rewrite length_insert. lia. }
  unfold mbind at 1, M_bind at 1, bind at 1, lift at 1. rewrite Hs.
  destruct (block_write_run s (encode_indirect_block sl) st2)
    as (st3 & Hw & Hr3 & _).
  unfold mbind at 1, M_bind at 1, bind at 1. rewrite Hw.
  rewrite !to_int32_small by lia.
  destruct (IH (i + 1 + k) (ib_index + 1) p2 (<[Z.to_nat ib_index := p1]> fl)
              st3) as (fl' & st4 & Hrun & Hr4); try lia.
  { by rewrite length_insert. }
  exists fl', st4. split; [done|].
  eauto using same_registry_trans.
Qed.

Lemma write_sectors_to_disk_run total_sectors d st :
  0 ≤ total_sectors ≤ MAX_BLOCK_NUMBER →
  ∃ d' st',
    write_sectors_to_disk total_sectors d st = Some (d', st') ∧
    same_header d d' ∧ same_registry st st'.
Proof.
  intros Htot. pose proof Htot as Htot'. unfold MAX_BLOCK_NUMBER in Htot'.
  unfold write_sectors_to_disk.
  destruct (wsd_direct_run total_sectors ltac:(lia) 125 0 0 d st)
    as (p1 & d1 & st1 & Hdir & Hh1 & Hr1); [lia|lia|].
  unfold mbind at 1, M_bind at 1, bind at 1. rewrite Hdir.
  set (i := Z.max 0 (Z.min total_sectors 124)) in *.
  rewrite to_uint32_small by lia.
  destruct (Z.ltb_spec i total_sectors) as [Hlt|Hge].
  2:{ exists d1, st1. done. }
  destruct (allocate_position_run p1 st1) as (p2 & st2 & Ha & Hr2).
  unfold mbind at 1, M_bind at 1, bind at 1. rewrite Ha.
  rewrite to_int32_small by lia.
  destruct (wsd_first_run total_sectors Htot (S (Z.to_nat total_sectors))
              (i + 1) 0 p2 zero_indirect_block st2)
    as (fl & st3 & Hfirst & Hr3); try lia.
  { done. }
  unfold mbind at 1, M_bind at 1, bind at 1. rewrite Hfirst.
  destruct (block_write_run (InodeDisk.ib (set_ib p2 d1))
              (encode_indirect_block fl) st3) as (st4 & Hw & Hr4 & _).
  unfold mbind at 1, M_bind at 1, bind at 1. rewrite Hw.
  exists (set_ib p2 d1), st4. split; [done|]. split.
  - destruct Hh1 as (?&?&?&?). done.
  - eauto using same_registry_trans.
Qed.

Lemma bytes_to_sectors_eq size :
  0 ≤ size < 2 ^ 31 - 512 → bytes_to_sectors size = (size + 511) / 512.
Proof.
  intros Hs. unfold bytes_to_sectors, DIV_ROUND_UP, BLOCK_SECTOR_SIZE.
  rewrite (to_int32_small (size + 512)) by lia.
  rewrite to_int32_small by lia.
  rewrite Z.quot_div_nonneg by lia.
  replace (size + 512 - 1) with (size + 511) by lia.
  apply to_uint32_small. split.
  - apply Z.div_pos; lia.
  - apply Z.div_lt_upper_bound; lia.
Qed.

Lemma compute_total_sectors_eq sectors :
  124 < sectors < 2 ^ 30 →
  compute_total_sectors sectors = sectors + 1 + (sectors - 124) / 128.
Proof.
  intros Hs. unfold compute_total_sectors, DIRECT_BLOCK.
  destruct (Z.leb_spec sectors 124); [lia|].
  assert (0 ≤ (sectors - 124) / 128 ≤ sectors).
  { split; [apply Z.div_pos; lia|].
    apply Z.div_le_upper_bound; lia. }
  rewrite (to_uint32_small (sectors - 124)) by lia.
  rewrite (to_int32_small ((sectors - 124) / 128)) by lia.
  rewrite (to_int32_small (sectors - 124)) by lia.
  rewrite to_int32_small by lia.
  rewrite to_uint32_small by lia. lia.
Qed.

Lemma compute_total_sectors_max length :
  0 ≤ length ≤ MAX_DATA_SECTORS * 512 →
  0 ≤ compute_total_sectors (bytes_to_sectors length) ≤ MAX_BLOCK_NUMBER.
Proof.
  unfold MAX_DATA_SECTORS, MAX_BLOCK_NUMBER. intros Hl.
  rewrite bytes_to_sectors_eq by lia.
  assert (0 ≤ (length + 511) / 512 ≤ 16508).
  { split; [apply Z.div_pos; lia|].
    apply Z.lt_succ_r, Z.div_lt_upper_bound; lia. }
  destruct (Z.le_gt_cases ((length + 511) / 512) 124).
  - unfold compute_total_sectors, DIRECT_BLOCK.
    destruct (Z.leb_spec ((length + 511) / 512) 124); lia.
  - rewrite compute_total_sectors_eq by lia.
    assert (((length + 511) / 512 - 124) / 128 ≤ 128).
    { apply Z.lt_succ_r, Z.div_lt_upper_bound; lia. }
    assert (0 ≤ ((length + 511) / 512 - 124) / 128).
    { apply Z.div_pos; lia. }
    lia.
Qed.

Lemma length_encode_words ws :
  length (encode_words ws) = (4 * length ws)%nat.
Proof.
  unfold encode_words. induction ws as [|w ws IH]; [done|].
  cbn [map concat]. rewrite length_app, IH. cbn [encode_le32 length]. lia.
Qed.

Lemma length_encode_inode_disk d :
  length (InodeDisk.sectors d) = 124%nat →
  length (InodeDisk.padding d) = 3%nat →
  length (encode_inode_disk d) = 512%nat.
Proof.
  intros Hs Hp. unfold encode_inode_disk.
  rewrite !length_app, length_encode_words, Hs, Hp. reflexivity.
Qed.

(** The length field sits in the 126th word of the sector. *)
Lemma word_at_length d :
  length (InodeDisk.sectors d) = 124%nat →
  length (InodeDisk.padding d) = 3%nat →
  word_at (encode_inode_disk d) 126 = to_uint32 (InodeDisk.length d).
Proof.
  intros Hs Hp. unfold word_at, encode_inode_disk.
  rewrite !app_assoc.
  rewrite <- (app_assoc _ (encode_le32 (InodeDisk.length d))).
  rewrite drop_app_length'.
  - rewrite take_app_length' by done. apply decode_encode_le32.
  - rewrite !length_app, length_encode_words, Hs, Hp. reflexivity.
Qed.

Lemma sector_contents_written st sector d :
  length (InodeDisk.sectors d) = 124%nat →
  length (InodeDisk.padding d) = 3%nat →
  fs_device st !! sector = Some (take 512 (encode_inode_disk d)) →
  sector_contents st sector = encode_inode_disk d.
Proof.
  intros Hs Hp Hdev. unfold sector_contents. rewrite Hdev. simpl.
  pose proof (length_encode_inode_disk d Hs Hp) as Hlen.
  rewrite (take_ge (encode_inode_disk d)) by lia.
  rewrite <- Hlen. apply resize_all.
Qed.

(** A creation that fits: the inode written at [sector] carries the
    requested length, and the open inodes are not touched. *)
Lemma inode_create_run st sector length :
  0 ≤ length ≤ MAX_DATA_SECTORS * 512 →
  compute_total_sectors (bytes_to_sectors length) + 1
  ≤ count_free (free_map st) →
  ∃ st1,
    inode_create sector length true st = Some (true, st1) ∧
    same_registry st st1 ∧
    InodeDisk.length (decode_inode_disk (sector_contents st1 sector)) = length.
Proof.
  intros Hl Hfree. unfold inode_create.
  pose proof (compute_total_sectors_max length Hl) as Htot.
  set (total_sectors := compute_total_sectors (bytes_to_sectors length)) in *.
  destruct (Z.ltb_spec length 0); [lia|].
  destruct (Z.ltb_spec MAX_BLOCK_NUMBER total_sectors); [lia|].
  unfold mbind at 1, M_bind at 1, bind at 1, free_map_unused, gets.
  rewrite to_uint32_small by (unfold MAX_BLOCK_NUMBER in *; lia).
  destruct (Z.leb_spec (total_sectors + 1) (count_free (free_map st))); [|lia].
  set (d := set_magic INODE_MAGIC (set_length length zero_inode_disk)).
  destruct (write_sectors_to_disk_run total_sectors d st Htot)
    as (d' & st' & Hw & (Hlen & _ & Hpad & Hsec) & Hreg).
  unfold mbind at 1, M_bind at 1, bind at 1. rewrite Hw.
  eexists. split; [reflexivity|]. split; [done|].
  rewrite (sector_contents_written _ sector d').
  - unfold decode_inode_disk. cbn [InodeDisk.length].
    rewrite word_at_length by (rewrite ?Hsec, ?Hpad; done).
    rewrite Hlen. cbn.
    unfold to_int32, to_uint32, MAX_DATA_SECTORS in *.
    rewrite (Z.mod_small length) by lia.
    rewrite Z.mod_small by lia. lia.
  - by rewrite Hsec.
  - by rewrite Hpad.
  - cbn. apply lookup_insert_eq.
Qed.

(** C9: a creation of [length] bytes, with [length] from 0 to the largest
    size the tree addresses, followed by [inode_open] of the same sector
    gives an inode whose [inode_length] is [length]; and a creation of
    length 0 allocates nothing and writes one sector, the inode, with
    length 0 and the magic number. *)
Theorem create_then_open_length (st : fs) (sector length : Z) :
  registry_ok st → not_open st sector →
  0 ≤ length ≤ MAX_DATA_SECTORS * 512 →
  compute_total_sectors (bytes_to_sectors length) + 1
  ≤ count_free (free_map st) →
  (∃ st1 h st2,
     inode_create sector length true st = Some (true, st1) ∧
     inode_open sector true st1 = Some (h, st2) ∧
     inode_length h st2 = Some (length, st2)) ∧
  (length = 0 →
   inode_create sector length true st
   = Some (true,
           set_fs_device
             (<[sector := encode_inode_disk
                            (set_magic INODE_MAGIC
                               (set_length 0 zero_inode_disk))]>
                (fs_device st)) st)).
Proof.
  intros Hok Hno Hl Hfree. split.
  - destruct (inode_create_run st sector length Hl Hfree)
      as (st1 & Hc & [Hin Hop] & Hlen).
    assert (Hf : find_open (open_inodes st1) sector st1 = Some (None, st1)).
    { apply find_open_none.
      - intros q Hq. rewrite Hin. apply Hok. by rewrite <- Hop.
      - intros q ino Hq Hino. rewrite Hop in Hq. rewrite Hin in Hino.
        by apply (Hno q ino). }
    eexists st1, _, _. split; [done|]. split.
    + by apply inode_open_new.
    + rewrite (inode_length_eq _ _
                 (Inode.mk sector 1 false 0
                    (decode_inode_disk (sector_contents st1 sector)))).
      * cbn [Inode.data]. by rewrite Hlen.
      * cbn [inodes]. apply lookup_insert_eq.
  - intros ->. unfold inode_create. cbn [Z.ltb Z.compare].
    change (compute_total_sectors (bytes_to_sectors 0)) with 0 in *.
    cbn [Z.ltb Z.compare MAX_BLOCK_NUMBER].
    unfold mbind at 1, M_bind at 1, bind at 1, free_map_unused, gets.
    change (to_uint32 (0 + 1)) with 1.
    destruct (Z.leb_spec 1 (count_free (free_map st))); [|lia].
    reflexivity.
Qed.

(** ** Creation of files without indirect blocks *)

Lemma count_free_cons b bm :
  count_free (b :: bm) = (if b then 0 else 1) + count_free bm.
Proof.
  unfold count_free. rewrite filter_cons.
  destruct b.
  - by rewrite decide_False by discriminate.
  - rewrite decide_True by done. rewrite length_cons. lia.
Qed.

Lemma bitmap_scan_one bm : ∀ start,
  match bitmap_scan 1 bm start with
  | Some s => ∃ k, s = (start + k)%nat ∧ bm !! k = Some false
  | None => count_free bm = 0
  end.
Proof.
  induction bm as [|b bm IH]; intros start; [done|].
  cbn [bitmap_scan take replicate].
  destruct b.
  - rewrite bool_decide_eq_false_2 by discriminate.
    specialize (IH (S start)).
    destruct (bitmap_scan 1 bm (S start)) as [s|].
    + destruct IH as (k & -> & Hk). exists (S k). split; [lia|done].
    + by rewrite count_free_cons.
  - rewrite bool_decide_eq_true_2 by done.
    exists 0%nat. split; [lia|done].
Qed.

Lemma count_free_insert bm k :
  bm !! k = Some false → count_free (<[k := true]> bm) = count_free bm - 1.
Proof.
  revert k. induction bm as [|b bm IH]; intros k Hk; [done|].
  destruct k as [|k].
  - cbn in Hk. injection Hk as ->.
    change (<[0%nat := true]> (false :: bm)) with (true :: bm).
    rewrite !count_free_cons. lia.
  - cbn [lookup list_lookup] in Hk. specialize (IH k Hk).
    change (<[S k := true]> (b :: bm)) with (b :: <[k := true]> bm).
    rewrite !count_free_cons, IH. lia.
Qed.

Lemma count_free_nonneg bm : 0 ≤ count_free bm.
Proof. unfold count_free. lia. Qed.

(** With a free sector left, an allocation yields a sector that was free
    and marks it. *)
Lemma allocate_position_free position st :
  0 < count_free (free_map st) →
  ∃ k : nat,
    free_map st !! k = Some false ∧
    allocate_position position st
    = Some (Z.of_nat k, set_free_map (<[k := true]> (free_map st)) st).
Proof.
  intros Hfree. unfold allocate_position, free_map_allocate. munfold.
  pose proof (bitmap_scan_one (free_map st) 0) as Hscan.
  change (Z.to_nat 1) with 1%nat.
  destruct (bitmap_scan 1 (free_map st) 0) as [s|]; [|lia].
  destruct Hscan as (k & -> & Hk). exists k. done.
Qed.

Lemma allocated_step d i bm k :
  length (InodeDisk.sectors d) = 124%nat → (i < 124)%nat →
  allocated d i bm → bm !! k = Some false →
  allocated (set_sector (Z.of_nat i) (Z.of_nat k) d) (S i) (<[k := true]> bm).
Proof.
  intros Hlen Hi [Hnd Hused] Hk. unfold allocated, set_sector.
  cbn [InodeDisk.sectors]. rewrite Nat2Z.id.
  assert (Htake : take (S i) (<[i := Z.of_nat k]> (InodeDisk.sectors d))
                  = take i (InodeDisk.sectors d) ++ [Z.of_nat k]).
  { erewrite take_S_r by (apply list_lookup_insert_eq; lia).
    by rewrite take_insert_ge by lia. }
  rewrite Htake. split.
  - apply NoDup_app. split; [done|]. split; [|apply NoDup_singleton].
    intros s Hs Hin. apply list_elem_of_singleton in Hin as ->.
    destruct (Hused _ Hs) as (k' & Heq & Hk').
    apply Nat2Z.inj in Heq as <-. congruence.
  - intros s Hs. apply elem_of_app in Hs as [Hs|Hs].
    + destruct (Hused _ Hs) as (k' & -> & Hk'). exists k'. split; [done|].
      destruct (decide (k = k')) as [<-|Hne]; [congruence|].
      by rewrite list_lookup_insert_ne.
    + apply list_elem_of_singleton in Hs as ->. exists k. split; [done|].
      apply list_lookup_insert_eq. by eapply lookup_lt_Some.
Qed.

(** The loop over the direct slots with enough free sectors: every slot
    gets a sector of its own. *)
Lemma wsd_direct_alloc total_sectors :
  0 ≤ total_sectors ≤ 124 →
  ∀ fuel i position d st,
    0 ≤ i ≤ total_sectors → 125 ≤ Z.of_nat fuel + i →
    total_sectors - i ≤ count_free (free_map st) →
    length (InodeDisk.sectors d) = 124%nat →
    allocated d (Z.to_nat i) (free_map st) →
    ∃ position' d' st',
      wsd_direct fuel total_sectors i position d st
      = Some ((total_sectors, position', d'), st') ∧
      same_header d d' ∧ same_registry st st' ∧
      fs_device st' = fs_device st ∧
      length (free_map st') = length (free_map st) ∧
      allocated d' (Z.to_nat total_sectors) (free_map st').
Proof.
  intros Htot.
  induction fuel as [|fuel IH]; intros i position d st Hi Hfuel Hfree Hlen Hall;
    [lia|].
  cbn [wsd_direct]. unfold DIRECT_BLOCK.
  rewrite to_uint32_small by lia.
  destruct (Z.ltb_spec i total_sectors) as [Hlt|Hge].
  2:{ cbn [andb]. exists position, d, st. munfold.
      replace total_sectors with i by lia. done. }
  destruct (Z.ltb_spec i 124) as [_|]; [|lia]. cbn [andb].
  destruct (allocate_position_free position st) as (k & Hk & Ha); [lia|].
  unfold mbind, M_bind, bind. rewrite Ha.
  rewrite to_int32_small by lia.
  destruct (IH (i + 1) (Z.of_nat k) (set_sector i (Z.of_nat k) d)
              (set_free_map (<[k := true]> (free_map st)) st))
    as (p2 & d2 & st2 & Hrun & Hh & Hr & Hdev & Hfl & Hall2).
  - lia.
  - lia.
  - cbn [free_map set_free_map]. rewrite count_free_insert by done. lia.
  - unfold set_sector. cbn [InodeDisk.sectors]. by rewrite length_insert.
  - cbn [free_map set_free_map].
    replace (Z.to_nat (i + 1)) with (S (Z.to_nat i)) by lia.
    rewrite <- (Z2Nat.id i) at 1 by lia.
    apply allocated_step; [done|lia|done|done].
  - exists p2, d2, st2. split; [done|]. split.
    { eapply same_header_trans; [apply same_header_set_sector|done]. }
    split; [by destruct Hr|]. split; [done|]. split; [|done].
    rewrite Hfl. cbn [free_map set_free_map]. by rewrite length_insert.
Qed.

Lemma write_sectors_to_disk_direct total_sectors d st :
  0 ≤ total_sectors ≤ 124 →
  total_sectors ≤ count_free (free_map st) →
  length (InodeDisk.sectors d) = 124%nat →
  ∃ d' st',
    write_sectors_to_disk total_sectors d st = Some (d', st') ∧
    same_header d d' ∧ same_registry st st' ∧
    fs_device st' = fs_device st ∧
    length (free_map st') = length (free_map st) ∧
    allocated d' (Z.to_nat total_sectors) (free_map st').
Proof.
  intros Htot Hfree Hlen. unfold write_sectors_to_disk.
  destruct (wsd_direct_alloc total_sectors Htot 125 0 0 d st)
    as (p1 & d1 & st1 & Hrun & Hh & Hr & Hdev & Hfl & Hall); try lia.
  { split; [apply NoDup_nil_2|]. intros s Hs. by apply elem_of_nil in Hs. }
  unfold mbind at 1, M_bind at 1, bind at 1. rewrite Hrun.
  rewrite to_uint32_small by lia. rewrite Z.ltb_irrefl.
  exists d1, st1. done.
Qed.

Lemma word_at_encode_words ws : ∀ rest i w,
  ws !! i = Some w → word_at (encode_words ws ++ rest) i = to_uint32 w.
Proof.
  induction ws as [|w0 ws IH]; intros rest i w Hi; [done|].
  destruct i as [|i].
  - injection Hi as ->. unfold word_at. cbn. apply decode_encode_le32.
  - cbn [lookup list_lookup] in Hi. rewrite <- (IH rest i w Hi).
    unfold word_at. replace (4 * S i)%nat with (4 + 4 * i)%nat by lia.
    reflexivity.
Qed.

Lemma decode_encode_sectors d :
  length (InodeDisk.sectors d) = 124%nat →
  InodeDisk.sectors (decode_inode_disk (encode_inode_disk d))
  = to_uint32 <$> InodeDisk.sectors d.
Proof.
  intros Hlen. unfold decode_inode_disk. cbn [InodeDisk.sectors].
  apply list_eq. intros i.
  rewrite !list_lookup_fmap.
  destruct (decide (i < 124)%nat) as [Hi|Hi].
  - rewrite lookup_seq_lt by done. cbn [fmap option_fmap option_map].
    destruct (lookup_lt_is_Some_2 (InodeDisk.sectors d) i) as [w Hw]; [lia|].
    rewrite Hw. cbn [fmap option_fmap option_map]. f_equal.
    unfold encode_inode_disk. by apply word_at_encode_words.
  - rewrite lookup_seq_ge by lia.
    rewrite (lookup_ge_None_2 (InodeDisk.sectors d)) by lia. done.
Qed.

(** Sectors handed out by a free map of at most [2 ^ 32] sectors survive
    the trip through the on-disk inode. *)
Lemma decode_encode_allocated d n bm :
  length (InodeDisk.sectors d) = 124%nat →
  Z.of_nat (length bm) ≤ 2 ^ 32 →
  allocated d n bm →
  take n (InodeDisk.sectors (decode_inode_disk (encode_inode_disk d)))
  = take n (InodeDisk.sectors d).
Proof.
  intros Hlen Hbm [_ Hused]. rewrite decode_encode_sectors by done.
  rewrite <- fmap_take.
  rewrite <- (list_fmap_id (take n (InodeDisk.sectors d))) at 2.
  apply list_fmap_ext. intros i s Hs.
  destruct (Hused s) as (k & -> & Hk).
  { by eapply list_elem_of_lookup_2. }
  apply lookup_lt_Some in Hk. unfold id. apply to_uint32_small. lia.
Qed.

(** The creation of a file without indirect blocks: its data sectors are
    distinct. *)
Lemma inode_create_direct st sector length :
  0 ≤ length ≤ DIRECT_BLOCK * 512 →
  Z.of_nat (List.length (free_map st)) ≤ 2 ^ 32 →
  compute_total_sectors (bytes_to_sectors length) + 1
  ≤ count_free (free_map st) →
  ∃ st1,
    inode_create sector length true st = Some (true, st1) ∧
    same_registry st st1 ∧
    direct_ok (Inode.mk sector 1 false 0
                 (decode_inode_disk (sector_contents st1 sector))) ∧
    InodeDisk.length (decode_inode_disk (sector_contents st1 sector))
    = length.
Proof.
  unfold DIRECT_BLOCK. intros Hl Hbm Hfree. unfold inode_create.
  assert (Hsec : bytes_to_sectors length = (length + 511) / 512).
  { apply bytes_to_sectors_eq. lia. }
  assert (Hn : 0 ≤ (length + 511) / 512 ≤ 124).
  { split; [apply Z.div_pos; lia|].
    apply Z.lt_succ_r, Z.div_lt_upper_bound; lia. }
  assert (Htot : compute_total_sectors (bytes_to_sectors length)
                 = (length + 511) / 512).
  { rewrite Hsec. unfold compute_total_sectors, DIRECT_BLOCK.
    destruct (Z.leb_spec ((length + 511) / 512) 124); [done|lia]. }
  rewrite Htot in *.
  destruct (Z.ltb_spec length 0); [lia|].
  destruct (Z.ltb_spec MAX_BLOCK_NUMBER ((length + 511) / 512));
    [unfold MAX_BLOCK_NUMBER in *; lia|].
  unfold mbind at 1, M_bind at 1, bind at 1, free_map_unused, gets.
  rewrite to_uint32_small by lia.
  destruct (Z.leb_spec ((length + 511) / 512 + 1) (count_free (free_map st)));
    [|lia].
  set (d := set_magic INODE_MAGIC (set_length length zero_inode_disk)).
  destruct (write_sectors_to_disk_direct ((length + 511) / 512) d st)
    as (d' & st' & Hw & (Hlen & _ & Hpad & Hsl) & Hreg & Hdev & Hfl & Hall);
    [lia|lia|done|].
  unfold mbind at 1, M_bind at 1, bind at 1. rewrite Hw.
  eexists. split; [reflexivity|]. split; [done|].
  assert (Hs : List.length (InodeDisk.sectors d') = 124%nat)
    by (by rewrite Hsl).
  assert (Hp : List.length (InodeDisk.padding d') = 3%nat)
    by (by rewrite Hpad).
  rewrite (sector_contents_written _ sector d' Hs Hp)
    by (cbn; apply lookup_insert_eq).
  assert (Hdl : InodeDisk.length (decode_inode_disk (encode_inode_disk d'))
                = length).
  { unfold decode_inode_disk. cbn [InodeDisk.length].
    rewrite word_at_length by done. rewrite Hlen. cbn.
    unfold to_int32, to_uint32.
    rewrite (Z.mod_small length) by lia.
    rewrite Z.mod_small by lia. lia. }
  split; [|done].
  unfold direct_ok, inode_ok. cbn [Inode.data]. rewrite Hdl.
  split; [|split].
  - split.
    + unfold decode_inode_disk. cbn [InodeDisk.sectors].
      by rewrite length_map, length_seq.
    + unfold MAX_DATA_SECTORS. lia.
  - unfold DIRECT_BLOCK. lia.
  - rewrite (decode_encode_allocated d' _ (free_map st')); [|done|lia|done].
    by destruct Hall.
Qed.

(** For every length without indirect blocks, on every device with the
    free sectors for it, a file created at that length reads back the
    bytes written over its whole length. *)
Lemma direct_files_round_trip st sector length pattern :
  registry_ok st → not_open st sector →
  0 ≤ length ≤ DIRECT_BLOCK * 512 →
  Z.of_nat (List.length (free_map st)) ≤ 2 ^ 32 →
  compute_total_sectors (bytes_to_sectors length) + 1
  ≤ count_free (free_map st) →
  ∃ buffer st',
    round_trip sector length pattern st
    = Some ((true, length, length, buffer), st') ∧
    ∀ j, 0 ≤ j < length → buffer j = pattern j.
Proof.
  intros Hok Hno Hl Hbm Hfree.
  destruct (inode_create_direct st sector length Hl Hbm Hfree)
    as (st1 & Hc & [Hin Hop] & Hd & Hlen).
  assert (Hf : find_open (open_inodes st1) sector st1 = Some (None, st1)).
  { apply find_open_none.
    - intros q Hq. rewrite Hin. apply Hok. by rewrite <- Hop.
    - intros q ino Hq Hino. rewrite Hop in Hq. rewrite Hin in Hino.
      by apply (Hno q ino). }
  pose proof (inode_open_new st1 sector Hf) as Ho. cbv zeta in Ho.
  set (p := fresh (dom (inodes st1))) in *.
  set (ino := Inode.mk sector 1 false 0
                (decode_inode_disk (sector_contents st1 sector))) in *.
  set (st2 := mk_fs (fs_device st1) (free_map st1)
                (<[p := ino]> (inodes st1)) (p :: open_inodes st1)) in *.
  destruct (direct_round_trip p ino Hd st2 pattern zero_buffer)
    as (st3 & buffer & Hw & Hr & Hsame).
  { cbn [inodes st2]. apply lookup_insert_eq. }
  { done. }
  cbn [Inode.data ino] in Hw, Hr, Hsame. rewrite Hlen in Hw, Hr, Hsame.
  exists buffer, st3. split; [|done].
  unfold round_trip.
  unfold mbind at 1, M_bind at 1, bind at 1. rewrite Hc.
  unfold mbind at 1, M_bind at 1, bind at 1. rewrite Ho.
  unfold mbind at 1, M_bind at 1, bind at 1. rewrite Hw.
  unfold mbind at 1, M_bind at 1, bind at 1. rewrite Hr.
  reflexivity.
Qed.

(** ** Where the code departs from the specification *)

(** [compute_total_sectors] counts the second-level blocks by a quotient
    rounded down: it is one sector short of the specification whenever the
    indirect data sectors do not fill their last group of 128. *)
Lemma compute_total_sectors_short sectors :
  124 < sectors < 2 ^ 30 →
  spec_total_sectors sectors
  = compute_total_sectors sectors
    + (if (sectors - 124) mod 128 =? 0 then 0 else 1).
Proof.
  intros Hs. rewrite compute_total_sectors_eq by done.
  unfold spec_total_sectors.
  destruct (Z.leb_spec sectors 124); [lia|].
  destruct (Z.eqb_spec ((sectors - 124) mod 128) 0);
    Z.to_euclidean_division_equations; lia.
Qed.

(** C1: for a length of 70000 bytes, that is 137 data sectors,
    [compute_total_sectors] yields 138 where the sectors needed are 139,
    and the creation takes 138 sectors from the free map. *)
Theorem compute_total_sectors_70000 :
  bytes_to_sectors 70000 = 137 ∧
  compute_total_sectors (bytes_to_sectors 70000) = 138 ∧
  spec_total_sectors 137 = 139 ∧
  count_free (free_map example_fs) = 397 ∧
  count_free (free_map (state_after (inode_create 10 70000 true) example_fs))
  = 397 - 138.
Proof. vm_compute. repeat split; reflexivity. Qed.

Lemma inode_remove_keeps_free_map st p ino :
  inodes st !! p = Some ino →
  ∃ st', inode_remove (Some p) st = Some (tt, st') ∧
         free_map st' = free_map st ∧ fs_device st' = fs_device st.
Proof.
  intros Hp. unfold inode_remove, deref, store. munfold. rewrite Hp.
  eexists. split; [reflexivity|]. done.
Qed.

Lemma inode_close_keeps_free_map st p ino :
  inodes st !! p = Some ino →
  1 < Inode.open_cnt ino < 2 ^ 31 →
  ∃ st', inode_close (Some p) st = Some (tt, st') ∧
         free_map st' = free_map st ∧ fs_device st' = fs_device st.
Proof.
  intros Hp Hcnt. unfold inode_close, deref, store. munfold. rewrite Hp.
  rewrite to_int32_small by lia.
  destruct (Z.eqb_spec (Inode.open_cnt ino - 1) 0); [lia|].
  eexists. split; [reflexivity|]. done.
Qed.

(** C2: the last close of a removed file of 600 bytes, which occupies two
    data sectors and its inode sector, gives back two sectors, the second
    data sector staying in use. *)
Theorem inode_close_leaks_sectors :
  occupied_sectors 600 = 3 ∧
  fst <$> remove_scenario 600 example_fs = Some (397, 397 - 2, 397 - 2 + 2) ∧
  free_map (state_after (remove_scenario 600) example_fs) !! 3%nat
  = Some true.
Proof. vm_compute. repeat split; reflexivity. Qed.

(** Small files read back what was written: one sector, and two sectors
    and a half. *)
Lemma round_trip_examples :
  reads_back 512 sector_pattern
    <$> (fst <$> round_trip 150 512 sector_pattern blank_fs) = Some true ∧
  reads_back 1280 sector_pattern
    <$> (fst <$> round_trip 150 1280 sector_pattern blank_fs) = Some true.
Proof. split; vm_compute; reflexivity. Qed.

(** C5: a file of 125 sectors is created and opened, but its 125th
    sector cannot be reached: a write or a read at offset 124 * 512 has
    [byte_to_sector] store the index sectors through the pointers that are
    never set, so the behaviour of the round trip over the whole file is
    undefined; so is that of a file of 124 + 128 sectors. *)
Theorem round_trip_125_sectors_undefined :
  let st := example_open (125 * 512) in
  (inode_create 10 (125 * 512) true;; inode_open 10 true) example_fs
  = Some (Some 0%nat, st) ∧
  inode_length (Some 0%nat) st = Some (125 * 512, st) ∧
  inode_write_at (Some 0%nat) sector_pattern 512 (124 * 512) true st = None ∧
  inode_read_at (Some 0%nat) zero_buffer 512 (124 * 512) true st = None ∧
  round_trip 10 (125 * 512) sector_pattern example_fs = None ∧
  round_trip 10 (252 * 512) sector_pattern example_fs = None.
Proof.
  intros st. split; [vm_compute; reflexivity|].
  split; [vm_compute; reflexivity|].
  split; [vm_compute; reflexivity|].
  split; [vm_compute; reflexivity|].
  split; [vm_compute; reflexivity|].
  split; vm_compute; reflexivity.
Qed.

(** C7: on the file of 70000 bytes (137 sectors) a read within the first
    124 sectors returns the count asked for, but a read that reaches
    offset 124 * 512, where 512 bytes of the file lie below its length and
    are to be returned, has [byte_to_sector] store the index sectors
    through the pointers that are never set: the behaviour of
    [inode_read_at] is undefined there, also when the read starts in the
    direct sectors and runs on. *)
Theorem inode_read_at_indirect_undefined :
  let st := example_open 70000 in
  inode_length (Some 0%nat) st = Some (70000, st) ∧
  snd <$> (fst <$> inode_read_at (Some 0%nat) zero_buffer 1000 100 true st)
  = Some 1000 ∧
  Z.min 512 (Z.max 0 (70000 - 124 * 512)) = 512 ∧
  inode_read_at (Some 0%nat) zero_buffer 512 (124 * 512) true st = None ∧
  inode_read_at (Some 0%nat) zero_buffer 1024 (123 * 512) true st = None.
Proof.
  intros st. split; [vm_compute; reflexivity|].
  split; [vm_compute; reflexivity|].
  split; [reflexivity|].
  split; vm_compute; reflexivity.
Qed.

(** ** Witnesses *)

(** The inode of [example_open 600]: two data sectors, no indirect block. *)
Lemma example_open_lookup :
  inodes (example_open 600) !! 0%nat = Some (inode_at (example_open 600) 0).
Proof. vm_compute. reflexivity. Qed.

Lemma example_open_direct_ok : direct_ok (inode_at (example_open 600) 0).
Proof.
  split; [|split].
  - split; [vm_compute; reflexivity|]. vm_compute. split; discriminate.
  - vm_compute. discriminate.
  - assert (Ht : take (Z.to_nat
                         ((InodeDisk.length
                             (Inode.data (inode_at (example_open 600) 0))
                           + 511) / 512))
                   (InodeDisk.sectors
                      (Inode.data (inode_at (example_open 600) 0)))
                 = [2; 3]) by (vm_compute; reflexivity).
    rewrite Ht. apply NoDup_cons. split; [|apply NoDup_singleton].
    intros H. inversion H as [|? ? ? H']; subst. inversion H'.
Qed.

Lemma inode_create_fails_cleanly_witness :
  inode_create 10 9000000 true example_fs = Some (false, example_fs) ∧
  inode_create 10 600 true (set_free_map [true; true; false; false] example_fs)
  = Some (false, set_free_map [true; true; false; false] example_fs).
Proof.
  split.
  - apply inode_create_fails_cleanly; [lia|].
    left. vm_compute. reflexivity.
  - apply inode_create_fails_cleanly; [lia|].
    right. vm_compute. reflexivity.
Defined.

Lemma deny_write_blocks_writes_witness :
  let st := example_open 600 in
  let st_d := state_after (inode_deny_write (Some 0%nat)) st in
  inode_write_at (Some 0%nat) sector_pattern 2 0 true st_d = Some (0, st_d) ∧
  ∃ st1,
    repeat_M 1 (inode_deny_write (Some 0%nat)) st = Some (tt, st1) ∧
    repeat_M 1 (inode_allow_write (Some 0%nat)) st1 = Some (tt, st) ∧
    ∃ st',
      inode_write_at (Some 0%nat) sector_pattern 50 500 true st
      = Some (50, st') ∧
      file_byte st' (Some 0%nat) 520 = Some (sector_pattern 20).
Proof.
  intros st st_d. split.
  - assert (Hp : inodes st_d !! 0%nat = Some (inode_at st_d 0))
      by (vm_compute; reflexivity).
    destruct (deny_write_blocks_writes st_d 0 (inode_at st_d 0) Hp)
      as [H _].
    apply H. vm_compute. reflexivity.
  - destruct (deny_write_blocks_writes st 0 (inode_at st 0)
                example_open_lookup) as [_ H].
    destruct (H ltac:(vm_compute; reflexivity) 1%nat ltac:(lia))
      as (st1 & Hd & _ & Ha & Hw).
    + vm_compute. split; [discriminate|reflexivity].
    + exists st1. split; [exact Hd|]. split; [exact Ha|].
      destruct (Hw example_open_direct_ok sector_pattern 50 500)
        as (st' & Hw' & Hb); [lia|lia|].
      exists st'. split; [exact Hw'|].
      apply (Hb 520). vm_compute. split; [discriminate|reflexivity].
Defined.

Lemma example_fs_registry_ok : registry_ok example_fs.
Proof. intros q Hq. cbn in Hq. by apply elem_of_nil in Hq. Qed.

Lemma example_fs_not_open sector : not_open example_fs sector.
Proof. intros q ino Hq. cbn in Hq. by apply elem_of_nil in Hq. Qed.

Lemma inode_open_shares_record_witness :
  (∃ p st1 st2 st3,
     inode_open 10 true example_fs = Some (Some p, st1) ∧
     inode_open 10 true st1 = Some (Some p, st2) ∧
     inode_close (Some p) st2 = Some (tt, st3) ∧
     p ∈ open_inodes st3) ∧
  (∃ p st', inode_open 10 false (example_open 600) = Some (Some p, st')).
Proof.
  split.
  - destruct (inode_open_shares_record example_fs 10 example_fs_registry_ok)
      as [_ H].
    destruct (H (example_fs_not_open 10))
      as (p & _ & H1 & H2 & H3 & H4 & _).
    eexists p, _, _, _. split; [exact H1|]. split; [exact H2|].
    split; [exact H3|exact H4].
  - assert (Hl : open_inodes (example_open 600) = [0%nat])
      by (vm_compute; reflexivity).
    assert (Hp : inodes (example_open 600) !! 0%nat
                 = Some (inode_at (example_open 600) 0))
      by (vm_compute; reflexivity).
    destruct (inode_open_shares_record (example_open 600) 10) as [H _].
    { intros q Hq. rewrite Hl in Hq.
      apply list_elem_of_singleton in Hq as ->. by rewrite Hp. }
    destruct H as (p & ino & _ & H & _).
    { exists 0%nat, (inode_at (example_open 600) 0).
      split; [rewrite Hl; by left|]. split; [exact Hp|].
      vm_compute. reflexivity. }
    eexists p, _. apply H.
Defined.

Lemma create_then_open_length_witness :
  ∃ st1 h st2,
    inode_create 10 600 true example_fs = Some (true, st1) ∧
    inode_open 10 true st1 = Some (h, st2) ∧
    inode_length h st2 = Some (600, st2).
Proof.
  destruct (create_then_open_length example_fs 10 600) as [H _].
  - exact example_fs_registry_ok.
  - exact (example_fs_not_open 10).
  - vm_compute. split; discriminate.
  - vm_compute. discriminate.
  - exact H.
Defined.

(** * Further properties *)

(** ** Sector counts *)

(** X1: for a size that is not negative (and leaves room for the rounding
    in an [int]), [bytes_to_sectors] is the least number of 512-byte
    sectors that hold [size] bytes. *)
Theorem bytes_to_sectors_rounds_up (size : Z) :
  0 ≤ size < 2 ^ 31 - 512 →
  512 * (bytes_to_sectors size - 1) < size ≤ 512 * bytes_to_sectors size.
Proof.
  intros Hs. rewrite bytes_to_sectors_eq by done.
  pose proof (Z.div_mod (size + 511) 512 ltac:(lia)).
  pose proof (Z.mod_pos_bound (size + 511) 512 ltac:(lia)). lia.
Qed.

Lemma bytes_to_sectors_rounds_up_witness :
  512 * (bytes_to_sectors 600 - 1) < 600 ≤ 512 * bytes_to_sectors 600.
Proof. apply bytes_to_sectors_rounds_up. lia. Defined.

(** X2: [compute_total_sectors] returns its argument up to 124 sectors
    and, beyond, adds one sector and one more for every full group of 128
    sectors past the 124th; it is strictly increasing. *)
Theorem compute_total_sectors_formula (sectors sectors' : Z) :
  0 ≤ sectors < 2 ^ 30 →
  compute_total_sectors sectors
  = (if sectors <=? 124 then sectors
     else sectors + 1 + (sectors - 124) / 128) ∧
  (sectors < sectors' < 2 ^ 30 →
   compute_total_sectors sectors < compute_total_sectors sectors').
Proof.
  intros Hs.
  assert (Hform : ∀ n, 0 ≤ n < 2 ^ 30 →
            compute_total_sectors n
            = if n <=? 124 then n else n + 1 + (n - 124) / 128).
  { intros n Hn. destruct (Z.leb_spec n 124).
    - unfold compute_total_sectors, DIRECT_BLOCK.
      destruct (Z.leb_spec n 124); [done|lia].
    - apply compute_total_sectors_eq. lia. }
  split; [by apply Hform|].
  intros Hlt. rewrite !Hform by lia.
  destruct (Z.leb_spec sectors 124); destruct (Z.leb_spec sectors' 124);
    try lia.
  - assert (0 ≤ (sectors' - 124) / 128) by (apply Z.div_pos; lia). lia.
  - assert ((sectors - 124) / 128 ≤ (sectors' - 124) / 128)
      by (apply Z.div_le_mono; lia).
    lia.
Qed.

Lemma compute_total_sectors_formula_witness :
  compute_total_sectors 300 = 300 + 1 + 1 ∧
  compute_total_sectors 300 < compute_total_sectors 301.
Proof.
  destruct (compute_total_sectors_formula 300 301) as [H1 H2]; [lia|].
  split; [exact H1|apply H2; lia].
Defined.

(** ** Creation *)

(** X3: [inode_create] refuses every length above 16508 sectors, the data
    sectors that 124 direct slots and 128 second-level blocks address: it
    returns false and changes nothing, whatever the free map holds. *)
Theorem inode_create_too_large
    (st : fs) (sector length : Z) (calloc_ok : bool) :
  MAX_DATA_SECTORS * 512 < length < 2 ^ 31 - 512 →
  inode_create sector length calloc_ok st = Some (false, st).
Proof.
  unfold MAX_DATA_SECTORS. intros Hl. unfold inode_create.
  destruct (Z.ltb_spec length 0); [lia|].
  destruct calloc_ok; [|reflexivity].
  rewrite bytes_to_sectors_eq by lia.
  assert (16509 ≤ (length + 511) / 512) by (apply Z.div_le_lower_bound; lia).
  assert ((length + 511) / 512 < 2 ^ 30)
    by (apply Z.div_lt_upper_bound; lia).
  rewrite compute_total_sectors_eq by lia.
  assert (128 ≤ ((length + 511) / 512 - 124) / 128)
    by (apply Z.div_le_lower_bound; lia).
  unfold MAX_BLOCK_NUMBER.
  destruct (Z.ltb_spec 16637
              ((length + 511) / 512 + 1 + ((length + 511) / 512 - 124) / 128));
    [reflexivity|lia].
Qed.

Lemma inode_create_too_large_witness :
  inode_create 10 (16509 * 512) true example_fs = Some (false, example_fs).
Proof. apply inode_create_too_large. vm_compute. done. Defined.

(** ** Memory exhaustion *)

Lemma inode_open_no_memory st sector :
  find_open (open_inodes st) sector st = Some (None, st) →
  inode_open sector false st = Some (None, st).
Proof.
  intros Hf. unfold inode_open.
  unfold mbind at 1, M_bind at 1, bind at 1, gets at 1.
  unfold mbind at 1, M_bind at 1, bind at 1. by rewrite Hf.
Qed.

(** X4: when memory is exhausted nothing changes: without memory for the
    on-disk inode [inode_create] returns false, and without memory for a
    new [struct inode], [inode_open] of a sector that is not open returns
    the null pointer. *)
Theorem memory_exhaustion_changes_nothing (st : fs) (sector length : Z) :
  (0 ≤ length → inode_create sector length false st = Some (false, st)) ∧
  (registry_ok st → not_open st sector →
   inode_open sector false st = Some (None, st)).
Proof.
  split.
  - intros Hl. unfold inode_create.
    destruct (Z.ltb_spec length 0); [lia|reflexivity].
  - intros Hok Hno. apply inode_open_no_memory.
    by apply find_open_none.
Qed.

Lemma memory_exhaustion_changes_nothing_witness :
  inode_create 10 600 false example_fs = Some (false, example_fs) ∧
  inode_open 10 false example_fs = Some (None, example_fs).
Proof.
  destruct (memory_exhaustion_changes_nothing example_fs 10 600) as [H1 H2].
  split.
  - apply H1. lia.
  - apply H2; [exact example_fs_registry_ok|exact (example_fs_not_open 10)].
Defined.

(** ** Deny and allow *)

(** X5: the assertions of [inode_deny_write] and [inode_allow_write] stop
    unbalanced calls: allowing writes on an inode whose deny count is not
    positive, and denying writes once the deny count has reached the count
    of openers, both panic. *)
Theorem unbalanced_deny_allow_panics (st : fs) (p : nat) (ino : inode) :
  inodes st !! p = Some ino →
  (Inode.deny_write_cnt ino ≤ 0 → inode_allow_write (Some p) st = None) ∧
  (0 ≤ Inode.open_cnt ino ≤ Inode.deny_write_cnt ino →
   Inode.deny_write_cnt ino < 2 ^ 31 - 1 →
   inode_deny_write (Some p) st = None).
Proof.
  intros Hp. split.
  - intros Hd. unfold inode_allow_write, deref. munfold. rewrite Hp.
    destruct (Z.ltb_spec 0 (Inode.deny_write_cnt ino)); [lia|done].
  - intros Hd Hmax. unfold inode_deny_write, deref, store. munfold.
    rewrite Hp. rewrite to_int32_small by lia.
    destruct (Z.leb_spec (Inode.deny_write_cnt ino + 1) (Inode.open_cnt ino));
      [lia|done].
Qed.

Lemma unbalanced_deny_allow_panics_witness :
  let st := example_open 600 in
  let st_d := state_after (inode_deny_write (Some 0%nat)) st in
  inode_allow_write (Some 0%nat) st = None ∧
  inode_deny_write (Some 0%nat) st_d = None.
Proof.
  intros st st_d. split.
  - assert (Hp : inodes st !! 0%nat = Some (inode_at st 0))
      by (vm_compute; reflexivity).
    destruct (unbalanced_deny_allow_panics st 0 (inode_at st 0) Hp) as [H _].
    apply H. vm_compute. discriminate.
  - assert (Hp : inodes st_d !! 0%nat = Some (inode_at st_d 0))
      by (vm_compute; reflexivity).
    destruct (unbalanced_deny_allow_panics st_d 0 (inode_at st_d 0) Hp)
      as [_ H].
    apply H; vm_compute; [split; discriminate|reflexivity].
Defined.

(** ** Opening and closing *)

Lemma set_open_cnt_same ino :
  Inode.set_open_cnt (Inode.open_cnt ino) ino = ino.
Proof. by destruct ino. Qed.

(** X6: [inode_close] on an inode that has other openers only decrements
    its count of openers; on the last opener of an inode that was not
    removed it takes the inode off the list of open inodes and frees it,
    and releases no sector. The device is not written in either case. *)
Theorem inode_close_keeps_sectors (st : fs) (p : nat) (ino : inode) :
  inodes st !! p = Some ino →
  (1 < Inode.open_cnt ino < 2 ^ 31 →
   inode_close (Some p) st
   = Some (tt, set_inodes
                 (<[p := Inode.set_open_cnt (Inode.open_cnt ino - 1) ino]>
                    (inodes st)) st)) ∧
  (Inode.open_cnt ino = 1 → Inode.removed ino = false →
   inode_close (Some p) st
   = Some (tt, mk_fs (fs_device st) (free_map st) (delete p (inodes st))
                 (filter (λ q, q ≠ p) (open_inodes st)))).
Proof.
  intros Hp. split.
  - intros Hcnt. unfold inode_close, deref, store. munfold. rewrite Hp.
    rewrite to_int32_small by lia.
    destruct (Z.eqb_spec (Inode.open_cnt ino - 1) 0); [lia|done].
  - intros Hcnt Hrem. unfold inode_close, deref, store. munfold.
    rewrite Hp, Hcnt, Hrem. change (to_int32 (1 - 1)) with 0. cbn.
    by rewrite delete_insert_eq.
Qed.

Lemma inode_close_keeps_sectors_witness :
  let st1 := example_open 600 in
  let st2 := state_after (inode_reopen (Some 0%nat)) st1 in
  (∃ st', inode_close (Some 0%nat) st1 = Some (tt, st') ∧
          free_map st' = free_map st1 ∧ open_inodes st' = []) ∧
  (∃ st', inode_close (Some 0%nat) st2 = Some (tt, st') ∧
          open_inodes st' = [0%nat]).
Proof.
  intros st1 st2. split.
  - assert (Hp : inodes st1 !! 0%nat = Some (inode_at st1 0))
      by (vm_compute; reflexivity).
    destruct (inode_close_keeps_sectors st1 0 (inode_at st1 0) Hp) as [_ H].
    eexists. split; [apply H; vm_compute; reflexivity|].
    split; vm_compute; reflexivity.
  - assert (Hp : inodes st2 !! 0%nat = Some (inode_at st2 0))
      by (vm_compute; reflexivity).
    destruct (inode_close_keeps_sectors st2 0 (inode_at st2 0) Hp) as [H _].
    eexists. split; [apply H; vm_compute; split; reflexivity|].
    vm_compute. reflexivity.
Defined.

(** X7: reopening an inode and closing it again leads back to the same
    state. *)
Theorem reopen_then_close (st : fs) (p : nat) (ino : inode) :
  inodes st !! p = Some ino →
  0 < Inode.open_cnt ino < 2 ^ 31 - 1 →
  (h ← inode_reopen (Some p); inode_close h) st = Some (tt, st).
Proof.
  intros Hp Hcnt.
  unfold inode_reopen, inode_close, deref, store. munfold. rewrite Hp.
  cbn [inodes set_inodes]. rewrite lookup_insert_eq.
  rewrite (to_int32_small (Inode.open_cnt ino + 1)) by lia.
  cbn [Inode.open_cnt Inode.set_open_cnt].
  rewrite to_int32_small by lia.
  replace (Inode.open_cnt ino + 1 - 1) with (Inode.open_cnt ino) by lia.
  destruct (Z.eqb_spec (Inode.open_cnt ino) 0); [lia|].
  cbn [inodes set_inodes Inode.sector Inode.removed Inode.deny_write_cnt
       Inode.data].
  rewrite insert_insert_eq, set_inodes_twice.
  change (Inode.set_open_cnt (Inode.open_cnt ino)
            (Inode.set_open_cnt (Inode.open_cnt ino + 1) ino))
    with (Inode.set_open_cnt (Inode.open_cnt ino) ino).
  by rewrite set_open_cnt_same, insert_id, set_inodes_same.
Qed.

Lemma reopen_then_close_witness :
  let st := example_open 600 in
  (h ← inode_reopen (Some 0%nat); inode_close h) st = Some (tt, st).
Proof.
  intros st. apply (reopen_then_close st 0 (inode_at st 0)).
  - vm_compute. reflexivity.
  - vm_compute. split; reflexivity.
Defined.

Lemma filter_ne_id (p : nat) (l : list nat) :
  p ∉ l → filter (λ q, q ≠ p) l = l.
Proof.
  induction l as [|q l IH]; intros Hp; [done|].
  apply not_elem_of_cons in Hp as [Hne Hl].
  rewrite filter_cons_True by done. by rewrite IH.
Qed.

(** X8: opening a sector that is not open and closing the handle leads
    back to the same state: the inode that [inode_open] put on the list is
    taken off and freed. *)
Theorem open_then_close (st : fs) (sector : Z) :
  registry_ok st → not_open st sector →
  (h ← inode_open sector true; inode_close h) st = Some (tt, st).
Proof.
  intros Hok Hno.
  pose proof (find_open_none st sector (open_inodes st) Hok Hno) as Hf.
  unfold mbind at 1, M_bind at 1, bind at 1.
  rewrite (inode_open_new st sector Hf).
  set (p := fresh (dom (inodes st))).
  assert (Hfresh : inodes st !! p = None) by apply not_elem_of_dom, is_fresh.
  assert (Hnotin : p ∉ open_inodes st).
  { intros Hin. destruct (Hok p Hin) as [x Hx]. congruence. }
  unfold inode_close, deref, store. munfold. cbn [inodes].
  rewrite lookup_insert_eq. cbn [Inode.open_cnt Inode.removed].
  change (to_int32 (1 - 1)) with 0.
  cbn [Z.eqb Inode.removed Inode.set_open_cnt set_inodes set_open_inodes
       inodes open_inodes fs_device free_map].
  rewrite filter_cons_False by (intros H; by apply H).
  rewrite filter_ne_id by done.
  rewrite !delete_insert_eq, delete_id by done.
  by destruct st.
Qed.

Lemma open_then_close_witness :
  (h ← inode_open 10 true; inode_close h) example_fs = Some (tt, example_fs).
Proof.
  apply open_then_close;
    [exact example_fs_registry_ok|exact (example_fs_not_open 10)].
Defined.

Lemma find_open_cases st sector : ∀ l,
  (∀ q, q ∈ l → is_Some (inodes st !! q)) →
  find_open l sector st = Some (None, st) ∨
  ∃ p ino, p ∈ l ∧ inodes st !! p = Some ino ∧ Inode.sector ino = sector ∧
           find_open l sector st = Some (Some p, st).
Proof.
  induction l as [|q l IH]; intros Hok; [by left|].
  cbn [find_open]. unfold deref. munfold.
  destruct (Hok q) as [ino Hq]; [by left|]. rewrite Hq.
  destruct (Z.eqb_spec (Inode.sector ino) sector) as [Heq|Hne].
  - right. exists q, ino. repeat split; [by left|done|done].
  - destruct IH as [Hnone|(p & ino' & Hp & Hl & Hs & Hf)].
    + intros q' Hq'. apply Hok. by right.
    + by left.
    + right. exists p, ino'. repeat split; [by right|done|done|done].
Qed.

(** X9: whenever [inode_open] returns an inode, that inode is on the list
    of open inodes and [inode_get_inumber] of it is the sector that was
    opened. *)
Theorem inode_open_inumber
    (st st' : fs) (sector : Z) (malloc_ok : bool) (p : nat) :
  registry_ok st →
  inode_open sector malloc_ok st = Some (Some p, st') →
  inode_get_inumber (Some p) st' = Some (sector, st') ∧ p ∈ open_inodes st'.
Proof.
  intros Hok Hopen.
  destruct (find_open_cases st sector (open_inodes st) Hok)
    as [Hnone|(q & ino & Hq & Hl & Hs & Hf)].
  - destruct malloc_ok.
    + rewrite (inode_open_new st sector Hnone) in Hopen.
      injection Hopen as <- <-.
      unfold inode_get_inumber, deref. munfold. cbn [inodes open_inodes].
      rewrite lookup_insert_eq. split; [done|by left].
    + rewrite (inode_open_no_memory st sector Hnone) in Hopen. done.
  - rewrite (inode_open_found st sector q ino malloc_ok Hf Hl) in Hopen.
    injection Hopen as <- <-.
    unfold inode_get_inumber, deref. munfold. cbn [inodes set_inodes].
    rewrite lookup_insert_eq. cbn. by rewrite Hs.
Qed.

Lemma inode_open_inumber_witness :
  ∃ p st', inode_open 10 true example_fs = Some (Some p, st') ∧
           inode_get_inumber (Some p) st' = Some (10, st').
Proof.
  destruct (inode_open 10 true example_fs) as [[[p|] st']|] eqn:Hopen.
  - exists p, st'. split; [done|].
    by apply (inode_open_inumber example_fs st' 10 true p
                example_fs_registry_ok).
  - exfalso. vm_compute in Hopen. discriminate.
  - exfalso. vm_compute in Hopen. discriminate.
Defined.

(** ** Sectors taken by a creation *)

Lemma allocate_position_count position st :
  0 < count_free (free_map st) →
  ∃ position' st',
    allocate_position position st = Some (position', st') ∧
    same_registry st st' ∧ fs_device st' = fs_device st ∧
    length (free_map st') = length (free_map st) ∧
    count_free (free_map st') = count_free (free_map st) - 1.
Proof.
  intros Hfree.
  destruct (allocate_position_free position st Hfree) as (k & Hk & Ha).
  eexists _, _. split; [exact Ha|]. cbn [free_map set_free_map fs_device].
  split; [done|]. split; [done|]. split; [by rewrite length_insert|].
  by apply count_free_insert.
Qed.

Lemma wsd_direct_count total_sectors :
  0 ≤ total_sectors < 2 ^ 32 →
  ∀ fuel i position d st,
    0 ≤ i ≤ 124 → 125 ≤ Z.of_nat fuel + i →
    Z.max i (Z.min total_sectors 124) - i ≤ count_free (free_map st) →
    ∃ position' d' st',
      wsd_direct fuel total_sectors i position d st
      = Some ((Z.max i (Z.min total_sectors 124), position', d'), st') ∧
      same_header d d' ∧ same_registry st st' ∧
      fs_device st' = fs_device st ∧
      length (free_map st') = length (free_map st) ∧
      count_free (free_map st')
      = count_free (free_map st) - (Z.max i (Z.min total_sectors 124) - i).
Proof.
  intros Htot.
  induction fuel as [|fuel IH]; intros i position d st Hi Hfuel Hfree; [lia|].
  cbn [wsd_direct]. unfold DIRECT_BLOCK.
  rewrite to_uint32_small by lia.
  destruct (Z.ltb_spec i total_sectors) as [Hlt|Hge];
    destruct (Z.ltb_spec i 124) as [Hlt'|Hge']; cbn [andb].
  2,3,4: exists position, d, st; munfold;
         replace (Z.max i (Z.min total_sectors 124)) with i by lia;
         rewrite Z.sub_diag, Z.sub_0_r; done.
  destruct (allocate_position_count position st)
    as (p1 & st1 & Ha & Hr1 & Hd1 & Hl1 & Hc1); [lia|].
  unfold mbind, M_bind, bind. rewrite Ha.
  rewrite to_int32_small by lia.
  replace (Z.max i (Z.min total_sectors 124))
    with (Z.max (i + 1) (Z.min total_sectors 124)) in * by lia.
  destruct (IH (i + 1) p1 (set_sector i p1 d) st1)
    as (p2 & d2 & st2 & Hrun & Hh & Hr2 & Hd2 & Hl2 & Hc2); [lia|lia|lia|].
  exists p2, d2, st2. rewrite Hrun.
  split; [done|]. split.
  { eapply same_header_trans; [apply same_header_set_sector|done]. }
  split; [by eapply same_registry_trans|].
  split; [congruence|]. split; [congruence|]. lia.
Qed.

Lemma wsd_second_count total_sectors i :
  0 ≤ total_sectors < 2 ^ 32 → 0 ≤ i < 2 ^ 30 →
  ∀ fuel k position second_level st,
    0 ≤ k ≤ 128 → 129 ≤ Z.of_nat fuel + k →
    Z.max k (Z.min 128 (total_sectors - i)) - k ≤ count_free (free_map st) →
    ∃ position' second_level' st',
      wsd_second fuel total_sectors i k position second_level st
      = Some ((Z.max k (Z.min 128 (total_sectors - i)), position',
               second_level'), st') ∧
      same_registry st st' ∧ fs_device st' = fs_device st ∧
      length (free_map st') = length (free_map st) ∧
      count_free (free_map st')
      = count_free (free_map st)
        - (Z.max k (Z.min 128 (total_sectors - i)) - k).
Proof.
  intros Htot Hi.
  induction fuel as [|fuel IH]; intros k position sl st Hk Hfuel Hfree; [lia|].
  cbn [wsd_second].
  rewrite (to_int32_small (i + k)) by lia.
  rewrite to_uint32_small by lia.
  destruct (Z.ltb_spec k 128) as [Hlt|Hge];
    destruct (Z.ltb_spec (i + k) total_sectors) as [Hlt'|Hge']; cbn [andb].
  2,3,4: exists position, sl, st; munfold;
         replace (Z.max k (Z.min 128 (total_sectors - i))) with k by lia;
         rewrite Z.sub_diag, Z.sub_0_r; done.
  destruct (allocate_position_count position st)
    as (p1 & st1 & Ha & Hr1 & Hd1 & Hl1 & Hc1); [lia|].
  unfold mbind, M_bind, bind. rewrite Ha.
  rewrite to_int32_small by lia.
  replace (Z.max k (Z.min 128 (total_sectors - i)))
    with (Z.max (k + 1) (Z.min 128 (total_sectors - i))) in * by lia.
  destruct (IH (k + 1) p1 (<[Z.to_nat k := p1]> sl) st1)
    as (p2 & sl2 & st2 & Hrun & Hr2 & Hd2 & Hl2 & Hc2); [lia|lia|lia|].
  exists p2, sl2, st2. rewrite Hrun.
  split; [done|]. split; [by eapply same_registry_trans|].
  split; [congruence|]. split; [congruence|]. lia.
Qed.

Lemma wsd_first_count total_sectors :
  0 ≤ total_sectors ≤ MAX_BLOCK_NUMBER →
  ∀ fuel i ib_index position first_level st,
    0 ≤ ib_index → 0 ≤ i ≤ total_sectors →
    i = 125 + 129 * ib_index ∨ total_sectors = i →
    length first_level = 128%nat →
    (Z.to_nat (total_sectors - i) < fuel)%nat →
    total_sectors - i ≤ count_free (free_map st) →
    ∃ first_level' st',
      wsd_first fuel total_sectors i ib_index position first_level st
      = Some (first_level', st') ∧
      same_registry st st' ∧
      length (free_map st') = length (free_map st) ∧
      count_free (free_map st')
      = count_free (free_map st) - (total_sectors - i).
Proof.
  unfold MAX_BLOCK_NUMBER. intros Htot.
  induction fuel as [|fuel IH];
    intros i ib_index position fl st Hib Hi Hinv Hlen Hfuel Hfree; [lia|].
  cbn [wsd_first].
  rewrite to_uint32_small by lia.
  destruct (Z.ltb_spec i total_sectors) as [Hlt|Hge].
  2:{ exists fl, st. replace (total_sectors - i) with 0 by lia.
      rewrite Z.sub_0_r. done. }
  destruct Hinv as [Hinv|]; [|lia].
  destruct (Z.ltb_spec ib_index 128) as [Hlt'|Hge']; [|lia].
  destruct (allocate_position_count position st)
    as (p1 & st1 & Ha & Hr1 & Hd1 & Hl1 & Hc1); [lia|].
  unfold mbind at 1, M_bind at 1, bind at 1. rewrite Ha.
  rewrite (to_int32_small (i + 1)) by lia.
  destruct (wsd_second_count total_sectors (i + 1) ltac:(lia) ltac:(lia)
              129 0 p1 zero_indirect_block st1)
    as (p2 & sl & st2 & Hsec & Hr2 & Hd2 & Hl2 & Hc2); [lia|lia|lia|].
  unfold mbind at 1, M_bind at 1, bind at 1. rewrite Hsec.
  set (k := Z.max 0 (Z.min 128 (total_sectors - (i + 1)))) in *.
  destruct (lookup_lt_is_Some_2 (<[Z.to_nat ib_index := p1]> fl)
              (Z.to_nat ib_index)) as [s Hs].
  { rewrite length_insert. lia. }
  unfold mbind at 1, M_bind at 1, bind at 1, lift at 1. rewrite Hs.
  destruct (block_write_run s (encode_indirect_block sl) st2)
    as (st3 & Hw & Hr3 & _ & Hf3).
  unfold mbind at 1, M_bind at 1, bind at 1. rewrite Hw.
  rewrite !to_int32_small by lia.
  destruct (IH (i + 1 + k) (ib_index + 1) p2 (<[Z.to_nat ib_index := p1]> fl)
              st3) as (fl' & st4 & Hrun & Hr4 & Hl4 & Hc4); try lia.
  { by rewrite length_insert. }
  { rewrite Hf3. lia. }
  exists fl', st4. split; [done|].
  split; [eauto using same_registry_trans|].
  rewrite Hf3 in Hl4, Hc4.
  split; [congruence|]. lia.
Qed.

Lemma write_sectors_to_disk_count total_sectors d st :
  0 ≤ total_sectors ≤ MAX_BLOCK_NUMBER →
  total_sectors ≤ count_free (free_map st) →
  ∃ d' st',
    write_sectors_to_disk total_sectors d st = Some (d', st') ∧
    same_header d d' ∧ same_registry st st' ∧
    length (free_map st') = length (free_map st) ∧
    count_free (free_map st') = count_free (free_map st) - total_sectors.
Proof.
  intros Htot Hfree. pose proof Htot as Htot'.
  unfold MAX_BLOCK_NUMBER in Htot'.
  unfold write_sectors_to_disk.
  destruct (wsd_direct_count total_sectors ltac:(lia) 125 0 0 d st)
    as (p1 & d1 & st1 & Hdir & Hh1 & Hr1 & Hd1 & Hl1 & Hc1); [lia|lia|lia|].
  unfold mbind at 1, M_bind at 1, bind at 1. rewrite Hdir.
  set (i := Z.max 0 (Z.min total_sectors 124)) in *.
  rewrite to_uint32_small by lia.
  destruct (Z.ltb_spec i total_sectors) as [Hlt|Hge].
  2:{ exists d1, st1. split; [done|]. split; [done|]. split; [done|].
      split; [done|]. lia. }
  destruct (allocate_position_count p1 st1)
    as (p2 & st2 & Ha & Hr2 & Hd2 & Hl2 & Hc2); [lia|].
  unfold mbind at 1, M_bind at 1, bind at 1. rewrite Ha.
  rewrite to_int32_small by lia.
  destruct (wsd_first_count total_sectors Htot (S (Z.to_nat total_sectors))
              (i + 1) 0 p2 zero_indirect_block st2)
    as (fl & st3 & Hfirst & Hr3 & Hl3 & Hc3); try lia.
  { done. }
  unfold mbind at 1, M_bind at 1, bind at 1. rewrite Hfirst.
  destruct (block_write_run (InodeDisk.ib (set_ib p2 d1))
              (encode_indirect_block fl) st3) as (st4 & Hw & Hr4 & _ & Hf4).
  unfold mbind at 1, M_bind at 1, bind at 1. rewrite Hw.
  exists (set_ib p2 d1), st4. split; [done|]. split.
  { destruct Hh1 as (?&?&?&?). done. }
  split; [eauto using same_registry_trans|].
  rewrite Hf4. split; [congruence|]. lia.
Qed.

(** X10: a creation within the addressable size, on a free map with the
    free sectors it asks for, succeeds and takes from the free map exactly
    as many sectors as [compute_total_sectors] counted; the free map keeps
    its size and the open inodes are left alone. *)
Theorem inode_create_takes_total (st : fs) (sector length : Z) :
  0 ≤ length ≤ MAX_DATA_SECTORS * 512 →
  compute_total_sectors (bytes_to_sectors length) + 1
  ≤ count_free (free_map st) →
  ∃ st',
    inode_create sector length true st = Some (true, st') ∧
    count_free (free_map st')
    = count_free (free_map st)
      - compute_total_sectors (bytes_to_sectors length) ∧
    List.length (free_map st') = List.length (free_map st) ∧
    inodes st' = inodes st ∧ open_inodes st' = open_inodes st.
Proof.
  intros Hl Hfree. unfold inode_create.
  pose proof (compute_total_sectors_max length Hl) as Htot.
  set (total_sectors := compute_total_sectors (bytes_to_sectors length)) in *.
  destruct (Z.ltb_spec length 0); [lia|].
  destruct (Z.ltb_spec MAX_BLOCK_NUMBER total_sectors); [lia|].
  unfold mbind at 1, M_bind at 1, bind at 1, free_map_unused, gets.
  rewrite to_uint32_small by (unfold MAX_BLOCK_NUMBER in *; lia).
  destruct (Z.leb_spec (total_sectors + 1) (count_free (free_map st))); [|lia].
  destruct (write_sectors_to_disk_count total_sectors
              (set_magic INODE_MAGIC (set_length length zero_inode_disk)) st)
    as (d' & st1 & Hw & _ & [Hin Hop] & Hlen & Hcount); [done|lia|].
  unfold mbind at 1, M_bind at 1, bind at 1. rewrite Hw.
  eexists. split; [reflexivity|]. cbn [free_map set_fs_device inodes open_inodes].
  done.
Qed.

Lemma inode_create_takes_total_witness :
  ∃ st',
    inode_create 10 70000 true example_fs = Some (true, st') ∧
    count_free (free_map st') = 397 - 138.
Proof.
  destruct (inode_create_takes_total example_fs 10 70000)
    as (st' & Hc & Hn & _).
  - vm_compute. split; discriminate.
  - vm_compute. discriminate.
  - exists st'. split; [exact Hc|]. rewrite Hn. vm_compute. reflexivity.
Defined.

(** ** Writes through an open inode *)

(** X11: on a file without indirect blocks, a write on an inode whose
    writes are not denied transfers the bytes that fit below the current
    length of the inode, stores them in the file and writes nowhere else:
    the other bytes of the file and every sector of the device that is not
    a data sector of the file are as before, no sector is taken from the
    free map, and the in-memory inodes, the length included, are as
    before, so the file never grows. A write that starts at or past the
    end transfers nothing. *)
Theorem inode_write_at_never_grows (st : fs) (p : nat) (ino : inode)
    (buffer : memory) (size offset : Z) :
  inodes st !! p = Some ino → direct_ok ino →
  Inode.deny_write_cnt ino = 0 →
  0 ≤ size < 2 ^ 31 → 0 ≤ offset < 2 ^ 31 →
  let len := InodeDisk.length (Inode.data ino) in
  let n := Z.min size (Z.max 0 (len - offset)) in
  ∃ st',
    inode_write_at (Some p) buffer size offset true st = Some (n, st') ∧
    inodes st' = inodes st ∧ open_inodes st' = open_inodes st ∧
    free_map st' = free_map st ∧
    inode_length (Some p) st' = Some (len, st') ∧
    (∀ s, s ∉ data_sectors ino →
          sector_contents st' s = sector_contents st s) ∧
    (∀ pos, 0 ≤ pos < len →
       file_byte st' (Some p) pos
       = if decide (offset ≤ pos < offset + n)
         then Some (buffer (pos - offset))
         else file_byte st (Some p) pos).
Proof.
  intros Hp Hok Hd Hsize Hoff len n.
  destruct (inode_write_at_lemma st p ino buffer size offset Hp Hok Hd Hsize
              Hoff) as (st' & Hw & [Hin Hop] & Hfree & Hframe & Hbytes).
  exists st'. do 4 (split; [done|]).
  split; [|done]. apply inode_length_eq. by rewrite Hin.
Qed.

Lemma inode_write_at_never_grows_witness :
  let st := example_open 600 in
  ∃ st',
    inode_write_at (Some 0%nat) sector_pattern 1000 100 true st
    = Some (500, st') ∧
    inode_length (Some 0%nat) st' = Some (600, st') ∧
    sector_contents st' 4 = sector_contents st 4 ∧
    file_byte st' (Some 0%nat) 599 = Some (sector_pattern 499).
Proof.
  intros st.
  destruct (inode_write_at_never_grows st 0 (inode_at st 0) sector_pattern
              1000 100 example_open_lookup example_open_direct_ok)
    as (st' & Hw & _ & _ & _ & Hl & Hframe & Hbytes).
  - vm_compute. reflexivity.
  - lia.
  - lia.
  - exists st'. split; [exact Hw|]. split; [exact Hl|]. split.
    + apply Hframe.
      assert (Hd : data_sectors (inode_at st 0) = [2; 3])
        by (vm_compute; reflexivity).
      rewrite Hd. intros H. inversion H as [|? ? ? H']; subst.
      inversion H' as [|? ? ? H'']; subst. inversion H''.
    + apply (Hbytes 599). vm_compute. split; [discriminate|reflexivity].
Defined.

(** X12: on a file without indirect blocks, [inode_write_at] puts byte
    [k] of the buffer at offset [offset + k] of the file for every byte it
    transfers, and leaves every other byte of the file as it was, the rest
    of a sector written in part included. *)
Theorem inode_write_at_content (st : fs) (p : nat) (ino : inode)
    (buffer : memory) (size offset : Z) :
  inodes st !! p = Some ino → direct_ok ino →
  Inode.deny_write_cnt ino = 0 →
  0 ≤ size < 2 ^ 31 → 0 ≤ offset < 2 ^ 31 →
  let n := Z.min size (Z.max 0 (InodeDisk.length (Inode.data ino) - offset)) in
  ∃ st',
    inode_write_at (Some p) buffer size offset true st = Some (n, st') ∧
    ∀ pos, 0 ≤ pos < InodeDisk.length (Inode.data ino) →
      file_byte st' (Some p) pos
      = if decide (offset ≤ pos < offset + n)
        then Some (buffer (pos - offset))
        else file_byte st (Some p) pos.
Proof.
  intros Hp Hdirect Hd Hsize Hoff n.
  rewrite (write_allowed st p ino) by done.
  destruct (write_loop_content p ino Hdirect (S (Z.to_nat size)) st buffer
              size offset 0 Hp)
    as (st' & Hrun & _ & _ & _ & Hbytes); try lia.
  exists st'. split; [exact Hrun|].
  intros pos Hpos. rewrite (Hbytes pos Hpos).
  destruct (decide _); [|done]. by rewrite Z.add_0_l.
Qed.

Lemma inode_write_at_content_witness :
  let st := example_open 600 in
  ∃ st',
    inode_write_at (Some 0%nat) sector_pattern 50 500 true st
    = Some (50, st') ∧
    file_byte st' (Some 0%nat) 520 = Some (sector_pattern 20) ∧
    file_byte st' (Some 0%nat) 499 = file_byte st (Some 0%nat) 499.
Proof.
  intros st.
  destruct (inode_write_at_content st 0 (inode_at st 0) sector_pattern 50 500
              example_open_lookup example_open_direct_ok)
    as (st' & Hw & Hb).
  - vm_compute. reflexivity.
  - lia.
  - lia.
  - exists st'. split; [exact Hw|]. split.
    + apply (Hb 520). vm_compute. split; [discriminate|reflexivity].
    + apply (Hb 499). vm_compute. split; [discriminate|reflexivity].
Defined.

(** X13: creation, opening, a write over the whole file and a read of
    the whole file compose: for every length that needs no indirect block,
    on every device with the free sectors for it, the file created at a
    sector that is not open reads back the bytes written, over its whole
    length. *)
Theorem create_write_read_round_trip (st : fs) (sector length : Z)
    (pattern : memory) :
  registry_ok st → not_open st sector →
  0 ≤ length ≤ DIRECT_BLOCK * 512 →
  Z.of_nat (List.length (free_map st)) ≤ 2 ^ 32 →
  compute_total_sectors (bytes_to_sectors length) + 1
  ≤ count_free (free_map st) →
  ∃ buffer st',
    round_trip sector length pattern st
    = Some ((true, length, length, buffer), st') ∧
    ∀ j, 0 ≤ j < length → buffer j = pattern j.
Proof. exact (direct_files_round_trip st sector length pattern). Qed.

Lemma create_write_read_round_trip_witness :
  ∃ buffer st',
    round_trip 10 600 sector_pattern example_fs
    = Some ((true, 600, 600, buffer), st') ∧
    buffer 599 = sector_pattern 599.
Proof.
  destruct (create_write_read_round_trip example_fs 10 600 sector_pattern
              example_fs_registry_ok (example_fs_not_open 10))
    as (buffer & st' & Hr & Hb).
  - vm_compute. split; discriminate.
  - vm_compute. discriminate.
  - vm_compute. discriminate.
  - exists buffer, st'. split; [exact Hr|]. apply Hb. lia.
Defined.

(** X14: the data sectors of a created file do not alias: in a file
    without indirect blocks created on a device with the free sectors for
    it, two offsets in different 512-byte sectors of the file are resolved
    by [byte_to_sector] to different sectors of the device. *)
Theorem created_sectors_do_not_alias (st : fs) (sector length : Z) :
  registry_ok st → not_open st sector →
  0 ≤ length ≤ DIRECT_BLOCK * 512 →
  Z.of_nat (List.length (free_map st)) ≤ 2 ^ 32 →
  compute_total_sectors (bytes_to_sectors length) + 1
  ≤ count_free (free_map st) →
  ∃ st1 p st2,
    inode_create sector length true st = Some (true, st1) ∧
    inode_open sector true st1 = Some (Some p, st2) ∧
    ∀ pos1 pos2, 0 ≤ pos1 < length → 0 ≤ pos2 < length →
      pos1 / 512 ≠ pos2 / 512 →
      ∃ s1 s2,
        byte_to_sector (Some p) pos1 st2 = Some (s1, st2) ∧
        byte_to_sector (Some p) pos2 st2 = Some (s2, st2) ∧
        s1 ≠ s2.
Proof.
  intros Hok Hno Hl Hbm Hfree.
  destruct (inode_create_direct st sector length Hl Hbm Hfree)
    as (st1 & Hc & [Hin Hop] & Hd & Hlen).
  assert (Hf : find_open (open_inodes st1) sector st1 = Some (None, st1)).
  { apply find_open_none.
    - intros q Hq. rewrite Hin. apply Hok. by rewrite <- Hop.
    - intros q ino Hq Hino. rewrite Hop in Hq. rewrite Hin in Hino.
      by apply (Hno q ino). }
  pose proof (inode_open_new st1 sector Hf) as Ho. cbv zeta in Ho.
  set (p := fresh (dom (inodes st1))) in *.
  set (ino := Inode.mk sector 1 false 0
                (decode_inode_disk (sector_contents st1 sector))) in *.
  set (st2 := mk_fs (fs_device st1) (free_map st1)
                (<[p := ino]> (inodes st1)) (p :: open_inodes st1)) in *.
  exists st1, p, st2. split; [exact Hc|]. split; [exact Ho|].
  assert (Hp : inodes st2 !! p = Some ino) by apply lookup_insert_eq.
  intros pos1 pos2 H1 H2 Hne.
  rewrite <- Hlen in H1, H2.
  destruct (byte_to_sector_direct p ino Hd st2 pos1 Hp H1) as (s1 & Hs1 & Hb1).
  destruct (byte_to_sector_direct p ino Hd st2 pos2 Hp H2) as (s2 & Hs2 & Hb2).
  exists s1, s2. split; [exact Hb1|]. split; [exact Hb2|].
  intros Heq. apply Hne.
  exact (direct_sectors_distinct ino Hd pos1 pos2 s1 s2 H1 H2 Hs1 Hs2 Heq).
Qed.

Lemma created_sectors_do_not_alias_witness :
  ∃ st1 p st2,
    inode_create 10 600 true example_fs = Some (true, st1) ∧
    inode_open 10 true st1 = Some (Some p, st2) ∧
    ∃ s1 s2,
      byte_to_sector (Some p) 0 st2 = Some (s1, st2) ∧
      byte_to_sector (Some p) 599 st2 = Some (s2, st2) ∧
      s1 ≠ s2.
Proof.
  destruct (created_sectors_do_not_alias example_fs 10 600
              example_fs_registry_ok (example_fs_not_open 10))
    as (st1 & p & st2 & Hc & Ho & Hs).
  - vm_compute. split; discriminate.
  - vm_compute. discriminate.
  - vm_compute. discriminate.
  - exists st1, p, st2. split; [exact Hc|]. split; [exact Ho|].
    apply Hs; [lia|lia|]. vm_compute. discriminate.
Defined.

(** ** Reads through an open inode *)

(** X23: on a file without indirect blocks of length [len],
    [inode_read_at] with a size and an offset that are not negative
    returns [Z.min size (Z.max 0 (len - offset))] when the bounce buffer
    can be allocated: it stores that many bytes at the start of the
    caller's buffer, each the byte of the file at its offset, an offset
    below [len]; it leaves the rest of the buffer alone and changes no
    state. A short transfer is a smaller count, not an error. *)
Theorem inode_read_at_transfers
    (st : fs) (p : nat) (ino : inode) (buffer : memory) (size offset : Z) :
  inodes st !! p = Some ino → no_indirect ino →
  0 ≤ size < 2 ^ 31 → 0 ≤ offset < 2 ^ 31 →
  let len := InodeDisk.length (Inode.data ino) in
  let n := Z.min size (Z.max 0 (len - offset)) in
  ∃ buffer',
    inode_read_at (Some p) buffer size offset true st = Some ((buffer', n), st) ∧
    (∀ j, 0 ≤ j < n →
          offset + j < len ∧
          file_byte st (Some p) (offset + j) = Some (buffer' j)) ∧
    (∀ j, j < 0 ∨ n ≤ j → buffer' j = buffer j).
Proof. exact (inode_read_at_lemma st p ino buffer size offset). Qed.

Lemma inode_read_at_transfers_witness :
  let st := example_open 600 in
  ∃ buffer',
    inode_read_at (Some 0%nat) zero_buffer 1000 100 true st
    = Some ((buffer', 500), st) ∧
    file_byte st (Some 0%nat) 599 = Some (buffer' 499) ∧
    buffer' 500 = zero_buffer 500.
Proof.
  intros st.
  destruct (inode_read_at_transfers st 0 (inode_at st 0) zero_buffer 1000 100
              example_open_lookup
              (direct_ok_no_indirect _ example_open_direct_ok))
    as (b & H & Hfile & Hframe).
  - lia.
  - lia.
  - exists b. split; [exact H|]. split.
    + destruct (Hfile 499) as [_ Hb]; [|exact Hb].
      vm_compute. split; [discriminate|reflexivity].
    + apply Hframe. right. vm_compute. discriminate.
Defined.

(** ** Reads without a bounce buffer *)

(** One turn of the reading loop from a sector boundary with a whole
    sector of the file to read: the bounce buffer is not used. *)
Lemma read_loop_whole_sector st p ino bounce_ok :
  inodes st !! p = Some ino → no_indirect ino →
  ∀ fuel buffer size offset bytes_read,
    512 ≤ size → 0 ≤ offset → offset mod 512 = 0 →
    offset + 512 ≤ InodeDisk.length (Inode.data ino) →
    0 ≤ bytes_read → bytes_read + size < 2 ^ 31 →
    ∃ s,
      byte_to_sector (Some p) offset st = Some (s, st) ∧
      read_loop (S fuel) (Some p) bounce_ok buffer size offset bytes_read st
      = read_loop fuel (Some p) bounce_ok
          (buffer_store buffer bytes_read (sector_contents st s))
          (size - 512) (offset + 512) (bytes_read + 512) st.
Proof.
  intros Hp Hok fuel buffer size offset bytes_read Hsize Hoff Hal Hfit Hread
         Hint.
  pose proof Hok as [_ Hmax]. unfold DIRECT_BLOCK in Hmax.
  set (len := InodeDisk.length (Inode.data ino)) in *.
  destruct (byte_to_sector_defined st p ino offset Hp Hok) as [s Hs]; [lia|].
  exists s. split; [exact Hs|].
  cbn [read_loop].
  destruct (Z.ltb_spec 0 size); [|lia].
  unfold mbind at 1, M_bind at 1, bind at 1. rewrite Hs.
  unfold mbind at 1, M_bind at 1, bind at 1.
  rewrite (inode_length_eq st p ino Hp). fold len.
  unfold BLOCK_SECTOR_SIZE.
  rewrite Z.rem_mod_nonneg by lia. rewrite Hal.
  rewrite (to_int32_small (len - offset)) by lia.
  change (512 - 0) with 512. change (0 =? 0) with true. cbn [andb].
  destruct (Z.ltb_spec (len - offset) 512); [lia|].
  destruct (Z.ltb_spec size 512); [lia|].
  change (512 <=? 0) with false. change (512 =? 512) with true. cbv iota.
  unfold mbind at 1, M_bind at 1, bind at 1. rewrite block_read_eq.
  by rewrite !to_int32_small by lia.
Qed.

(** From a sector boundary with less than a whole sector to read, the
    reading loop without a bounce buffer stops. *)
Lemma read_loop_no_bounce_stops st p ino :
  inodes st !! p = Some ino → no_indirect ino →
  ∀ fuel buffer size offset bytes_read,
    0 ≤ offset < 2 ^ 31 → offset mod 512 = 0 →
    Z.min size (Z.max 0 (InodeDisk.length (Inode.data ino) - offset)) < 512 →
    read_loop (S fuel) (Some p) false buffer size offset bytes_read st
    = Some ((buffer, bytes_read), st).
Proof.
  intros Hp Hok fuel buffer size offset bytes_read Hoff Hal Hshort.
  pose proof Hok as [_ Hmax]. unfold DIRECT_BLOCK in Hmax.
  set (len := InodeDisk.length (Inode.data ino)) in *.
  cbn [read_loop].
  destruct (Z.ltb_spec 0 size); [|done].
  destruct (byte_to_sector_defined st p ino offset Hp Hok Hoff) as [s Hs].
  unfold mbind at 1, M_bind at 1, bind at 1. rewrite Hs.
  unfold mbind at 1, M_bind at 1, bind at 1.
  rewrite (inode_length_eq st p ino Hp). fold len.
  unfold BLOCK_SECTOR_SIZE.
  rewrite Z.rem_mod_nonneg by lia. rewrite Hal.
  rewrite (to_int32_small (len - offset)) by lia.
  change (512 - 0) with 512. change (0 =? 0) with true. cbn [andb].
  set (min_left := if len - offset <? 512 then len - offset else 512).
  set (chunk_size := if size <? min_left then size else min_left).
  assert (Hchunk : chunk_size = Z.min size (Z.min (len - offset) 512)).
  { subst chunk_size min_left.
    destruct (Z.ltb_spec (len - offset) 512);
      match goal with |- context [size <? ?k] =>
        destruct (Z.ltb_spec size k) end; lia. }
  clearbody chunk_size. clear min_left.
  destruct (Z.leb_spec chunk_size 0); [done|].
  destruct (Z.eqb_spec chunk_size 512); [lia|done].
Qed.

(** From a sector boundary, the reading loop without a bounce buffer does
    what the loop with one does for the leading whole sectors. *)
Lemma read_loop_no_bounce st p ino :
  inodes st !! p = Some ino → no_indirect ino →
  ∀ fuel buffer size offset bytes_read,
    0 ≤ size → 0 ≤ offset < 2 ^ 31 → offset mod 512 = 0 →
    0 ≤ bytes_read → bytes_read + size < 2 ^ 31 →
    (Z.to_nat size < fuel)%nat →
    let m := Z.min size
               (Z.max 0 (InodeDisk.length (Inode.data ino) - offset)) in
    read_loop fuel (Some p) false buffer size offset bytes_read st
    = read_loop fuel (Some p) true buffer (512 * (m / 512)) offset
        bytes_read st.
Proof.
  intros Hp Hok.
  pose proof Hok as [_ Hmax]. unfold DIRECT_BLOCK in Hmax.
  set (len := InodeDisk.length (Inode.data ino)) in *.
  induction fuel as [|fuel IH];
    intros buffer size offset bytes_read Hsize Hoff Hal Hread Hint Hfuel m;
    [lia|].
  destruct (Z.lt_ge_cases m 512) as [Hshort|Hlong].
  - rewrite (Z.div_small m 512) by lia. change (512 * 0) with 0.
    rewrite (read_loop_no_bounce_stops st p ino Hp Hok) by done.
    reflexivity.
  - pose proof (Z.mul_div_le m 512 ltac:(lia)) as Hle.
    assert (Hdiv : 1 ≤ m / 512) by (apply Z.div_le_lower_bound; lia).
    destruct (read_loop_whole_sector st p ino false Hp Hok fuel buffer size
                offset bytes_read) as (s & Hs & ->); try lia.
    destruct (read_loop_whole_sector st p ino true Hp Hok fuel buffer
                (512 * (m / 512)) offset bytes_read) as (s' & Hs' & ->);
      try lia.
    rewrite Hs in Hs'. injection Hs' as <-.
    rewrite IH; try lia.
    + cbv zeta. do 2 f_equal.
      replace (Z.min (size - 512) (Z.max 0 (len - (offset + 512))))
        with (m + (- 1) * 512) by lia.
      rewrite Z.div_add by lia. lia.
    + rewrite <- Z.add_mod_idemp_l, Hal by lia. reflexivity.
Qed.

(** X15: when no bounce buffer can be allocated, [inode_read_at] on a
    file without indirect blocks does not fail: from an offset on a sector
    boundary it transfers the leading whole sectors of what it would read
    and stops at the first sector to be read in part, so the count is the
    largest multiple of 512 within the bytes between the offset and the
    end of the file, and each byte stored is the byte of the file at its
    offset; from any other offset it returns 0 and stores nothing. No
    state changes. *)
Theorem inode_read_at_no_bounce (st : fs) (p : nat) (ino : inode)
    (buffer : memory) (size offset : Z) :
  inodes st !! p = Some ino → no_indirect ino →
  0 ≤ size < 2 ^ 31 → 0 ≤ offset < 2 ^ 31 →
  let m := Z.min size
             (Z.max 0 (InodeDisk.length (Inode.data ino) - offset)) in
  let n := 512 * (m / 512) in
  (offset mod 512 = 0 →
   ∃ buffer',
     inode_read_at (Some p) buffer size offset false st
     = Some ((buffer', n), st) ∧
     (∀ j, 0 ≤ j < n →
           file_byte st (Some p) (offset + j) = Some (buffer' j)) ∧
     (∀ j, j < 0 ∨ n ≤ j → buffer' j = buffer j)) ∧
  (offset mod 512 ≠ 0 →
   inode_read_at (Some p) buffer size offset false st
   = Some ((buffer, 0), st)).
Proof.
  intros Hp Hok Hsize Hoff m n. unfold inode_read_at.
  pose proof Hok as [_ Hmax]. unfold DIRECT_BLOCK in Hmax. split.
  - intros Hal.
    rewrite (read_loop_no_bounce st p ino Hp Hok) by lia.
    fold m n.
    pose proof (Z.mul_div_le m 512 ltac:(lia)) as Hle. fold n in Hle.
    assert (0 ≤ n) by (subst n; apply Z.mul_nonneg_nonneg;
                       [lia|apply Z.div_pos; lia]).
    destruct (read_loop_count st p ino Hp Hok (S (Z.to_nat size)) buffer n
                offset 0) as (b & Hrun & Hfile & Hframe); try lia.
    replace (Z.min n (Z.max 0 (InodeDisk.length (Inode.data ino) - offset)))
      with n in * by lia.
    rewrite Z.add_0_l in *.
    exists b. split; [exact Hrun|]. split.
    + intros j Hj. rewrite <- Hfile by lia. f_equal. lia.
    + intros j Hj. apply Hframe. lia.
  - intros Hun. cbn [read_loop].
    destruct (Z.ltb_spec 0 size) as [Hpos|Hzero]; [|done].
    destruct (byte_to_sector_defined st p ino offset Hp Hok Hoff) as [s Hs].
    unfold mbind at 1, M_bind at 1, bind at 1. rewrite Hs.
    unfold mbind at 1, M_bind at 1, bind at 1.
    rewrite (inode_length_eq st p ino Hp).
    unfold BLOCK_SECTOR_SIZE. rewrite Z.rem_mod_nonneg by lia.
    destruct (Z.eqb_spec (offset mod 512) 0) as [|_]; [done|]. cbn [andb].
    by destruct (_ <=? 0).
Qed.

Lemma inode_read_at_no_bounce_witness :
  let st := example_open 600 in
  (∃ buffer',
     inode_read_at (Some 0%nat) zero_buffer 1000 0 false st
     = Some ((buffer', 512), st) ∧
     file_byte st (Some 0%nat) 511 = Some (buffer' 511)) ∧
  inode_read_at (Some 0%nat) zero_buffer 1000 100 false st
  = Some ((zero_buffer, 0), st).
Proof.
  intros st.
  assert (Hok : no_indirect (inode_at st 0))
    by exact (direct_ok_no_indirect _ example_open_direct_ok).
  destruct (inode_read_at_no_bounce st 0 (inode_at st 0) zero_buffer 1000 0
              example_open_lookup Hok) as [H1 _]; [lia|lia|].
  destruct (inode_read_at_no_bounce st 0 (inode_at st 0) zero_buffer 1000 100
              example_open_lookup Hok) as [_ H2]; [lia|lia|].
  split.
  - destruct (H1 eq_refl) as (b & Hr & Hfile & _).
    exists b. split; [exact Hr|]. apply (Hfile 511). vm_compute.
    split; [discriminate|reflexivity].
  - apply H2. vm_compute. discriminate.
Defined.

(** ** The on-disk layout *)

Lemma word_at_app pre v rest i :
  length pre = (4 * i)%nat →
  word_at (pre ++ encode_le32 v ++ rest) i = to_uint32 v.
Proof.
  intros H. unfold word_at. rewrite drop_app_length' by done.
  rewrite take_app_length' by done. apply decode_encode_le32.
Qed.

Lemma to_int32_to_uint32 z : - 2 ^ 31 ≤ z < 2 ^ 31 → to_int32 (to_uint32 z) = z.
Proof.
  intros H. unfold to_int32, to_uint32.
  rewrite Zplus_mod_idemp_l. rewrite Z.mod_small; lia.
Qed.

Lemma to_uint32_all l :
  Forall (λ s, 0 ≤ s < 2 ^ 32) l → to_uint32 <$> l = l.
Proof.
  induction 1 as [|s l Hs _ IH]; [done|].
  cbn [fmap list_fmap]. fold (fmap (M:=list) to_uint32 l).
  by rewrite IH, to_uint32_small.
Qed.

Lemma decode_encode_inode_disk d :
  inode_disk_wf d → decode_inode_disk (encode_inode_disk d) = d.
Proof.
  intros (Hs & Hr & Hib & Hp & Hl & Hm).
  pose proof (decode_encode_sectors d Hs) as E1.
  rewrite (to_uint32_all _ Hr) in E1.
  assert (E2 : word_at (encode_inode_disk d) 124 = InodeDisk.ib d).
  { unfold encode_inode_disk. rewrite word_at_app.
    - by apply to_uint32_small.
    - rewrite length_encode_words, Hs. reflexivity. }
  assert (E3 : encode_inode_disk d !! 500%nat
               = Some (if InodeDisk.is_directory d then x01 else x00)).
  { unfold encode_inode_disk. rewrite app_assoc.
    apply list_lookup_middle.
    rewrite length_app, length_encode_words, Hs. reflexivity. }
  assert (E4 : take 3 (drop 501 (encode_inode_disk d)) = InodeDisk.padding d).
  { unfold encode_inode_disk. rewrite !app_assoc.
    rewrite <- (app_assoc _ (encode_le32 (InodeDisk.length d))).
    rewrite <- (app_assoc _ (InodeDisk.padding d)).
    rewrite drop_app_length'.
    - by rewrite take_app_length'.
    - rewrite !length_app, length_encode_words, Hs. reflexivity. }
  pose proof (word_at_length d Hs Hp) as E5.
  assert (E6 : word_at (encode_inode_disk d) 127 = InodeDisk.magic d).
  { unfold encode_inode_disk. rewrite !app_assoc.
    rewrite <- (app_nil_r (encode_le32 (InodeDisk.magic d))).
    rewrite word_at_app.
    - by apply to_uint32_small.
    - rewrite !length_app, length_encode_words, Hs, Hp. reflexivity. }
  unfold decode_inode_disk in *. cbn [InodeDisk.sectors] in E1.
  rewrite E1, E2, E3, E4, E5, E6, (to_int32_to_uint32 _ Hl).
  destruct d as [sec ib dir pad len mag]. cbn. f_equal. by destruct dir.
Qed.

Lemma sector_contents_stored st s b :
  length b = 512%nat →
  sector_contents (set_fs_device (<[s := take 512 b]> (fs_device st)) st) s = b.
Proof.
  intros Hb. unfold sector_contents. cbn [fs_device set_fs_device].
  rewrite lookup_insert_eq. cbn [default].
  rewrite take_ge by lia. rewrite <- Hb. apply resize_all.
Qed.

(** X16: the image of an on-disk inode fills exactly one sector, and
    storing it with [block_write] and loading the sector with [block_read]
    gives back every field of the inode: the 124 direct sectors, the
    sector of the indirect block, the directory flag, the length and the
    magic number. *)
Theorem inode_disk_survives_the_disk (st : fs) (s : Z) (d : inode_disk) :
  inode_disk_wf d →
  length (encode_inode_disk d) = 512%nat ∧
  ∃ st', store_load_inode s d st = Some (d, st') ∧
         free_map st' = free_map st ∧ inodes st' = inodes st ∧
         ∀ s', s' ≠ s → sector_contents st' s' = sector_contents st s'.
Proof.
  intros Hwf. pose proof Hwf as (Hs & _ & _ & Hp & _).
  pose proof (length_encode_inode_disk d Hs Hp) as Hlen.
  split; [exact Hlen|].
  eexists. unfold store_load_inode. munfold. unfold block_write, block_read.
  munfold. fold (sector_contents
                   (set_fs_device
                      (<[s := take 512 (encode_inode_disk d)]> (fs_device st))
                      st) s).
  rewrite (sector_contents_stored st s _ Hlen).
  rewrite (decode_encode_inode_disk d Hwf).
  split; [reflexivity|]. split; [done|]. split; [done|].
  intros s' Hne. unfold sector_contents. cbn [fs_device set_fs_device].
  by rewrite lookup_insert_ne.
Qed.

Lemma inode_disk_survives_the_disk_witness :
  ∃ st', store_load_inode 7 (set_length 600 zero_inode_disk) example_fs
         = Some (set_length 600 zero_inode_disk, st').
Proof.
  destruct (inode_disk_survives_the_disk example_fs 7
              (set_length 600 zero_inode_disk)) as (_ & st' & H & _).
  - split; [reflexivity|]. split.
    + apply Forall_forall. intros x Hx.
      apply elem_of_replicate in Hx as [-> _]. lia.
    + cbn. lia.
  - exists st'. exact H.
Defined.

Lemma decode_encode_indirect_block ib :
  length ib = 128%nat → Forall (λ s, 0 ≤ s < 2 ^ 32) ib →
  decode_indirect_block (encode_indirect_block ib) = ib.
Proof.
  intros Hlen Hr. unfold decode_indirect_block, encode_indirect_block.
  rewrite <- (to_uint32_all ib Hr) at 2.
  apply list_eq. intros i. rewrite !list_lookup_fmap.
  destruct (decide (i < 128)%nat) as [Hi|Hi].
  - rewrite lookup_seq_lt by done. cbn [fmap option_fmap option_map].
    destruct (lookup_lt_is_Some_2 ib i) as [w Hw]; [lia|].
    rewrite Hw. cbn [fmap option_fmap option_map]. f_equal.
    rewrite <- (app_nil_r (encode_words ib)).
    by apply word_at_encode_words.
  - rewrite lookup_seq_ge by lia.
    rewrite (lookup_ge_None_2 ib) by lia. done.
Qed.

(** X17: an indirect block of 128 sector numbers fills exactly one
    sector, and storing it with [block_write] and loading the sector with
    [block_read] gives back the 128 sector numbers. *)
Theorem indirect_block_survives_the_disk (st : fs) (s : Z)
    (ib : indirect_block) :
  length ib = 128%nat → Forall (λ s, 0 ≤ s < 2 ^ 32) ib →
  length (encode_indirect_block ib) = 512%nat ∧
  ∃ st', store_load_indirect s ib st = Some (ib, st') ∧
         free_map st' = free_map st ∧ inodes st' = inodes st ∧
         ∀ s', s' ≠ s → sector_contents st' s' = sector_contents st s'.
Proof.
  intros Hl Hr.
  assert (Hlen : length (encode_indirect_block ib) = 512%nat).
  { unfold encode_indirect_block. rewrite length_encode_words, Hl.
    reflexivity. }
  split; [exact Hlen|].
  eexists. unfold store_load_indirect. munfold. unfold block_write, block_read.
  munfold. fold (sector_contents
                   (set_fs_device
                      (<[s := take 512 (encode_indirect_block ib)]>
                         (fs_device st)) st) s).
  rewrite (sector_contents_stored st s _ Hlen).
  rewrite (decode_encode_indirect_block ib Hl Hr).
  split; [reflexivity|]. split; [done|]. split; [done|].
  intros s' Hne. unfold sector_contents. cbn [fs_device set_fs_device].
  by rewrite lookup_insert_ne.
Qed.

Lemma indirect_block_survives_the_disk_witness :
  ∃ st', store_load_indirect 7 (<[0%nat := 42]> zero_indirect_block)
           example_fs
         = Some (<[0%nat := 42]> zero_indirect_block, st').
Proof.
  destruct (indirect_block_survives_the_disk example_fs 7
              (<[0%nat := 42]> zero_indirect_block)) as (_ & st' & H & _).
  - reflexivity.
  - apply Forall_insert; [|lia].
    apply Forall_forall. intros x Hx.
    apply elem_of_replicate in Hx as [-> _]. lia.
  - exists st'. exact H.
Defined.

(** ** The last close of a removed file *)

Lemma count_free_release bm k :
  bm !! k = Some true → count_free (<[k := false]> bm) = count_free bm + 1.
Proof.
  revert k. induction bm as [|b bm IH]; intros k Hk; [done|].
  destruct k as [|k].
  - cbn in Hk. injection Hk as ->.
    change (<[0%nat := false]> (true :: bm)) with (false :: bm).
    rewrite !count_free_cons. lia.
  - cbn [lookup list_lookup] in Hk. specialize (IH k Hk).
    change (<[S k := false]> (b :: bm)) with (b :: <[k := false]> bm).
    rewrite !count_free_cons, IH. lia.
Qed.

Lemma release_all_count ss : ∀ bm,
  NoDup ss →
  (∀ s, s ∈ ss → ∃ k : nat, s = Z.of_nat k ∧ bm !! k = Some true) →
  count_free (release_all ss bm) = count_free bm + Z.of_nat (length ss) ∧
  ∀ k : nat, Z.of_nat k ∉ ss → release_all ss bm !! k = bm !! k.
Proof.
  induction ss as [|s ss IH]; intros bm Hnd Hin.
  { cbn. split; [lia|done]. }
  apply NoDup_cons in Hnd as [Hs Hnd].
  change (release_all (s :: ss) bm)
    with (release_all ss (<[Z.to_nat s := false]> bm)).
  destruct (Hin s) as (k & -> & Hk); [left|]. rewrite Nat2Z.id.
  destruct (IH (<[k := false]> bm) Hnd) as (Hc & Hf).
  { intros s' Hs'. destruct (Hin s') as (k' & -> & Hk'); [by right|].
    exists k'. split; [done|].
    rewrite list_lookup_insert_ne; [done|]. intros ->. by apply Hs. }
  rewrite Hc, (count_free_release _ _ Hk). split; [cbn [length]; lia|].
  intros k' Hk'. rewrite Hf.
  - apply list_lookup_insert_ne. intros ->. apply Hk'. left.
  - intros H. apply Hk'. by right.
Qed.

Lemma close_direct_run d index :
  length (InodeDisk.sectors d) = 124%nat → 0 ≤ index ≤ 124 →
  ∀ fuel i st,
    0 ≤ i ≤ index → 125 ≤ Z.of_nat fuel + i →
    ∃ st',
      close_direct fuel d index i st = Some (index, st') ∧
      free_map st'
      = release_all (drop (Z.to_nat i)
                       (take (Z.to_nat index) (InodeDisk.sectors d)))
          (free_map st) ∧
      fs_device st' = fs_device st ∧ same_registry st st'.
Proof.
  intros Hlen Hidx.
  induction fuel as [|fuel IH]; intros i st Hi Hfuel; [lia|].
  cbn [close_direct]. unfold DIRECT_BLOCK.
  destruct (Z.ltb_spec i 124) as [H1|H1];
    destruct (Z.ltb_spec i index) as [H2|H2]; cbn [andb]; try lia.
  2,3: exists st; replace i with index by lia;
       rewrite drop_ge by (rewrite length_take; lia); done.
  destruct (lookup_lt_is_Some_2 (InodeDisk.sectors d) (Z.to_nat i))
    as [s Hs]; [lia|].
  unfold mbind at 1, M_bind at 1, bind at 1, lift at 1. rewrite Hs.
  unfold mbind at 1, M_bind at 1, bind at 1, free_map_release, modify.
  rewrite to_uint32_small by lia.
  match goal with |- context [close_direct fuel d index _ ?s1] =>
    destruct (IH (i + 1) s1) as (st' & Hrun & Hfree & Hdev & Hreg) end;
    [lia|lia|].
  exists st'. split; [exact Hrun|]. split; [|done].
  rewrite Hfree. cbn [free_map set_free_map].
  rewrite (drop_S _ s (Z.to_nat i)).
  2:{ rewrite lookup_take_lt by lia. exact Hs. }
  replace (Z.to_nat (i + 1)) with (S (Z.to_nat i)) by lia.
  reflexivity.
Qed.

(** X18: the last close of a removed file gives its sectors back when
    the file has no indirect block and its length is a whole number [n]
    of sectors: the [n] data sectors and the sector of the inode are
    marked free, no other sector of the free map changes, and the inode is
    taken off the list of open inodes and freed. *)
Theorem last_close_of_removed_releases (st : fs) (p : nat) (ino : inode)
    (n : Z) :
  inodes st !! p = Some ino →
  Inode.open_cnt ino = 1 → Inode.removed ino = true →
  length (InodeDisk.sectors (Inode.data ino)) = 124%nat →
  0 ≤ n ≤ 124 → InodeDisk.length (Inode.data ino) = n * 512 →
  allocated (Inode.data ino) (Z.to_nat n) (free_map st) →
  (∃ k : nat, Inode.sector ino = Z.of_nat k ∧ free_map st !! k = Some true) →
  Inode.sector ino ∉ take (Z.to_nat n) (InodeDisk.sectors (Inode.data ino)) →
  ∃ st',
    inode_close (Some p) st = Some (tt, st') ∧
    count_free (free_map st') = count_free (free_map st) + n + 1 ∧
    (∀ k : nat,
       Z.of_nat k ≠ Inode.sector ino →
       Z.of_nat k ∉ take (Z.to_nat n) (InodeDisk.sectors (Inode.data ino)) →
       free_map st' !! k = free_map st !! k) ∧
    inodes st' = delete p (inodes st) ∧
    open_inodes st' = filter (λ q, q ≠ p) (open_inodes st) ∧
    fs_device st' = fs_device st.
Proof.
  intros Hp Hcnt Hrem Hlen Hn Hsize [Hnd Huse] (k0 & Hk0 & Huse0) Hnot.
  set (ss := take (Z.to_nat n) (InodeDisk.sectors (Inode.data ino))) in *.
  unfold inode_close.
  unfold mbind at 1, M_bind at 1, bind at 1, deref, lift, gets.
  cbn beta. rewrite Hp, Hcnt, Hrem.
  change (to_int32 (1 - 1)) with 0. change (0 =? 0) with true. cbv iota.
  unfold mbind at 1, M_bind at 1, bind at 1, store, modify.
  unfold mbind at 1, M_bind at 1, bind at 1, modify.
  cbn [open_inodes set_inodes].
  rewrite Hsize. unfold BLOCK_SECTOR_SIZE. rewrite Z.quot_mul by lia.
  rewrite to_uint32_small by lia.
  set (s1 := set_open_inodes (filter (λ q, q ≠ p) (open_inodes st))
               (set_inodes (<[p := Inode.set_open_cnt 0 ino]> (inodes st))
                  st)).
  destruct (close_direct_run (Inode.data ino) n Hlen Hn 125 0 s1)
    as (st1 & Hrun & Hfree & Hdev & [Hin Hop]); [lia|lia|].
  subst s1.
  cbn [free_map fs_device inodes open_inodes set_open_inodes set_inodes]
    in Hfree, Hdev, Hin, Hop.
  change (Z.to_nat 0) with 0%nat in Hfree. rewrite drop_0 in Hfree.
  fold ss in Hfree.
  unfold mbind at 1, M_bind at 1, bind at 1.
  unfold mbind at 1, M_bind at 1, bind at 1.
  unfold mbind at 1, M_bind at 1, bind at 1.
  rewrite Hrun. cbv beta iota. rewrite Z.ltb_irrefl.
  unfold ret, free_map_release, modify.
  destruct (release_all_count ss (free_map st) Hnd Huse) as (Hc & Hf).
  eexists. split; [reflexivity|].
  cbn [free_map fs_device inodes open_inodes set_open_inodes set_inodes
       set_free_map].
  change (list_inserts (Z.to_nat (Inode.sector ino))
            (replicate (Z.to_nat 1) false) (free_map st1))
    with (<[Z.to_nat (Inode.sector ino) := false]> (free_map st1)).
  rewrite Hfree, Hk0, Nat2Z.id.
  split.
  { rewrite count_free_release.
    - rewrite Hc. subst ss. rewrite length_take. lia.
    - rewrite Hf; [done|]. by rewrite <- Hk0. }
  split.
  { intros k Hk Hk'. rewrite list_lookup_insert_ne by lia. by apply Hf. }
  split; [|done].
  rewrite Hin. by rewrite delete_insert_eq.
Qed.

Lemma last_close_of_removed_releases_witness :
  let st := state_after (inode_remove (Some 0%nat)) (example_open 1024) in
  ∃ st',
    inode_close (Some 0%nat) st = Some (tt, st') ∧
    count_free (free_map st') = count_free (free_map st) + 2 + 1.
Proof.
  intros st.
  assert (Ht : take (Z.to_nat 2) (InodeDisk.sectors (Inode.data (inode_at st 0)))
               = [2; 3]) by (vm_compute; reflexivity).
  destruct (last_close_of_removed_releases st 0 (inode_at st 0) 2)
    as (st' & Hc & Hn & _).
  - vm_compute. reflexivity.
  - vm_compute. reflexivity.
  - vm_compute. reflexivity.
  - vm_compute. reflexivity.
  - lia.
  - vm_compute. reflexivity.
  - split; rewrite Ht.
    + apply NoDup_cons. split; [|apply NoDup_singleton].
      intros H. inversion H as [|? ? ? H']; subst. inversion H'.
    + intros s Hs. inversion Hs as [|? ? ? Hs']; subst.
      * exists 2%nat. split; vm_compute; reflexivity.
      * inversion Hs' as [|? ? ? Hs'']; subst; [|inversion Hs''].
        exists 3%nat. split; vm_compute; reflexivity.
  - exists 10%nat. split; vm_compute; reflexivity.
  - assert (Hs : Inode.sector (inode_at st 0) = 10)
      by (vm_compute; reflexivity).
    rewrite Ht, Hs. intros H. inversion H as [|? ? ? H']; subst.
    inversion H' as [|? ? ? H'']; subst. inversion H''.
  - exists st'. exact (conj Hc Hn).
Defined.

(** ** What a read depends on *)

(** Two states with the same device, in which the inode at [p] has the
    same on-disk part: the counters and the flag of the inode, the other
    inodes, the list of open inodes and the free map may differ. *)
Section same_data.
Variables (st st' : fs) (p : nat) (ino ino' : inode).
Hypothesis Hp : inodes st !! p = Some ino.
Hypothesis Hp' : inodes st' !! p = Some ino'.
Hypothesis Hdata : Inode.data ino' = Inode.data ino.
Hypothesis Hdev : fs_device st' = fs_device st.

Lemma reads_same_ret {A} (a : A) : reads_same st st' (ret a).
Proof. done. Qed.

Lemma reads_same_bind {A B} (m : M A) (k : A → M B) :
  reads_same st st' m → (∀ a, reads_same st st' (k a)) →
  reads_same st st' (m ≫= k).
Proof.
  unfold reads_same, mbind, M_bind, bind.
  destruct (m st) as [[a st1]|].
  - intros [-> ->] Hk. apply Hk.
  - by intros -> _.
Qed.

Lemma reads_same_block_read s : reads_same st st' (block_read s).
Proof using Hdev.
  unfold reads_same, block_read, gets. by rewrite Hdev.
Qed.

Lemma reads_same_lift {A} (o : option A) : reads_same st st' (lift o).
Proof. unfold reads_same, lift. by destruct o. Qed.

Lemma reads_same_block_read_unset s :
  reads_same st st' (block_read_unset s).
Proof. done. Qed.

Lemma reads_same_inode_length : reads_same st st' (inode_length (Some p)).
Proof using Hp Hp' Hdata.
  unfold reads_same, inode_length, deref. munfold.
  by rewrite Hp, Hp', Hdata.
Qed.

Lemma reads_same_byte_to_sector pos :
  reads_same st st' (byte_to_sector (Some p) pos).
Proof using Hp Hp' Hdata Hdev.
  pose (F := λ d : inode_disk,
    if pos <? InodeDisk.length d then
      let index := to_uint32 (Z.quot pos BLOCK_SECTOR_SIZE) in
      if index <? DIRECT_BLOCK then
        lift (InodeDisk.sectors d !! Z.to_nat index)
      else
        let first_ib_index := to_uint32 (index - DIRECT_BLOCK) / 128 in
        let second_ib_index := to_uint32 (index - DIRECT_BLOCK) mod 128 in
        first_ib ← block_read_unset (InodeDisk.ib d);
        s ← lift (first_ib !! Z.to_nat first_ib_index);
        second_ib ← block_read_unset s;
        lift (second_ib !! Z.to_nat second_ib_index)
    else ret (to_uint32 (-1))).
  assert (H : ∀ d, reads_same st st' (F d)).
  { intros d. unfold F. cbv zeta.
    destruct (_ <? _); [|apply reads_same_ret].
    destruct (_ <? _); [apply reads_same_lift|].
    apply reads_same_bind; [apply reads_same_block_read_unset|intros b1].
    apply reads_same_bind; [apply reads_same_lift|intros s].
    apply reads_same_bind; [apply reads_same_block_read_unset|intros b2].
    apply reads_same_lift. }
  assert (E1 : byte_to_sector (Some p) pos st = F (Inode.data ino) st).
  { unfold byte_to_sector, deref.
    unfold mbind at 1, M_bind at 1, bind at 1. by rewrite Hp. }
  assert (E2 : byte_to_sector (Some p) pos st' = F (Inode.data ino) st').
  { unfold byte_to_sector, deref.
    unfold mbind at 1, M_bind at 1, bind at 1. by rewrite Hp', Hdata. }
  unfold reads_same. rewrite E1, E2. apply H.
Qed.

Lemma reads_same_read_loop bounce_ok :
  ∀ fuel buffer size offset bytes_read,
    reads_same st st'
      (read_loop fuel (Some p) bounce_ok buffer size offset bytes_read).
Proof using Hp Hp' Hdata Hdev.
  induction fuel as [|fuel IH]; intros buffer size offset bytes_read;
    cbn [read_loop]; [done|].
  destruct (0 <? size); [|apply reads_same_ret].
  apply reads_same_bind; [apply reads_same_byte_to_sector|intros s].
  apply reads_same_bind; [apply reads_same_inode_length|intros len].
  cbv zeta.
  destruct (_ <=? 0); [apply reads_same_ret|].
  destruct (_ && _).
  { apply reads_same_bind; [apply reads_same_block_read|intros b].
    apply IH. }
  destruct bounce_ok; [|apply reads_same_ret].
  apply reads_same_bind; [apply reads_same_block_read|intros b].
  apply IH.
Qed.

Lemma reads_same_fst {A} (m : M A) :
  reads_same st st' m → fst <$> m st' = fst <$> m st.
Proof.
  unfold reads_same. destruct (m st) as [[a st1]|].
  - by intros [_ ->].
  - by intros ->.
Qed.

End same_data.

(** X19: [inode_remove] only sets the flag of the inode: the device, the
    free map and the list of open inodes are as before, and through the
    handle the file has the same length and every read, at whatever
    offset and size, yields what it yielded before the removal. *)
Theorem removed_inode_stays_readable (st : fs) (p : nat) (ino : inode)
    (buffer : memory) (size offset : Z) (bounce_ok : bool) :
  inodes st !! p = Some ino →
  ∃ st',
    inode_remove (Some p) st = Some (tt, st') ∧
    fs_device st' = fs_device st ∧ free_map st' = free_map st ∧
    open_inodes st' = open_inodes st ∧
    inodes st' = <[p := Inode.set_removed true ino]> (inodes st) ∧
    fst <$> inode_length (Some p) st' = fst <$> inode_length (Some p) st ∧
    fst <$> inode_read_at (Some p) buffer size offset bounce_ok st'
    = fst <$> inode_read_at (Some p) buffer size offset bounce_ok st.
Proof.
  intros Hp. eexists. split.
  { unfold inode_remove, deref, store. munfold. rewrite Hp. reflexivity. }
  cbn [fs_device free_map open_inodes inodes set_inodes].
  do 4 (split; [done|]).
  set (st' := set_inodes _ st).
  assert (Hp' : inodes st' !! p = Some (Inode.set_removed true ino))
    by apply lookup_insert_eq.
  split.
  - apply reads_same_fst.
    by apply (reads_same_inode_length st st' p ino _ Hp Hp').
  - apply reads_same_fst. unfold inode_read_at.
    by apply (reads_same_read_loop st st' p ino _ Hp Hp').
Qed.

Lemma removed_inode_stays_readable_witness :
  let st := example_open 600 in
  ∃ st',
    inode_remove (Some 0%nat) st = Some (tt, st') ∧
    fst <$> inode_read_at (Some 0%nat) zero_buffer 1000 100 true st'
    = fst <$> inode_read_at (Some 0%nat) zero_buffer 1000 100 true st.
Proof.
  intros st.
  destruct (removed_inode_stays_readable st 0 (inode_at st 0) zero_buffer
              1000 100 true example_open_lookup)
    as (st' & Hr & _ & _ & _ & _ & _ & Hread).
  exists st'. exact (conj Hr Hread).
Defined.

(** X20: denying writes leaves reads alone: after a successful
    [inode_deny_write] the file has the same length and every read through
    the handle yields what it yielded before. *)
Theorem deny_write_keeps_reads (st : fs) (p : nat) (ino : inode)
    (buffer : memory) (size offset : Z) (bounce_ok : bool) :
  inodes st !! p = Some ino →
  0 ≤ Inode.deny_write_cnt ino < Inode.open_cnt ino →
  Inode.open_cnt ino < 2 ^ 31 →
  ∃ st',
    inode_deny_write (Some p) st = Some (tt, st') ∧
    fs_device st' = fs_device st ∧ free_map st' = free_map st ∧
    fst <$> inode_length (Some p) st' = fst <$> inode_length (Some p) st ∧
    fst <$> inode_read_at (Some p) buffer size offset bounce_ok st'
    = fst <$> inode_read_at (Some p) buffer size offset bounce_ok st.
Proof.
  intros Hp Hd Ho. eexists. split.
  { apply (deny_write_step st p ino Hp); lia. }
  cbn [fs_device free_map set_inodes].
  do 2 (split; [done|]).
  set (st' := set_inodes _ st).
  assert (Hp' : inodes st' !! p
                = Some (Inode.set_deny_write_cnt
                          (Inode.deny_write_cnt ino + 1) ino))
    by apply lookup_insert_eq.
  split.
  - apply reads_same_fst.
    by apply (reads_same_inode_length st st' p ino _ Hp Hp').
  - apply reads_same_fst. unfold inode_read_at.
    by apply (reads_same_read_loop st st' p ino _ Hp Hp').
Qed.

Lemma deny_write_keeps_reads_witness :
  let st := example_open 600 in
  ∃ st',
    inode_deny_write (Some 0%nat) st = Some (tt, st') ∧
    fst <$> inode_read_at (Some 0%nat) zero_buffer 1000 100 true st'
    = fst <$> inode_read_at (Some 0%nat) zero_buffer 1000 100 true st.
Proof.
  intros st.
  destruct (deny_write_keeps_reads st 0 (inode_at st 0) zero_buffer
              1000 100 true example_open_lookup)
    as (st' & Hr & _ & _ & _ & Hread).
  - vm_compute. split; [discriminate|reflexivity].
  - vm_compute. reflexivity.
  - exists st'. exact (conj Hr Hread).
Defined.

(** ** The invariant of the list of open inodes *)

Lemma bind_inv {A B} (m : M A) (k : A → M B) st b st' :
  (m ≫= k) st = Some (b, st') →
  ∃ a st1, m st = Some (a, st1) ∧ k a st1 = Some (b, st').
Proof.
  unfold mbind, M_bind, bind. destruct (m st) as [[a st1]|]; [|done].
  intros H. by exists a, st1.
Qed.

Lemma deref_inv p st ino st1 :
  deref (Some p) st = Some (ino, st1) → st1 = st ∧ inodes st !! p = Some ino.
Proof.
  unfold deref. destruct (inodes st !! p); [|done]. by intros [= -> ->].
Qed.

Lemma keeps_ret {A} (a : A) : keeps_registry (ret a).
Proof. by intros st a' st' [= _ ->]. Qed.

Lemma keeps_fail {A} : keeps_registry (@fail A).
Proof. by intros st a st' H. Qed.

Lemma keeps_lift {A} (o : option A) : keeps_registry (lift o).
Proof. intros st a st'. unfold lift. destruct o; [|done]. by intros [= _ ->]. Qed.

Lemma keeps_gets {A} (f : fs → A) : keeps_registry (gets f).
Proof. by intros st a st' [= _ ->]. Qed.

Lemma keeps_bind {A B} (m : M A) (k : A → M B) :
  keeps_registry m → (∀ a, keeps_registry (k a)) → keeps_registry (m ≫= k).
Proof.
  intros Hm Hk st b st' (a & st1 & H1 & H2)%bind_inv.
  eapply same_registry_trans; [by eapply Hm|by eapply Hk].
Qed.

Lemma keeps_deref h : keeps_registry (deref h).
Proof.
  intros st a st'. unfold deref. destruct h as [p|]; [|done].
  destruct (inodes st !! p); [|done]. by intros [= _ ->].
Qed.

Lemma keeps_block_write s b : keeps_registry (block_write s b).
Proof. by intros st a st' [= _ <-]. Qed.

Lemma keeps_free_map_release s cnt : keeps_registry (free_map_release s cnt).
Proof. by intros st a st' [= _ <-]. Qed.

Lemma keeps_free_map_allocate cnt : keeps_registry (free_map_allocate cnt).
Proof.
  intros st a st'. unfold free_map_allocate.
  destruct (bitmap_scan _ _ _); by intros [= _ <-].
Qed.

Ltac keeps :=
  repeat first
    [ apply keeps_ret | apply keeps_fail | apply keeps_lift
    | apply keeps_gets | apply keeps_deref | apply keeps_block_write
    | apply keeps_free_map_release | apply keeps_free_map_allocate
    | match goal with H : _ |- keeps_registry _ => apply H end
    | apply keeps_bind; [|intros ?]
    | progress cbv zeta
    | match goal with
      | |- keeps_registry (match ?x with _ => _ end) => destruct x
      end ].

Lemma keeps_allocate_position position :
  keeps_registry (allocate_position position).
Proof. unfold allocate_position. keeps. Qed.

Lemma keeps_byte_to_sector h pos : keeps_registry (byte_to_sector h pos).
Proof. unfold byte_to_sector, block_read_unset. keeps. Qed.

Lemma keeps_inode_length h : keeps_registry (inode_length h).
Proof. unfold inode_length. keeps. Qed.

Lemma keeps_wsd_direct total_sectors : ∀ fuel i position d,
  keeps_registry (wsd_direct fuel total_sectors i position d).
Proof.
  induction fuel as [|fuel IH]; intros i position d; cbn [wsd_direct];
    [apply keeps_fail|].
  destruct (_ && _); [|apply keeps_ret].
  apply keeps_bind; [apply keeps_allocate_position|intros p; apply IH].
Qed.

Lemma keeps_wsd_second total_sectors i : ∀ fuel k position sl,
  keeps_registry (wsd_second fuel total_sectors i k position sl).
Proof.
  induction fuel as [|fuel IH]; intros k position sl; cbn [wsd_second];
    [apply keeps_fail|].
  destruct (_ && _); [|apply keeps_ret].
  apply keeps_bind; [apply keeps_allocate_position|intros p; apply IH].
Qed.

Lemma keeps_wsd_first total_sectors : ∀ fuel i ib_index position fl,
  keeps_registry (wsd_first fuel total_sectors i ib_index position fl).
Proof.
  induction fuel as [|fuel IH]; intros i ib_index position fl;
    cbn [wsd_first]; [apply keeps_fail|].
  destruct (_ <? _); [|apply keeps_ret].
  destruct (_ <? _); [|apply keeps_fail].
  apply keeps_bind; [apply keeps_allocate_position|intros p].
  cbv zeta.
  apply keeps_bind; [apply keeps_wsd_second|intros [[k p2] sl]].
  apply keeps_bind; [apply keeps_lift|intros s].
  apply keeps_bind; [apply keeps_block_write|intros _]. apply IH.
Qed.

Lemma keeps_inode_create sector length calloc_ok :
  keeps_registry (inode_create sector length calloc_ok).
Proof.
  unfold inode_create, write_sectors_to_disk, free_map_unused.
  pose proof keeps_wsd_direct. pose proof keeps_wsd_first.
  pose proof keeps_allocate_position.
  keeps.
Qed.

Lemma keeps_read_loop h bounce_ok : ∀ fuel buffer size offset bytes_read,
  keeps_registry (read_loop fuel h bounce_ok buffer size offset bytes_read).
Proof.
  induction fuel as [|fuel IH]; intros buffer size offset bytes_read;
    cbn [read_loop]; [apply keeps_fail|].
  pose proof keeps_byte_to_sector. pose proof keeps_inode_length.
  unfold block_read. keeps; apply IH.
Qed.

Lemma keeps_write_loop h bounce_ok : ∀ fuel buffer size offset bytes_written,
  keeps_registry (write_loop fuel h bounce_ok buffer size offset bytes_written).
Proof.
  induction fuel as [|fuel IH]; intros buffer size offset bytes_written;
    cbn [write_loop]; [apply keeps_fail|].
  pose proof keeps_byte_to_sector. pose proof keeps_inode_length.
  unfold block_read. keeps; apply IH.
Qed.

Lemma keeps_close_direct d index : ∀ fuel i,
  keeps_registry (close_direct fuel d index i).
Proof.
  induction fuel as [|fuel IH]; intros i; cbn [close_direct];
    [apply keeps_fail|].
  keeps; apply IH.
Qed.

Lemma keeps_close_second ib index : ∀ fuel i r,
  keeps_registry (close_second fuel ib index i r).
Proof.
  induction fuel as [|fuel IH]; intros i r; cbn [close_second];
    [apply keeps_fail|].
  keeps; apply IH.
Qed.

Lemma keeps_close_first ib index : ∀ fuel i k,
  keeps_registry (close_first fuel ib index i k).
Proof.
  induction fuel as [|fuel IH]; intros i k; cbn [close_first];
    [apply keeps_fail|].
  pose proof keeps_close_second.
  unfold block_read_unset. keeps; apply IH.
Qed.

Lemma registry_inv_same st st' :
  same_registry st st' → registry_inv st → registry_inv st'.
Proof.
  intros [Hin Hop]. unfold registry_inv, registry_ok.
  by rewrite Hin, Hop.
Qed.

Lemma registry_inv_store st p ino ino' :
  registry_inv st → inodes st !! p = Some ino →
  Inode.sector ino' = Inode.sector ino →
  registry_inv (set_inodes (<[p := ino']> (inodes st)) st).
Proof.
  intros (Hok & Hnd & Huniq) Hp Hs.
  assert (Hold : ∀ q i, <[p := ino']> (inodes st) !! q = Some i →
                 ∃ i0, inodes st !! q = Some i0
                       ∧ Inode.sector i0 = Inode.sector i).
  { intros q i. destruct (decide (q = p)) as [->|Hne].
    - rewrite lookup_insert_eq. intros [= <-]. by exists ino.
    - rewrite lookup_insert_ne by done. intros Hq. by exists i. }
  split; [|split; [done|]].
  - intros q Hq. cbn [inodes set_inodes].
    destruct (decide (q = p)) as [->|Hne].
    + rewrite lookup_insert_eq. eauto.
    + rewrite lookup_insert_ne by done. by apply Hok.
  - cbn [inodes set_inodes open_inodes]. intros q1 q2 i1 i2 H1 H2 L1 L2 Hsec.
    destruct (Hold q1 i1 L1) as (j1 & Hj1 & E1).
    destruct (Hold q2 i2 L2) as (j2 & Hj2 & E2).
    apply (Huniq q1 q2 j1 j2); [done..|congruence].
Qed.

Lemma registry_inv_closed st st' p :
  registry_inv st →
  (∀ q, q ≠ p → inodes st' !! q = inodes st !! q) →
  open_inodes st' = filter (λ q, q ≠ p) (open_inodes st) →
  registry_inv st'.
Proof.
  intros (Hok & Hnd & Huniq) Hin Hop.
  split; [|split].
  - intros q. rewrite Hop. intros [Hne Hq]%list_elem_of_filter.
    rewrite Hin by done. by apply Hok.
  - rewrite Hop. by apply NoDup_filter.
  - intros q1 q2 i1 i2. rewrite Hop.
    intros [Hn1 H1]%list_elem_of_filter [Hn2 H2]%list_elem_of_filter.
    rewrite !Hin by done. by apply Huniq.
Qed.

Lemma find_open_not_open st sector : ∀ l,
  find_open l sector st = Some (None, st) →
  ∀ q ino, q ∈ l → inodes st !! q = Some ino → Inode.sector ino ≠ sector.
Proof.
  induction l as [|q0 l IH]; intros Hf q ino Hq Hino.
  { by apply elem_of_nil in Hq. }
  cbn [find_open] in Hf. unfold deref in Hf. munfold.
  destruct (inodes st !! q0) as [i0|] eqn:Hq0; [|done].
  destruct (Z.eqb_spec (Inode.sector i0) sector) as [Heq|Hne]; [done|].
  apply elem_of_cons in Hq as [->|Hq].
  - congruence.
  - by apply (IH Hf q ino).
Qed.

Lemma inode_open_inv st sector malloc_ok h st' :
  registry_inv st → inode_open sector malloc_ok st = Some (h, st') →
  registry_inv st'.
Proof.
  intros Hinv Hrun. pose proof Hinv as (Hok & Hnd & Huniq).
  destruct (find_open_cases st sector (open_inodes st) Hok)
    as [Hnone|(p & ino & Hp & Hl & Hs & Hf)].
  - destruct malloc_ok.
    2:{ rewrite (inode_open_no_memory st sector Hnone) in Hrun.
        by injection Hrun as _ <-. }
    pose proof (inode_open_new st sector Hnone) as Hnew. cbv zeta in Hnew.
    rewrite Hnew in Hrun. injection Hrun as _ <-.
    set (p := fresh (dom (inodes st))).
    assert (Hfresh : inodes st !! p = None).
    { apply not_elem_of_dom. apply is_fresh. }
    assert (Hp : p ∉ open_inodes st).
    { intros Hin. destruct (Hok p Hin) as [i Hi]. congruence. }
    pose proof (find_open_not_open st sector _ Hnone) as Hno.
    clearbody p. unfold registry_inv, registry_ok.
    split; [|split]; cbn [inodes open_inodes].
    + intros q [->|Hq]%elem_of_cons.
      * rewrite lookup_insert_eq. eauto.
      * rewrite lookup_insert_ne by (intros ->; done). by apply Hok.
    + by apply NoDup_cons.
    + intros q1 q2 i1 i2 [->|H1]%elem_of_cons [->|H2]%elem_of_cons; [done|..].
      * rewrite lookup_insert_eq.
        rewrite lookup_insert_ne by (intros ->; done).
        intros [= <-] L2 Hsec. cbn in Hsec.
        by destruct (Hno q2 i2 H2 L2).
      * rewrite lookup_insert_eq.
        rewrite lookup_insert_ne by (intros ->; done).
        intros L1 [= <-] Hsec. cbn in Hsec.
        by destruct (Hno q1 i1 H1 L1).
      * rewrite !lookup_insert_ne by (intros ->; done).
        by apply Huniq.
  - rewrite (inode_open_found st sector p ino malloc_ok Hf Hl) in Hrun.
    injection Hrun as _ <-. by apply (registry_inv_store st p ino).
Qed.

Lemma inode_close_inv st h st' :
  registry_inv st → inode_close h st = Some (tt, st') → registry_inv st'.
Proof.
  intros Hinv Hrun. destruct h as [p|]; [|by injection Hrun as <-].
  unfold inode_close in Hrun.
  apply bind_inv in Hrun as (ino & st0 & [-> Hp]%deref_inv & Hrun).
  apply bind_inv in Hrun as ([] & st1 & Hst & Hrun).
  injection Hst as <-.
  destruct (_ =? 0).
  2:{ injection Hrun as <-. by apply (registry_inv_store st p ino). }
  apply bind_inv in Hrun as ([] & st2 & Hst & Hrun). injection Hst as <-.
  apply bind_inv in Hrun as ([] & st3 & Hmid & Hrun). injection Hrun as <-.
  assert (Hkeep : keeps_registry
            (if Inode.removed ino then
               let d := Inode.data ino in
               let index :=
                 to_uint32 (Z.quot (InodeDisk.length d) BLOCK_SECTOR_SIZE) in
               i ← close_direct 125 d index 0;
               (if i <? index then
                  first_ib ← block_read_unset (InodeDisk.ib d);
                  close_first (S (Z.to_nat index)) first_ib index i 0
                else ret tt);;
               free_map_release (Inode.sector ino) 1
             else ret tt)).
  { pose proof keeps_close_direct. pose proof keeps_close_first.
    unfold block_read_unset. keeps. }
  destruct (Hkeep _ _ _ Hmid) as [Hin Hop].
  cbn [inodes open_inodes set_inodes set_open_inodes] in Hin, Hop.
  apply (registry_inv_closed st _ p Hinv).
  - intros q Hq. cbn [inodes set_inodes]. rewrite lookup_delete_ne by done.
    rewrite Hin. by rewrite lookup_insert_ne.
  - cbn [open_inodes set_inodes]. by rewrite Hop.
Qed.

Lemma inode_init_inv st st' :
  inode_init st = Some (tt, st') → registry_inv st'.
Proof.
  intros [= <-]. unfold registry_inv, registry_ok.
  split; [|split]; cbn [open_inodes set_open_inodes].
  - intros q Hq. by apply elem_of_nil in Hq.
  - apply NoDup_nil_2.
  - intros q1 q2 i1 i2 Hq. by apply elem_of_nil in Hq.
Qed.

Lemma run_call_inv c st st' :
  registry_inv st → run_call c st = Some (tt, st') → registry_inv st'.
Proof.
  intros Hinv Hrun. destruct c; cbn [run_call] in Hrun.
  - (* inode_init *)
    by apply (inode_init_inv st).
  - (* inode_create *)
    apply bind_inv in Hrun as (b & st1 & Hc & [= <-]).
    apply (registry_inv_same st); [|done].
    exact (keeps_inode_create _ _ _ _ _ _ Hc).
  - (* inode_open *)
    apply bind_inv in Hrun as (h & st1 & Ho & [= <-]).
    by apply (inode_open_inv st sector malloc_ok h).
  - (* inode_reopen *)
    apply bind_inv in Hrun as (h & st1 & Ho & [= <-]).
    destruct inode as [p|]; [|by injection Ho as _ <-].
    unfold inode_reopen in Ho.
    apply bind_inv in Ho as (ino & st0 & [-> Hp]%deref_inv & Ho).
    apply bind_inv in Ho as ([] & st2 & [= <-] & [= _ <-]).
    by apply (registry_inv_store st p ino).
  - (* inode_get_inumber *)
    apply bind_inv in Hrun as (s & st1 & Ho & [= <-]).
    apply (registry_inv_same st); [|done].
    revert Ho. unfold inode_get_inumber. generalize st s st1.
    change (keeps_registry (i ← deref inode; ret (Inode.sector i))). keeps.
  - (* inode_close *)
    by apply (inode_close_inv st inode).
  - (* inode_remove *)
    destruct inode as [p|]; [|done]. unfold inode_remove in Hrun.
    apply bind_inv in Hrun as (ino & st0 & [-> Hp]%deref_inv & [= <-]).
    by apply (registry_inv_store st p ino).
  - (* inode_read_at *)
    apply bind_inv in Hrun as (r & st1 & Ho & [= <-]).
    apply (registry_inv_same st); [|done].
    exact (keeps_read_loop _ _ _ _ _ _ _ _ _ _ Ho).
  - (* inode_write_at *)
    apply bind_inv in Hrun as (r & st1 & Ho & [= <-]).
    apply (registry_inv_same st); [|done].
    revert Ho. unfold inode_write_at. generalize st r st1.
    change (keeps_registry
              (i ← deref inode;
               if negb (Inode.deny_write_cnt i =? 0) then ret 0
               else write_loop (S (Z.to_nat size)) inode bounce_ok buffer size
                      offset 0)).
    pose proof keeps_write_loop. keeps.
  - (* inode_deny_write *)
    destruct inode as [p|]; [|done]. unfold inode_deny_write in Hrun.
    apply bind_inv in Hrun as (ino & st0 & [-> Hp]%deref_inv & Hrun).
    apply bind_inv in Hrun as ([] & st2 & [= <-] & Hrun).
    destruct (_ <=? _); [|done]. injection Hrun as <-.
    by apply (registry_inv_store st p ino).
  - (* inode_allow_write *)
    destruct inode as [p|]; [|done]. unfold inode_allow_write in Hrun.
    apply bind_inv in Hrun as (ino & st0 & [-> Hp]%deref_inv & Hrun).
    destruct (0 <? _); [|done]. destruct (_ <=? _); [|done].
    injection Hrun as <-. by apply (registry_inv_store st p ino).
  - (* inode_length *)
    apply bind_inv in Hrun as (s & st1 & Ho & [= <-]).
    apply (registry_inv_same st); [|done].
    exact (keeps_inode_length _ _ _ _ Ho).
Qed.

Lemma run_calls_inv cs : ∀ st st',
  registry_inv st → run_calls cs st = Some (tt, st') → registry_inv st'.
Proof.
  induction cs as [|c cs IH]; intros st st' Hinv Hrun; cbn [run_calls] in Hrun.
  - by injection Hrun as <-.
  - apply bind_inv in Hrun as ([] & st1 & Hc & Hrun).
    apply (IH st1); [|done]. by apply (run_call_inv c st).
Qed.

(** X21: the invariant of the list of open inodes. After [inode_init],
    whatever calls of the module's functions follow, with whatever
    arguments, the state they reach has every pointer of the list of open
    inodes pointing to an allocated inode, no pointer listed twice, and at
    most one open inode for each sector. *)
Theorem open_inodes_invariant (cs : list call) (st st' : fs) :
  (inode_init;; run_calls cs) st = Some (tt, st') → registry_inv st'.
Proof.
  intros ([] & st1 & Hinit & Hrun)%bind_inv.
  apply (run_calls_inv cs st1); [|done].
  by apply (inode_init_inv st).
Qed.

Lemma open_inodes_invariant_witness :
  registry_inv
    (state_after
       (inode_init;;
        run_calls [Create 10 600 true; Open 10 true; Open 10 true;
                   Remove (Some 0%nat); Close (Some 0%nat)])
       example_fs).
Proof.
  apply (open_inodes_invariant
           [Create 10 600 true; Open 10 true; Open 10 true;
            Remove (Some 0%nat); Close (Some 0%nat)] example_fs).
  vm_compute. reflexivity.
Defined.

(** ** Writes without a bounce buffer *)

(** One turn of the writing loop from a sector boundary with a whole
    sector of the file to write: the bounce buffer is not used. *)
Lemma write_loop_whole_sector p ino bounce_ok :
  no_indirect ino →
  ∀ fuel st buffer size offset bytes_written,
    inodes st !! p = Some ino →
    512 ≤ size → 0 ≤ offset → offset mod 512 = 0 →
    offset + 512 ≤ InodeDisk.length (Inode.data ino) →
    0 ≤ bytes_written → bytes_written + size < 2 ^ 31 →
    ∃ s,
      byte_to_sector (Some p) offset st = Some (s, st) ∧
      write_loop (S fuel) (Some p) bounce_ok buffer size offset bytes_written
        st
      = write_loop fuel (Some p) bounce_ok buffer (size - 512) (offset + 512)
          (bytes_written + 512)
          (set_fs_device
             (<[s := take 512 (buffer_load buffer bytes_written 512)]>
                (fs_device st)) st).
Proof.
  intros Hok fuel st buffer size offset bytes_written Hp Hsize Hoff Hal Hfit
         Hwr Hint.
  pose proof Hok as [_ Hmax]. unfold DIRECT_BLOCK in Hmax.
  set (len := InodeDisk.length (Inode.data ino)) in *.
  destruct (byte_to_sector_defined st p ino offset Hp Hok) as [s Hs]; [lia|].
  exists s. split; [exact Hs|].
  cbn [write_loop].
  destruct (Z.ltb_spec 0 size); [|lia].
  unfold mbind at 1, M_bind at 1, bind at 1. rewrite Hs.
  unfold mbind at 1, M_bind at 1, bind at 1.
  rewrite (inode_length_eq st p ino Hp). fold len.
  unfold BLOCK_SECTOR_SIZE.
  rewrite Z.rem_mod_nonneg by lia. rewrite Hal.
  rewrite (to_int32_small (len - offset)) by lia.
  change (512 - 0) with 512. change (0 =? 0) with true. cbn [andb].
  destruct (Z.ltb_spec (len - offset) 512); [lia|].
  destruct (Z.ltb_spec size 512); [lia|].
  change (512 <=? 0) with false. change (512 =? 512) with true. cbv iota.
  unfold mbind at 1, M_bind at 1, bind at 1, block_write, modify.
  by rewrite !to_int32_small by lia.
Qed.

(** From a sector boundary with less than a whole sector to write, the
    writing loop without a bounce buffer stops. *)
Lemma write_loop_no_bounce_stops p ino :
  no_indirect ino →
  ∀ fuel st buffer size offset bytes_written,
    inodes st !! p = Some ino →
    0 ≤ offset < 2 ^ 31 → offset mod 512 = 0 →
    Z.min size (Z.max 0 (InodeDisk.length (Inode.data ino) - offset)) < 512 →
    write_loop (S fuel) (Some p) false buffer size offset bytes_written st
    = Some (bytes_written, st).
Proof.
  intros Hok fuel st buffer size offset bytes_written Hp Hoff Hal Hshort.
  pose proof Hok as [_ Hmax]. unfold DIRECT_BLOCK in Hmax.
  set (len := InodeDisk.length (Inode.data ino)) in *.
  cbn [write_loop].
  destruct (Z.ltb_spec 0 size); [|done].
  destruct (byte_to_sector_defined st p ino offset Hp Hok Hoff) as [s Hs].
  unfold mbind at 1, M_bind at 1, bind at 1. rewrite Hs.
  unfold mbind at 1, M_bind at 1, bind at 1.
  rewrite (inode_length_eq st p ino Hp). fold len.
  unfold BLOCK_SECTOR_SIZE.
  rewrite Z.rem_mod_nonneg by lia. rewrite Hal.
  rewrite (to_int32_small (len - offset)) by lia.
  change (512 - 0) with 512. change (0 =? 0) with true. cbn [andb].
  set (min_left := if len - offset <? 512 then len - offset else 512).
  set (chunk_size := if size <? min_left then size else min_left).
  assert (Hchunk : chunk_size = Z.min size (Z.min (len - offset) 512)).
  { subst chunk_size min_left.
    destruct (Z.ltb_spec (len - offset) 512);
      match goal with |- context [size <? ?k] =>
        destruct (Z.ltb_spec size k) end; lia. }
  clearbody chunk_size. clear min_left.
  destruct (Z.leb_spec chunk_size 0); [done|].
  destruct (Z.eqb_spec chunk_size 512); [lia|done].
Qed.

(** From a sector boundary, the writing loop without a bounce buffer does
    what the loop with one does for the leading whole sectors. *)
Lemma write_loop_no_bounce p ino :
  no_indirect ino →
  ∀ fuel st buffer size offset bytes_written,
    inodes st !! p = Some ino →
    0 ≤ size → 0 ≤ offset < 2 ^ 31 → offset mod 512 = 0 →
    0 ≤ bytes_written → bytes_written + size < 2 ^ 31 →
    (Z.to_nat size < fuel)%nat →
    let m := Z.min size
               (Z.max 0 (InodeDisk.length (Inode.data ino) - offset)) in
    write_loop fuel (Some p) false buffer size offset bytes_written st
    = write_loop fuel (Some p) true buffer (512 * (m / 512)) offset
        bytes_written st.
Proof.
  intros Hok.
  pose proof Hok as [_ Hmax]. unfold DIRECT_BLOCK in Hmax.
  set (len := InodeDisk.length (Inode.data ino)) in *.
  induction fuel as [|fuel IH];
    intros st buffer size offset bytes_written Hp Hsize Hoff Hal Hwr Hint
           Hfuel m; [lia|].
  destruct (Z.lt_ge_cases m 512) as [Hshort|Hlong].
  - rewrite (Z.div_small m 512) by lia. change (512 * 0) with 0.
    rewrite (write_loop_no_bounce_stops p ino Hok) by done.
    reflexivity.
  - pose proof (Z.mul_div_le m 512 ltac:(lia)) as Hle.
    assert (Hdiv : 1 ≤ m / 512) by (apply Z.div_le_lower_bound; lia).
    destruct (write_loop_whole_sector p ino false Hok fuel st buffer size
                offset bytes_written Hp) as (s & Hs & ->); try lia.
    destruct (write_loop_whole_sector p ino true Hok fuel st buffer
                (512 * (m / 512)) offset bytes_written Hp)
      as (s' & Hs' & ->); try lia.
    rewrite Hs in Hs'. injection Hs' as <-.
    rewrite IH; try lia.
    + cbv zeta. do 2 f_equal.
      replace (Z.min (size - 512) (Z.max 0 (len - (offset + 512))))
        with (m + (- 1) * 512) by lia.
      rewrite Z.div_add by lia. lia.
    + exact Hp.
    + rewrite <- Z.add_mod_idemp_l, Hal by lia. reflexivity.
Qed.

(** X22: when no bounce buffer can be allocated, [inode_write_at] on a
    file without indirect blocks whose writes are not denied does not
    fail: from an offset on a sector boundary it writes the leading whole
    sectors of what it would write and stops at the first sector to be
    written in part, so the count is the largest multiple of 512 within
    the bytes between the offset and the end of the file, those bytes of
    the buffer are stored in the file and nothing else on the device, in
    the free map or in the in-memory inodes changes; from any other offset
    it returns 0 and changes nothing. *)
Theorem inode_write_at_no_bounce (st : fs) (p : nat) (ino : inode)
    (buffer : memory) (size offset : Z) :
  inodes st !! p = Some ino → direct_ok ino →
  Inode.deny_write_cnt ino = 0 →
  0 ≤ size < 2 ^ 31 → 0 ≤ offset < 2 ^ 31 →
  let len := InodeDisk.length (Inode.data ino) in
  let m := Z.min size (Z.max 0 (len - offset)) in
  let n := 512 * (m / 512) in
  (offset mod 512 = 0 →
   ∃ st',
     inode_write_at (Some p) buffer size offset false st = Some (n, st') ∧
     same_registry st st' ∧ free_map st' = free_map st ∧
     (∀ s, s ∉ data_sectors ino →
           sector_contents st' s = sector_contents st s) ∧
     (∀ pos, 0 ≤ pos < len →
        file_byte st' (Some p) pos
        = if decide (offset ≤ pos < offset + n)
          then Some (buffer (pos - offset))
          else file_byte st (Some p) pos)) ∧
  (offset mod 512 ≠ 0 →
   inode_write_at (Some p) buffer size offset false st = Some (0, st)).
Proof.
  intros Hp Hdirect Hd Hsize Hoff len m n.
  pose proof (direct_ok_no_indirect ino Hdirect) as Hok.
  pose proof Hok as [_ Hmax]. unfold DIRECT_BLOCK in Hmax. fold len in Hmax.
  rewrite (write_allowed st p ino) by done. split.
  - intros Hal.
    rewrite (write_loop_no_bounce p ino Hok) by (done || lia).
    fold len m n.
    pose proof (Z.mul_div_le m 512 ltac:(lia)) as Hle. fold n in Hle.
    assert (0 ≤ n) by (subst n; apply Z.mul_nonneg_nonneg;
                       [lia|apply Z.div_pos; lia]).
    destruct (write_loop_content p ino Hdirect (S (Z.to_nat size)) st buffer
                n offset 0 Hp)
      as (st' & Hrun & Hreg & Hfree & Hframe & Hbytes); try lia.
    fold len in Hrun, Hbytes.
    replace (Z.min n (Z.max 0 (len - offset))) with n in * by lia.
    exists st'. split; [exact Hrun|]. do 3 (split; [done|]).
    intros pos Hpos. rewrite (Hbytes pos Hpos).
    destruct (decide _); [|done]. by rewrite Z.add_0_l.
  - intros Hun. cbn [write_loop].
    destruct (Z.ltb_spec 0 size) as [Hpos|Hzero]; [|done].
    destruct (byte_to_sector_defined st p ino offset Hp Hok Hoff) as [s Hs].
    unfold mbind at 1, M_bind at 1, bind at 1. rewrite Hs.
    unfold mbind at 1, M_bind at 1, bind at 1.
    rewrite (inode_length_eq st p ino Hp).
    unfold BLOCK_SECTOR_SIZE. rewrite Z.rem_mod_nonneg by lia.
    destruct (Z.eqb_spec (offset mod 512) 0) as [|_]; [done|]. cbn [andb].
    by destruct (_ <=? 0).
Qed.

Lemma inode_write_at_no_bounce_witness :
  let st := example_open 600 in
  (∃ st',
     inode_write_at (Some 0%nat) sector_pattern 1000 0 false st
     = Some (512, st') ∧
     file_byte st' (Some 0%nat) 511 = Some (sector_pattern 511) ∧
     file_byte st' (Some 0%nat) 512 = file_byte st (Some 0%nat) 512) ∧
  inode_write_at (Some 0%nat) sector_pattern 1000 100 false st
  = Some (0, st).
Proof.
  intros st.
  destruct (inode_write_at_no_bounce st 0 (inode_at st 0) sector_pattern
              1000 0 example_open_lookup example_open_direct_ok) as [H1 _].
  - vm_compute. reflexivity.
  - lia.
  - lia.
  - destruct (inode_write_at_no_bounce st 0 (inode_at st 0) sector_pattern
                1000 100 example_open_lookup example_open_direct_ok)
      as [_ H2].
    + vm_compute. reflexivity.
    + lia.
    + lia.
    + split.
      * destruct (H1 eq_refl) as (st' & Hw & _ & _ & _ & Hb).
        exists st'. split; [exact Hw|]. split.
        -- apply (Hb 511). vm_compute. split; [discriminate|reflexivity].
        -- apply (Hb 512). vm_compute. split; [discriminate|reflexivity].
      * apply H2. vm_compute. discriminate.
Defined.
